(** * rscout: the result-processing pipeline, embedded and verified

    A shallow embedding of the pipeline of rscout (Deduplicator, Scorer,
    BM25 / hybrid scorer, Categorizer, QueryRefiner, the selection parser of
    the interactive mode and the Fetcher), followed by the properties the
    specification states about them.

    Conventions of the embedding.
    - A JavaScript string is a [string]: a sequence of code units, here the
      code units U+0000 to U+00FF.  [toLowerCase], the classes [\w], [\s]
      and [\d] and white-space trimming are those of ECMAScript on that range.
    - A JavaScript number is an exact rational ([Q]); integers that index or
      count are [Z] or [nat].  NaN is an absent value ([None]) where the code
      can produce one ([parseInt]).
    - What the platform provides and the repository does not define (the
      WHATWG [URL] parser, [Math.log]) is a parameter of the definitions
      that use it.
    - Objects that the code mutates through shared references live in an
      explicit store indexed by locations. *)

From Stdlib Require Import ZArith QArith Qminmax Qabs Lia Lqa Ascii String List Bool.
From stdpp Require Import base option list sorting functions gmap strings relations.


(** ** The JavaScript runtime: strings and arrays *)

Module JS.

(** *** Code units *)

Definition code (c : ascii) : N := N_of_ascii c.

Definition in_range (lo hi : N) (c : ascii) : bool :=
  ((lo <=? code c) && (code c <=? hi))%N.

(** [\d] *)
Definition isDigit (c : ascii) : bool := in_range 48 57 c.

(** [\w] is [A-Za-z0-9_]: the pattern carries no unicode flag. *)
Definition isWord (c : ascii) : bool :=
  in_range 48 57 c || in_range 65 90 c || in_range 97 122 c || (code c =? 95)%N.

(** [\s], and the characters [trim] and [parseInt] skip: TAB, LF, VT, FF, CR,
    SPACE and NBSP. *)
Definition isSpace (c : ascii) : bool :=
  in_range 9 13 c || (code c =? 32)%N || (code c =? 160)%N.

(** One code unit of [String.prototype.toLowerCase]: A-Z, and the upper-case
    letters of Latin-1 (U+00C0 to U+00DE but the multiplication sign). *)
Definition lowerChar (c : ascii) : ascii :=
  if in_range 65 90 c || (in_range 192 222 c && negb (code c =? 215)%N)
  then ascii_of_N (code c + 32)
  else c.

Fixpoint toLowerCase (s : string) : string :=
  match s with
  | EmptyString => EmptyString
  | String c r => String (lowerChar c) (toLowerCase r)
  end.

(** *** Strings *)

Definition len (s : string) : nat := String.length s.

(** [[...s].every(p)] *)
Fixpoint everyChar (p : ascii -> bool) (s : string) : bool :=
  match s with
  | EmptyString => true
  | String c r => p c && everyChar p r
  end.

(** The characters of [\w] that are in lower case: [a-z0-9_]. *)
Definition isLowerWord (c : ascii) : bool :=
  in_range 48 57 c || in_range 97 122 c || (code c =? 95)%N.

Fixpoint mapChars (f : ascii -> ascii) (s : string) : string :=
  match s with
  | EmptyString => EmptyString
  | String c r => String (f c) (mapChars f r)
  end.

Fixpoint revApp (s acc : string) : string :=
  match s with
  | EmptyString => acc
  | String c r => revApp r (String c acc)
  end.

Definition rev (s : string) : string := revApp s EmptyString.

(** [s.startsWith(p)] *)
Fixpoint startsWith (s p : string) : bool :=
  match p, s with
  | EmptyString, _ => true
  | String _ _, EmptyString => false
  | String a p', String b s' => Ascii.eqb a b && startsWith s' p'
  end.

(** [s.endsWith(p)] *)
Definition endsWith (s p : string) : bool := startsWith (rev s) (rev p).

(** [s.includes(p)] *)
Fixpoint includes (s p : string) : bool :=
  startsWith s p ||
  match s with
  | EmptyString => false
  | String _ r => includes r p
  end.

(** [s.slice(n)] for [0 <= n] *)
Fixpoint sliceFrom (n : nat) (s : string) : string :=
  match n, s with
  | O, _ => s
  | S _, EmptyString => EmptyString
  | S n', String _ r => sliceFrom n' r
  end.

(** [s.slice(0, -1)] *)
Fixpoint dropLast (s : string) : string :=
  match s with
  | EmptyString => EmptyString
  | String c EmptyString => EmptyString
  | String c r => String c (dropLast r)
  end.

(** [s.replace(p, '')] for a string pattern [p]: the first occurrence goes. *)
Fixpoint removeFirst (s p : string) : string :=
  if startsWith s p then sliceFrom (len p) s
  else match s with
       | EmptyString => EmptyString
       | String c r => String c (removeFirst r p)
       end.

Fixpoint trimStart (s : string) : string :=
  match s with
  | EmptyString => EmptyString
  | String c r => if isSpace c then trimStart r else s
  end.

(** [s.trim()] *)
Definition trim (s : string) : string := rev (trimStart (rev (trimStart s))).

(** [parts.join(sep)] *)
Fixpoint join (sep : string) (parts : list string) : string :=
  match parts with
  | [] => EmptyString
  | [x] => x
  | x :: rest => x +:+ sep +:+ join sep rest
  end.

(** [s.split(sep)] for a separator of one code unit. *)
Fixpoint splitChar_go (sep : ascii) (s cur : string) : list string :=
  match s with
  | EmptyString => [rev cur]
  | String c r =>
      if Ascii.eqb c sep then rev cur :: splitChar_go sep r EmptyString
      else splitChar_go sep r (String c cur)
  end.

Definition splitChar (sep : ascii) (s : string) : list string :=
  splitChar_go sep s EmptyString.

(** [s.split(/\s+/)]: the pieces between the maximal runs of white space; a run
    at either end leaves an empty piece there, and the empty string gives
    one empty piece. *)
Fixpoint splitSpaces_go (s cur : string) (inRun : bool) : list string :=
  match s with
  | EmptyString => [rev cur]
  | String c r =>
      if isSpace c then
        if inRun then splitSpaces_go r EmptyString true
        else rev cur :: splitSpaces_go r EmptyString true
      else splitSpaces_go r (String c cur) false
  end.

Definition splitSpaces (s : string) : list string :=
  splitSpaces_go s EmptyString false.

(** [s.replace(/\s+/g, ' ')] *)
Fixpoint collapseSpaces_go (s : string) (inRun : bool) : string :=
  match s with
  | EmptyString => EmptyString
  | String c r =>
      if isSpace c then
        if inRun then collapseSpaces_go r true
        else String " " (collapseSpaces_go r true)
      else String c (collapseSpaces_go r false)
  end.

Definition collapseSpaces (s : string) : string := collapseSpaces_go s false.

(** *** Numbers read from strings *)

Definition digitVal (c : ascii) : Z := Z.of_N (code c) - 48.

Fixpoint digits_go (s : string) (acc : Z) : Z :=
  match s with
  | EmptyString => acc
  | String c r => if isDigit c then digits_go r (10 * acc + digitVal c) else acc
  end.

Definition startsWithDigit (s : string) : bool :=
  match s with
  | String c _ => isDigit c
  | EmptyString => false
  end.

(** [parseInt(s, 10)]: leading white space, an optional sign, then the longest
    run of decimal digits; [None] is NaN (no digit). *)
Definition parseInt (s : string) : option Z :=
  match trimStart s with
  | String "-" r => if startsWithDigit r then Some (- digits_go r 0)%Z else None
  | String "+" r => if startsWithDigit r then Some (digits_go r 0) else None
  | t => if startsWithDigit t then Some (digits_go t 0) else None
  end.

(** [x > 0] on numbers *)
Definition positive (x : Q) : bool := negb (Qle_bool x 0).

(** *** Arrays *)

Section Arrays.
Context {A : Type}.

(** [[...new Set(xs)]]: the first occurrence of each element, in order. *)
Fixpoint uniq_go (eqb : A -> A -> bool) (seen xs : list A) : list A :=
  match xs with
  | [] => []
  | x :: r =>
      if existsb (eqb x) seen then uniq_go eqb seen r
      else x :: uniq_go eqb (x :: seen) r
  end.

Definition uniq (eqb : A -> A -> bool) (xs : list A) : list A :=
  uniq_go eqb [] xs.

(** [xs.sort(cmp)]: the sort is stable; [after a b] says that the comparator
    puts [a] after [b] ([cmp(a, b) > 0]). *)
Fixpoint insertSorted (after : A -> A -> bool) (x : A) (xs : list A) : list A :=
  match xs with
  | [] => [x]
  | y :: r => if after x y then y :: insertSorted after x r else x :: xs
  end.

Fixpoint sortBy (after : A -> A -> bool) (xs : list A) : list A :=
  match xs with
  | [] => []
  | x :: r => insertSorted after x (sortBy after r)
  end.

End Arrays.

(** The default order of [Array.prototype.sort] on strings: by code units. *)
Definition strAfter (a b : string) : bool := String.ltb b a.

End JS.

(** ** The platform's URL class *)

(** The components of a parsed URL that the pipeline reads.  [searchParams] is
    the decoded list of name/value pairs behind [URLSearchParams]. *)
Record URL := mkURL {
  protocol : string;
  hostname : string;
  pathname : string;
  searchParams : list (string * string);
  hash : string
}.

(** [new URL(s)]: the parsed URL, or [None] when the constructor throws. *)
Definition URLParser := string -> option URL.

(** ** Results ([providers/types.ts]) *)

Inductive ProviderName := brave | duckduckgo | serp | rss.

Definition providerTag (p : ProviderName) : string :=
  match p with
  | brave => "brave"
  | duckduckgo => "duckduckgo"
  | serp => "serp"
  | rss => "rss"
  end.

#[global] Instance ProviderName_eq_dec : EqDecision ProviderName.
Proof. solve_decision. Defined.

(** Locations of the store: arrays and result objects are reached through
    references. *)
Definition loc := positive.

(** A value of the open metadata bag ([Record<string, unknown>]).  An array is
    a reference into the store; [VObject] is any other object. *)
Inductive value :=
  | VUndefined
  | VNull
  | VBool (b : bool)
  | VNum (q : Q)
  | VStr (s : string)
  | VArray (a : loc)
  | VObject (o : loc).

(** JavaScript truthiness. *)
Definition truthy (v : value) : bool :=
  match v with
  | VUndefined | VNull => false
  | VBool b => b
  | VNum q => negb (Qeq_bool q 0)
  | VStr s => negb (String.eqb s "")
  | VArray _ | VObject _ => true
  end.

Record SearchResult := mkSearchResult {
  url : string;
  title : string;
  snippet : string;
  source : ProviderName;
  timestamp : Z;                       (* milliseconds since the epoch *)
  metadata : option (gmap string value)
}.

Record ScoredResult := mkScoredResult {
  s_url : string;
  s_title : string;
  s_snippet : string;
  s_source : ProviderName;
  s_timestamp : Z;
  s_metadata : option (gmap string value);
  s_score : Q
}.

Record CategorizedResult := mkCategorizedResult {
  c_url : string;
  c_title : string;
  c_snippet : string;
  c_source : ProviderName;
  c_timestamp : Z;
  c_metadata : option (gmap string value);
  c_score : Q;
  categories : list string
}.

(** ** Categorizer ([Categorizer], bm25.ts) *)

Module Categorizer.

Inductive RuleType := domain | keyword | url_pattern.

(** [value: string | string[]] *)
Inductive RuleValue :=
  | One (v : string)
  | Many (vs : list string).

Record CategoryRule := {
  type : RuleType;
  rvalue : RuleValue;
  weight : option Q
}.

Record Category := {
  name : string;
  description : option string;
  rules : list CategoryRule
}.

Definition rule (t : RuleType) (vs : list string) : CategoryRule :=
  {| type := t; rvalue := Many vs; weight := None |}.

Definition DEFAULT_CATEGORIES : list Category :=
  [ {| name := "Documentation";
       description := Some "Official documentation and reference materials";
       rules :=
         [ rule domain ["docs."; "documentation."; "developer."; "devdocs."];
           rule keyword ["documentation"; "docs"; "api reference"; "guide"];
           rule url_pattern ["/docs/"; "/documentation/"; "/api/"; "/reference/"] ] |};
    {| name := "Tutorial";
       description := Some "Step-by-step tutorials and how-to guides";
       rules :=
         [ rule keyword ["tutorial"; "how to"; "step by step"; "getting started"; "learn"];
           rule url_pattern ["/tutorial"; "/guide/"; "/learn/"; "/howto/"] ] |};
    {| name := "Repository";
       description := Some "Source code repositories and packages";
       rules :=
         [ rule domain ["github.com"; "gitlab.com"; "bitbucket.org"; "npmjs.com"; "pypi.org"];
           rule url_pattern ["/repository/"; "/packages/"; "/releases/"] ] |};
    {| name := "Discussion";
       description := Some "Community discussions and Q&A";
       rules :=
         [ rule domain ["stackoverflow.com"; "reddit.com"; "discourse."; "discuss."];
           rule keyword ["question"; "answer"; "discussion"; "forum"; "community"] ] |};
    {| name := "Blog";
       description := Some "Blog posts and articles";
       rules :=
         [ rule domain ["medium.com"; "dev.to"; "hashnode."; "substack.com"];
           rule url_pattern ["/blog/"; "/posts/"; "/articles/"; "/news/"];
           rule keyword ["blog post"; "article"; "written by"] ] |};
    {| name := "News";
       description := Some "News articles and announcements";
       rules :=
         [ rule keyword ["announced"; "release"; "update"; "breaking"; "news"];
           rule url_pattern ["/news/"; "/announcements/"; "/press/"] ] |};
    {| name := "Video";
       description := Some "Video content";
       rules :=
         [ rule domain ["youtube.com"; "vimeo.com"; "twitch.tv"];
           rule url_pattern ["/watch"; "/video/"; "/videos/"] ] |};
    {| name := "Research";
       description := Some "Academic and research papers";
       rules :=
         [ rule domain ["arxiv.org"; "scholar.google"; "researchgate.net"; "academia.edu"];
           rule keyword ["paper"; "research"; "study"; "abstract"; "citation"];
           rule url_pattern ["/paper/"; "/publication/"; "/research/"] ] |} ].

(** The constructor: [customCategories ?? DEFAULT_CATEGORIES]. *)
Definition newCategorizer (customCategories : option (list Category)) : list Category :=
  default DEFAULT_CATEGORIES customCategories.

Definition valuesOf (r : CategoryRule) : list string :=
  match rvalue r with
  | One v => [v]
  | Many vs => vs
  end.

(** The inner [for ... of values] with its [break]. *)
Fixpoint anyValue (subject : string) (values : list string) : bool :=
  match values with
  | [] => false
  | v :: rest =>
      if JS.includes subject (JS.toLowerCase v) then true
      else anyValue subject rest
  end.

Section MatchCategories.
Variable parseURL : URLParser.
Variable categoryList : list Category.

Definition hostnameOf (result : ScoredResult) : string :=
  match parseURL (s_url result) with
  | Some u => JS.toLowerCase (hostname u)
  | None => ""
  end.

(** The [switch] on the rule type. *)
Definition ruleMatches (result : ScoredResult) (r : CategoryRule) : bool :=
  match type r with
  | domain => anyValue (hostnameOf result) (valuesOf r)
  | keyword =>
      anyValue (JS.toLowerCase (s_title result +:+ " " +:+ s_snippet result)) (valuesOf r)
  | url_pattern => anyValue (JS.toLowerCase (s_url result)) (valuesOf r)
  end.

(** The loop over a category's rules, [matched] being the flag it carries. *)
Fixpoint rulesLoop (result : ScoredResult) (matched : bool) (rs : list CategoryRule) : bool :=
  match rs with
  | [] => matched
  | r :: rest =>
      if matched then matched
      else rulesLoop result (ruleMatches result r) rest
  end.

(** The loop over the categories, [matches] being the array it pushes to. *)
Fixpoint categoriesLoop (result : ScoredResult) (cats : list Category)
    (matches : list string) : list string :=
  match cats with
  | [] => matches
  | c :: rest =>
      categoriesLoop result rest
        (if rulesLoop result false (rules c) then matches ++ [name c] else matches)
  end.

Definition matchCategories (result : ScoredResult) : list string :=
  let matches := categoriesLoop result categoryList [] in
  if (length matches =? 0)%nat then matches ++ ["General"] else matches.

Definition withCategories (r : ScoredResult) (cats : list string) : CategorizedResult :=
  {| c_url := s_url r; c_title := s_title r; c_snippet := s_snippet r;
     c_source := s_source r; c_timestamp := s_timestamp r;
     c_metadata := s_metadata r; c_score := s_score r; categories := cats |}.

Definition categorize (results : list ScoredResult) : list CategorizedResult :=
  map (fun result => withCategories result (matchCategories result)) results.

(** The wording of the specification: a category matches a result when any
    of its rules does, and the labels are the matching categories in
    definition order, or the sentinel when there is none. *)
Definition categoryMatches_spec (result : ScoredResult) (c : Category) : bool :=
  existsb (ruleMatches result) (rules c).

Definition labels_spec (result : ScoredResult) : list string :=
  match map name (filter (fun c => categoryMatches_spec result c = true) categoryList) with
  | [] => ["General"]
  | ms => ms
  end.

End MatchCategories.

(** *** The category list as the code holds it

    A categorizer holds a reference to its array of categories: the array it
    was given or, when it was given none, the one array [DEFAULT_CATEGORIES]
    of the module.  [addCategory] and [removeCategory] change that array in
    place. *)

Definition Arrays := gmap loc (list Category).

(** Where [DEFAULT_CATEGORIES] lives, and the arrays when the module is
    loaded. *)
Definition defaultCategories : loc := 1%positive.

Definition initialArrays : Arrays := {[ defaultCategories := DEFAULT_CATEGORIES ]}.

(** The constructor: [this.categories = customCategories ?? DEFAULT_CATEGORIES]. *)
Definition construct (customCategories : option loc) : loc :=
  default defaultCategories customCategories.

(** [this.categories], read. *)
Definition categoriesOf (self : loc) (arrays : Arrays) : list Category :=
  default [] (arrays !! self).

(** [getCategories()]: a copy of the array. *)
Definition getCategories (self : loc) (arrays : Arrays) : list Category :=
  categoriesOf self arrays.

(** [addCategory(category)]: [this.categories.push(category)]. *)
Definition addCategory (self : loc) (category : Category) (arrays : Arrays) : Arrays :=
  alter (fun cs => cs ++ [category]) self arrays.

(** [xs.findIndex(p)]; [None] is -1. *)
Fixpoint findIndex {A} (p : A -> bool) (xs : list A) : option nat :=
  match xs with
  | [] => None
  | x :: rest => if p x then Some 0 else S <$> findIndex p rest
  end.

(** [removeCategory(name)]: the first category of that name is spliced
    out. *)
Definition removeFrom (name : string) (cs : list Category) : list Category :=
  match findIndex (fun c => String.eqb (Categorizer.name c) name) cs with
  | Some index => delete index cs
  | None => cs
  end.

Definition removeCategory (self : loc) (name : string) (arrays : Arrays) : Arrays :=
  alter (removeFrom name) self arrays.

(** *** Grouping *)

(** [grouped.get(category)!.push(result)], after [grouped.set(category, [])]
    when the category has no entry yet; the map keeps its entries in
    insertion order. *)
Fixpoint pushGrouped (grouped : list (string * list CategorizedResult))
    (category : string) (result : CategorizedResult) : list (string * list CategorizedResult) :=
  match grouped with
  | [] => [(category, [result])]
  | (k, rs) :: rest =>
      if String.eqb k category then (k, rs ++ [result]) :: rest
      else (k, rs) :: pushGrouped rest category result
  end.

(** [groupByCategory(results)] *)
Definition groupByCategory (results : list CategorizedResult)
    : list (string * list CategorizedResult) :=
  fold_left
    (fun grouped result =>
       fold_left (fun grouped category => pushGrouped grouped category result)
                 (categories result) grouped)
    results [].

(** The pairs of a category and a result in the order the loops meet them,
    and the table they make: one entry per category, in order of first
    appearance, with the results met under it. *)
Definition labelled (results : list CategorizedResult) : list (string * CategorizedResult) :=
  flat_map (fun result => (fun category => (category, result)) <$> categories result) results.

Definition groupTable (pairs : list (string * CategorizedResult))
    : list (string * list CategorizedResult) :=
  (fun category => (category, snd <$> filter (fun p => fst p = category) pairs))
    <$> JS.uniq String.eqb (fst <$> pairs).

End Categorizer.

(** ** Interactive search: the selection parser ([InteractiveSearch]) *)

Module InteractiveSearch.

(** [for (let i = start; i <= end && i <= max; i++) if (i >= 1) push(i)],
    run for at most [fuel] iterations. *)
Fixpoint rangeLoop (fuel : nat) (i stop max : Z) (numbers : list Z) : list Z :=
  match fuel with
  | O => numbers
  | S fuel' =>
      if ((i <=? stop) && (i <=? max))%Z
      then rangeLoop fuel' (i + 1)%Z stop max
             (if (1 <=? i)%Z then numbers ++ [i] else numbers)
      else numbers
  end.

(** The iterations the loop can make from [i]. *)
Definition rangeFuel (i stop max : Z) : nat := Z.to_nat (Z.min stop max - i + 1).

(** [start && end && !isNaN(start) && !isNaN(end)]: neither NaN nor zero. *)
Definition usable (n : option Z) : bool :=
  match n with
  | Some z => negb (z =? 0)%Z
  | None => false
  end.

(** The body of the loop over the parts. *)
Definition partStep (max : Z) (numbers : list Z) (part : string) : list Z :=
  if JS.includes part "-" then
    match map (fun n => JS.parseInt (JS.trim n)) (JS.splitChar "-" part) with
    | Some start :: Some stop :: _ =>
        if usable (Some start) && usable (Some stop)
        then rangeLoop (rangeFuel start stop max) start stop max numbers
        else numbers
    | _ => numbers
    end
  else
    match JS.parseInt part with
    | Some num => if ((1 <=? num) && (num <=? max))%Z then numbers ++ [num] else numbers
    | None => numbers
    end.

Definition parseSelection (input : string) (max : Z) : list Z :=
  let parts := map JS.trim (JS.splitChar "," input) in
  let numbers := fold_left (partStep max) parts [] in
  JS.sortBy (fun a b => (0 <? a - b)%Z) (JS.uniq Z.eqb numbers).





End InteractiveSearch.

(** ** Query refiner ([QueryRefiner], refiner.ts) *)

Module Refiner.

Record RefinementOptions := {
  maxSuggestions : option nat;
  minTermLength : option nat;
  excludeOriginalTerms : option bool;
  includeNgrams : option bool
}.

Definition noOptions : RefinementOptions :=
  {| maxSuggestions := None; minTermLength := None;
     excludeOriginalTerms := None; includeNgrams := None |}.

Inductive Strategy := Expand | Narrow | Pivot.

Definition keepWordSpaceHyphen (c : ascii) : ascii :=
  if JS.isWord c || JS.isSpace c || Ascii.eqb c "-" then c else " "%char.

(** [tokenize]: lower case, everything but [\w], [\s] and the hyphen becomes a
    space, split on white space, keep the tokens of the minimum length. *)
Definition tokenize (options : RefinementOptions) (text : string) : list string :=
  filter (fun t => default 3 (minTermLength options) <= JS.len t)
    (JS.splitSpaces (JS.mapChars keepWordSpaceHyphen (JS.toLowerCase text))).

Record QueryRefiner := {
  originalQuery : string;
  options : RefinementOptions;
  originalTerms : list string
}.

(** The constructor. *)
Definition newQueryRefiner (q : string) (o : RefinementOptions) : QueryRefiner :=
  {| originalQuery := q; options := o;
     originalTerms := JS.uniq String.eqb (map JS.toLowerCase (tokenize o q)) |}.

Definition dquote : string := String (ascii_of_nat 34) EmptyString.

Definition buildRefinedQueries (self : QueryRefiner) (selectedTerms : list string)
    (strategy : Strategy) : list string :=
  let queries :=
    match strategy with
    | Expand =>
        map (fun term => originalQuery self +:+ " " +:+ term) selectedTerms ++
        (if decide (2 <= length selectedTerms)
         then [originalQuery self +:+ " " +:+ JS.join " " (take 2 selectedTerms)]
         else [])
    | Narrow =>
        map (fun term => dquote +:+ originalQuery self +:+ dquote +:+ " " +:+
                         dquote +:+ term +:+ dquote) selectedTerms
    | Pivot =>
        selectedTerms ++
        (if decide (2 <= length selectedTerms)
         then [JS.join " " selectedTerms]
         else [])
    end in
  JS.uniq String.eqb queries.

(** *** Suggestions *)

Definition STOP_WORDS : list string :=
  [ "a"; "an"; "and"; "are"; "as"; "at"; "be"; "by"; "for"; "from"; "has"; "he"; "in"; "is";
    "it"; "its"; "of"; "on"; "that"; "the"; "to"; "was"; "were"; "will"; "with"; "the";
    "this"; "but"; "they"; "have"; "had"; "what"; "when"; "where"; "who"; "which"; "why";
    "how"; "all"; "each"; "every"; "both"; "few"; "more"; "most"; "other"; "some"; "such";
    "no"; "nor"; "not"; "only"; "own"; "same"; "so"; "than"; "too"; "very"; "can"; "just";
    "should"; "now"; "also"; "into"; "over"; "after"; "before"; "between"; "under"; "again";
    "then"; "once"; "here"; "there"; "about"; "out"; "up"; "down"; "off"; "above"; "below";
    "any"; "been"; "being"; "could"; "did"; "does"; "doing"; "done"; "during"; "get"; "got";
    "getting"; "go"; "goes"; "going"; "gone"; "would"; "make"; "made"; "may"; "might";
    "much"; "must"; "need"; "our"; "ours"; "say"; "says"; "said"; "see"; "seen"; "take";
    "takes"; "took"; "their"; "them"; "these"; "those"; "through"; "until"; "upon"; "us";
    "use"; "used"; "using"; "want"; "wants"; "way"; "ways"; "well"; "went"; "while"; "work";
    "works"; "year"; "years"; "you"; "your"; "yourself"; "http"; "https"; "www"; "com";
    "org"; "net" ].

(** [STOP_WORDS.has(w)] *)
Definition isStopWord (w : string) : bool := existsb (String.eqb w) STOP_WORDS.

Definition ofNat (n : nat) : Q := inject_Z (Z.of_nat n).

(** An entry of a frequency map: [{ count, sources }], the set of sources in
    insertion order. *)
Record TermData := {
  count : Q;
  sources : list string
}.

(** A [Map] from terms to their data, in insertion order. *)
Definition FrequencyMap := list (string * TermData).

(** [set.has(x)] and [set.add(x)] *)
Definition setHas (set : list string) (x : string) : bool := existsb (String.eqb x) set.

Definition setAdd (set : list string) (x : string) : list string :=
  if setHas set x then set else set ++ [x].

(** The two branches of [addTerm] on the normalized term: the entry found is
    updated in place, a new entry goes to the end. *)
Fixpoint addNormalized (freq : FrequencyMap) (normalized source : string) (weight : Q)
    : FrequencyMap :=
  match freq with
  | [] => [(normalized, {| count := weight; sources := [source] |})]
  | (k, data) :: rest =>
      if String.eqb k normalized
      then (k, {| count := count data + weight; sources := setAdd (sources data) source |})
           :: rest
      else (k, data) :: addNormalized rest normalized source weight
  end.

Definition addTerm (freq : FrequencyMap) (term source : string) (weight : Q) : FrequencyMap :=
  addNormalized freq (JS.toLowerCase term) source weight.

(** The bigrams of [processText]: [tokens[i] + ' ' + tokens[i + 1]] for
    [i < tokens.length - 1]. *)
Fixpoint bigramsOf (tokens : list string) : list string :=
  match tokens with
  | t1 :: rest =>
      match rest with
      | t2 :: _ => (t1 +:+ " " +:+ t2) :: bigramsOf rest
      | [] => []
      end
  | [] => []
  end.

(** [/^\d+$/.test(term)] *)
Fixpoint allDigits_go (s : string) : bool :=
  match s with
  | EmptyString => true
  | String c r => JS.isDigit c && allDigits_go r
  end.

Definition allDigits (s : string) : bool :=
  match s with
  | EmptyString => false
  | _ => allDigits_go s
  end.

Definition calculateScore (term : string) (frequency : Q) (sources : list string)
    (totalResults : nat) : Q :=
  let freqScore := Qmin (frequency / ofNat totalResults) 1 in
  let sourceBonus := ((ofNat (length sources) - 1) * 0.1)%Q in
  let titleBonus := if setHas sources "title" then 0.2%Q else 0%Q in
  let idealLength := 8%Q in
  let lengthScore := (1 - Qabs (ofNat (JS.len term) - idealLength) / 20)%Q in
  Qmin 1 (freqScore + sourceBonus + titleBonus + lengthScore * 0.1)%Q.

Definition determinePrimarySource (sources : list string) : string :=
  if setHas sources "title" && setHas sources "snippet" then "combined"
  else if setHas sources "title" then "title"
  else if setHas sources "snippet" then "snippet"
  else "domain".

Record RefinementSuggestion := {
  term : string;
  score : Q;
  source : string;
  frequency : Q
}.

(** [domain.split('.')[0]?.split('-') ?? []] of the host name without its
    first [www.]; nothing when the URL does not parse (the [catch]). *)
Definition domainParts (parseURL : URLParser) (u : string) : list string :=
  match parseURL u with
  | Some parsed =>
      let domain := JS.removeFirst (hostname parsed) "www." in
      match JS.splitChar "." domain with
      | first :: _ => JS.splitChar "-" first
      | [] => []
      end
  | None => []
  end.

(** What the keys of the bigram map are: in lower case, with a space. *)
Definition bigramKey (k : string) : Prop :=
  JS.includes k " " = true /\ JS.toLowerCase k = k.

Section Suggestions.
Variable parseURL : URLParser.
Variable self : QueryRefiner.

Definition shouldIncludeTerm (term : string) : bool :=
  let lowerTerm := JS.toLowerCase term in
  if isStopWord lowerTerm then false
  else if negb (bool_decide (excludeOriginalTerms (options self) = Some false))
          && setHas (originalTerms self) lowerTerm then false
  else if (JS.len term <? default 3 (minTermLength (options self)))%nat then false
  else if allDigits term then false
  else true.

(** [processText]; the two maps are passed as a pair. *)
Definition processText (text : string) (maps : FrequencyMap * FrequencyMap)
    (source : string) (weight : Q) : FrequencyMap * FrequencyMap :=
  let tokens := tokenize (options self) text in
  (fold_left (fun termFreq token => addTerm termFreq token source weight) tokens (fst maps),
   fold_left (fun bigramFreq bigram => addTerm bigramFreq bigram source weight)
             (bigramsOf tokens) (snd maps)).

(** The body of the loop over the results. *)
Definition collect (maps : FrequencyMap * FrequencyMap) (result : SearchResult)
    : FrequencyMap * FrequencyMap :=
  let maps := processText (title result) maps "title" 2 in
  let maps := processText (snippet result) maps "snippet" 1 in
  (fold_left
     (fun termFreq part =>
        if (3 <=? JS.len part)%nat && negb (isStopWord (JS.toLowerCase part))
        then addTerm termFreq part "domain" 0.5
        else termFreq)
     (domainParts parseURL (url result)) (fst maps),
   snd maps).

(** The loop over the single terms. *)
Definition pushTerm (totalResults : nat) (suggestions : list RefinementSuggestion)
    (entry : string * TermData) : list RefinementSuggestion :=
  let '(term, data) := entry in
  if shouldIncludeTerm term
  then suggestions ++
       [{| term := term;
           score := calculateScore term (count data) (sources data) totalResults;
           source := determinePrimarySource (sources data);
           frequency := count data |}]
  else suggestions.

(** The loop over the bigrams. *)
Definition pushBigram (totalResults : nat) (suggestions : list RefinementSuggestion)
    (entry : string * TermData) : list RefinementSuggestion :=
  let '(bigram, data) := entry in
  if Qle_bool 2 (count data)
  then suggestions ++
       [{| term := bigram;
           score := (calculateScore bigram (count data) (sources data) totalResults * 1.2)%Q;
           source := "combined";
           frequency := count data |}]
  else suggestions.

(** [(a, b) => b.score - a.score] *)
Definition bySuggestionScoreDesc (a b : RefinementSuggestion) : bool :=
  JS.positive (score b - score a).

Definition extractSuggestions (results : list SearchResult) : list RefinementSuggestion :=
  let '(termFrequency, bigramFrequency) := fold_left collect results ([], []) in
  let suggestions := fold_left (pushTerm (length results)) termFrequency [] in
  let suggestions :=
    if negb (bool_decide (includeNgrams (options self) = Some false))
    then fold_left (pushBigram (length results)) bigramFrequency suggestions
    else suggestions in
  let suggestions := JS.sortBy bySuggestionScoreDesc suggestions in
  let maxSuggestions := default 10 (maxSuggestions (options self)) in
  take maxSuggestions suggestions.

End Suggestions.

End Refiner.

(** ** The platform's URLSearchParams *)

Module URLSearchParams.

(** [params.delete(name)] *)
Definition delete (name : string) (params : list (string * string)) : list (string * string) :=
  filter (fun p => negb (String.eqb (fst p) name) = true) params.

(** [params.sort()]: stable, by the code units of the names. *)
Definition sort (params : list (string * string)) : list (string * string) :=
  JS.sortBy (fun a b => String.ltb (fst b) (fst a)) params.

Definition hexDigit (n : N) : ascii :=
  ascii_of_N (if (n <? 10)%N then 48 + n else 55 + n).

Definition percent (byte : N) : string :=
  String "%" (String (hexDigit (byte / 16)) (String (hexDigit (byte mod 16)) EmptyString)).

(** One code unit under the application/x-www-form-urlencoded serializer:
    letters, digits and [*-._] stay, a space becomes [+], anything else is
    the percent-encoding of its UTF-8 bytes. *)
Definition encodeChar (c : ascii) : string :=
  let n := JS.code c in
  if JS.in_range 48 57 c || JS.in_range 65 90 c || JS.in_range 97 122 c
     || (n =? 42)%N || (n =? 45)%N || (n =? 46)%N || (n =? 95)%N
  then String c EmptyString
  else if (n =? 32)%N then "+"
  else if (n <? 128)%N then percent n
  else percent (192 + n / 64) +:+ percent (128 + n mod 64).

Fixpoint encode (s : string) : string :=
  match s with
  | EmptyString => EmptyString
  | String c r => encodeChar c +:+ encode r
  end.

(** [params.toString()] *)
Definition toString (params : list (string * string)) : string :=
  JS.join "&" (map (fun p => encode (fst p) +:+ "=" +:+ encode (snd p)) params).

End URLSearchParams.

(** ** The store *)

(** Result objects and arrays are shared by reference: the input array,
    the [seen] map and the output array of the Deduplicator hold the same
    objects.  Every location holds a result object; arrays are allocated. *)
Record Store := mkStore {
  objects : loc -> SearchResult;
  arrays : gmap loc (list value)
}.

(** ** Deduplicator ([Deduplicator], refiner.ts) *)

Module Deduplicator.

Record DeduplicationConfig := {
  urlNormalization : bool;
  contentFingerprint : bool;
  similarityThreshold : Q
}.

Definition trackingParams : list string :=
  [ "utm_source"; "utm_medium"; "utm_campaign"; "utm_term"; "utm_content";
    "fbclid"; "gclid"; "ref"; "source"; "mc_eid"; "mc_cid" ].

(** [parsed.hash = ''] *)
Definition clearHash (parsed : URL) : URL :=
  mkURL (protocol parsed) (hostname parsed) (pathname parsed) (searchParams parsed) "".

(** The loop that deletes the tracking parameters. *)
Definition stripTracking (params : list (string * string)) : list (string * string) :=
  fold_left (fun ps param => URLSearchParams.delete param ps) trackingParams params.

(** The query parameters after the deletions and [sort()]. *)
Definition normalizedParams (parsed : URL) : list (string * string) :=
  URLSearchParams.sort (stripTracking (searchParams parsed)).

(** The host name in lower case, without a leading [www.]. *)
Definition normalizedHost (parsed : URL) : string :=
  let hostname := JS.toLowerCase (hostname parsed) in
  if JS.startsWith hostname "www." then JS.sliceFrom 4 hostname else hostname.

(** The path without one trailing slash, unless it is the slash alone. *)
Definition normalizedPath (parsed : URL) : string :=
  let pathname := pathname parsed in
  if (1 <? JS.len pathname)%nat && JS.endsWith pathname "/"
  then JS.dropLast pathname else pathname.

(** The body of the [try] block of [normalizeUrl], on the parsed URL. *)
Definition normalizeParsed (parsed : URL) : string :=
  let parsed := clearHash parsed in
  let search := URLSearchParams.toString (normalizedParams parsed) in
  protocol parsed +:+ "//" +:+ normalizedHost parsed +:+ normalizedPath parsed +:+
  (if negb (String.eqb search "") then "?" +:+ search else "").

Definition keepWordSpace (c : ascii) : ascii :=
  if JS.isWord c || JS.isSpace c then c else " "%char.

Definition nonEmpty (s : string) : bool := negb (String.eqb s "").

(** The loop over the word positions: one sorted trigram per window. *)
Fixpoint trigramsOf (words : list string) : list string :=
  match words with
  | w1 :: rest =>
      match rest with
      | w2 :: w3 :: _ =>
          (if nonEmpty w1 && nonEmpty w2 && nonEmpty w3
           then [JS.join "" (JS.sortBy JS.strAfter [w1; w2; w3])] else [])
          ++ trigramsOf rest
      | _ => []
      end
  | [] => []
  end.

Definition fingerprint (text : string) : string :=
  let cleaned :=
    JS.trim (JS.collapseSpaces (JS.mapChars keepWordSpace (JS.toLowerCase text))) in
  let words := filter (fun w => 2 < JS.len w) (JS.splitChar " " cleaned) in
  if decide (length words < 3) then cleaned
  else
    let trigrams := JS.uniq String.eqb (trigramsOf words) in
    JS.join "|" (take 10 (JS.sortBy JS.strAfter trigrams)).

(** The characters a fingerprint is made of: [a-z0-9_], the space and the
    bar between trigrams. *)
Definition isFingerprintChar (c : ascii) : bool :=
  JS.isLowerWord c || Ascii.eqb c " " || Ascii.eqb c "|".

(** The first part of a key: the URL, normalized when configured. *)
Definition urlPart (normalize : string -> string) (config : DeduplicationConfig)
    (result : SearchResult) : string :=
  if urlNormalization config then normalize (url result) else url result.

Definition ofNat (n : nat) : Q := inject_Z (Z.of_nat n).

(** [set.has(t)] on a set of strings. *)
Definition has (set : list string) (t : string) : bool := existsb (String.eqb t) set.

(** [new Set(fingerprint.split('|'))], in insertion order. *)
Definition trigramSet (text : string) : list string :=
  JS.uniq String.eqb (JS.splitChar "|" (fingerprint text)).

(** [computeSimilarity(a, b)]: the Jaccard index of the two trigram sets. *)
Definition computeSimilarity (a b : string) : Q :=
  let aTrigrams := trigramSet a in
  let bTrigrams := trigramSet b in
  if (length aTrigrams =? 0)%nat || (length bTrigrams =? 0)%nat then 0%Q
  else
    let intersection := length (List.filter (has bTrigrams) aTrigrams) in
    let union := length (JS.uniq String.eqb (aTrigrams ++ bTrigrams)) in
    if (0 <? union)%nat then (ofNat intersection / ofNat union)%Q else 0%Q.

(** [similar.get(i)!.push(j)], after [similar.set(i, [])] when [i] has no
    entry yet; the map keeps its entries in insertion order. *)
Fixpoint pushSimilar (similar : list (nat * list nat)) (i j : nat) : list (nat * list nat) :=
  match similar with
  | [] => [(i, [j])]
  | (k, js) :: rest =>
      if (k =? i)%nat then (k, js ++ [j]) :: rest
      else (k, js) :: pushSimilar rest i j
  end.

Definition textOf (result : SearchResult) : string :=
  title result +:+ " " +:+ snippet result.

(** The body of the inner loop of [findSimilar], at the indices [i] and [j]. *)
Definition similarStep (results : list SearchResult) (similarityThreshold : Q) (i : nat)
    (similar : list (nat * list nat)) (j : nat) : list (nat * list nat) :=
  match results !! i, results !! j with
  | Some resultI, Some resultJ =>
      let similarity := computeSimilarity (textOf resultI) (textOf resultJ) in
      if Qle_bool similarityThreshold similarity then pushSimilar similar i j else similar
  | _, _ => similar
  end.

(** [findSimilar(results, threshold)]: the two nested loops, [i] over the
    indices and [j] over the indices after [i]. *)
Definition findSimilar (config : DeduplicationConfig) (results : list SearchResult)
    (threshold : option Q) : list (nat * list nat) :=
  let similarityThreshold := default (similarityThreshold config) threshold in
  fold_left
    (fun similar i =>
       fold_left (similarStep results similarityThreshold i)
                 (seq (S i) (length results - S i)) similar)
    (seq 0 (length results)) [].

(** The wording of [findSimilar] as a table: whether the results at [i] and
    [j] are similar, the later indices similar to [i], and one entry per
    index that has any. *)
Definition similarAt (results : list SearchResult) (th : Q) (i j : nat) : bool :=
  match results !! i, results !! j with
  | Some resultI, Some resultJ =>
      Qle_bool th (computeSimilarity (textOf resultI) (textOf resultJ))
  | _, _ => false
  end.

Definition similarAfter (results : list SearchResult) (th : Q) (i : nat) : list nat :=
  List.filter (similarAt results th i) (seq (S i) (length results - S i)).

Definition similarTable (results : list SearchResult) (th : Q) : list (nat * list nat) :=
  omap (fun i => match similarAfter results th i with
                 | [] => None
                 | js => Some (i, js)
                 end)
       (seq 0 (length results)).

Section WithURL.
Variable parseURL : URLParser.

Definition normalizeUrl (u : string) : string :=
  match parseURL u with
  | Some parsed => normalizeParsed parsed
  | None => JS.toLowerCase u
  end.

(** The parser reads the normal form of [parsed] back into the components
    it was built from. *)
Definition readsBack (parsed : URL) : Prop :=
  exists parsed',
    parseURL (normalizeParsed parsed) = Some parsed' /\
    protocol parsed' = protocol parsed /\
    hostname parsed' = normalizedHost parsed /\
    pathname parsed' = normalizedPath parsed /\
    searchParams parsed' = normalizedParams parsed.

(** The inputs on which a second normalization has nothing left to do: an
    unparseable string that stays unparseable in lower case, or a URL whose
    normal form is read back, has no second [www.] in front of its host
    and no second slash at the end of its path. *)
Definition normalFormStable (u : string) : Prop :=
  match parseURL u with
  | None => parseURL (JS.toLowerCase u) = None
  | Some parsed =>
      readsBack parsed /\
      JS.startsWith (normalizedHost parsed) "www." = false /\
      (JS.endsWith (normalizedPath parsed) "/" = true -> JS.len (normalizedPath parsed) <= 1)
  end.

Definition generateKey (config : DeduplicationConfig) (result : SearchResult) : string :=
  JS.join ":"
    ([if urlNormalization config then normalizeUrl (url result) else url result] ++
     (if contentFingerprint config
      then [fingerprint (title result +:+ " " +:+ snippet result)] else [])).

(** The key of the result at [r] in the store [st]. *)
Definition keyIn (config : DeduplicationConfig) (st : Store) (r : loc) : string :=
  generateKey config (objects st r).

(** The state of the loop of [deduplicate]. *)
Record LoopState := mkLoop {
  store : Store;
  seen : gmap string loc;
  unique : list loc;
  duplicates : nat
}.

(** [{ ...m }] for an optional object. *)
Definition spread (m : option (gmap string value)) : gmap string value :=
  default ∅ m.

Definition withMetadata (r : SearchResult) (m : gmap string value) : SearchResult :=
  mkSearchResult (url r) (title r) (snippet r) (source r) (timestamp r) (Some m).

(** The provider tag as it is stored in [sources]. *)
Definition sourceTag (r : SearchResult) : value := VStr (providerTag (source r)).

(** The duplicate branch: merge the metadata of [result] into [existing],
    the object at [e], and note the provider in [sources]. *)
Definition mergeDuplicate (st : Store) (e : loc) (result : SearchResult) : Store :=
  let existing := objects st e in
  (* existing.metadata = { ...existing.metadata, ...result.metadata } *)
  let merged := spread (metadata result) ∪ spread (metadata existing) in
  (* if (!existing.metadata?.['sources']) ... = [existing.source] *)
  let '(merged, arrs) :=
    if negb (truthy (default VUndefined (merged !! "sources")))
    then
      let a := fresh (dom (arrays st)) in
      (<["sources" := VArray a]> merged,
       <[a := [sourceTag existing]]> (arrays st))
    else (merged, arrays st) in
  (* if (Array.isArray(...)) ....push(result.source) *)
  let arrs :=
    match merged !! "sources" with
    | Some (VArray a) => alter (fun xs => xs ++ [sourceTag result]) a arrs
    | _ => arrs
    end in
  mkStore (<[e := withMetadata existing merged]> (objects st)) arrs.

(** The body of the loop, for the reference [r]. *)
Definition step (config : DeduplicationConfig) (st : LoopState) (r : loc) : LoopState :=
  let result := objects (store st) r in
  let key := generateKey config result in
  match seen st !! key with
  | None => mkLoop (store st) (<[key := r]> (seen st)) (unique st ++ [r]) (duplicates st)
  | Some e => mkLoop (mergeDuplicate (store st) e result) (seen st) (unique st) (S (duplicates st))
  end.

Definition run (config : DeduplicationConfig) (st : Store) (results : list loc) : LoopState :=
  fold_left (step config) results (mkLoop st ∅ [] 0).

(** [deduplicate(results)]: the store it leaves and the array it returns. *)
Definition deduplicate (config : DeduplicationConfig) (st : Store) (results : list loc)
    : Store * list loc :=
  let final := run config st results in
  (store final, unique final).

(** What [deduplicate] never writes: everything but the metadata. *)
Definition sameIdentity (o o' : SearchResult) : Prop :=
  url o = url o' /\ title o = title o' /\ snippet o = snippet o' /\
  source o = source o' /\ timestamp o = timestamp o'.

(** The first of [results] whose key is [k]. *)
Definition firstWithKey (key : loc -> string) (k : string) (results : list loc) : option loc :=
  head (filter (fun x => key x = k) results).

(** The array under [sources], when there is one. *)
Definition sourcesArray (o : SearchResult) : option loc :=
  match spread (metadata o) !! "sources" with
  | Some (VArray a) => Some a
  | _ => None
  end.

(** The results of [results] that share the key of [x], in order. *)
Definition groupOf (key : loc -> string) (x : loc) (results : list loc) : list loc :=
  filter (fun y => key y = key x) results.

(** The metadata of a group merged in order: a later member overrides. *)
Definition mergedMetadata (st : Store) (group : list loc) : gmap string value :=
  fold_left (fun m y => spread (metadata (objects st y)) ∪ m) group ∅.


(** The wording of the specification: the first occurrence of each key. *)
Fixpoint firstOccurrences (key : loc -> string) (seenKeys : list string) (results : list loc)
    : list loc :=
  match results with
  | [] => []
  | r :: rest =>
      if decide (key r ∈ seenKeys) then firstOccurrences key seenKeys rest
      else r :: firstOccurrences key (key r :: seenKeys) rest
  end.

End WithURL.

End Deduplicator.

(** ** Scorer ([Scorer], scorer.ts) *)

Module Scorer.

Record Weights := {
  recency : Q;
  domainAuthority : Q;
  keywordRelevance : Q
}.

Record ScoringConfig := {
  weights : Weights;
  trustedDomains : list string
}.

(** Weights that are non-negative and sum to at most 1 (the defaults of the
    configuration schema, 0.3, 0.2 and 0.5, do). *)
Definition weightsWithinUnit (w : Weights) : Prop :=
  (0 <= recency w /\ 0 <= domainAuthority w /\ 0 <= keywordRelevance w /\
   recency w + domainAuthority w + keywordRelevance w <= 1)%Q.

Definition defaultWeights : Weights :=
  {| recency := 0.3; domainAuthority := 0.2; keywordRelevance := 0.5 |}.

Definition qualityDomains : list string :=
  [ "nature.com"; "science.org"; "arxiv.org"; "medium.com"; "dev.to";
    "hackernews.com"; "techcrunch.com"; "wired.com"; "arstechnica.com" ].

Definition msPerDay : Q := inject_Z (1000 * 60 * 60 * 24).

(** [recencyScore]; [now] is the reading of [Date.now()]. *)
Definition recencyScore (now : Z) (ts : Z) : Q :=
  let age := inject_Z (now - ts) in
  let daysSince := (age / msPerDay)%Q in
  Qmax 0.1 (1 - daysSince / 365)%Q.

Definition keepWordSpace (c : ascii) : ascii :=
  if JS.isWord c || JS.isSpace c then c else " "%char.

Definition tokenize (text : string) : list string :=
  filter (fun word => 2 < JS.len word)
    (JS.splitSpaces (JS.mapChars keepWordSpace (JS.toLowerCase text))).

(** [terms.includes(term)] *)
Definition arrayIncludes (terms : list string) (term : string) : bool :=
  existsb (String.eqb term) terms.

(** The loop that counts the query terms found in the title and the snippet. *)
Fixpoint countMatches (queryTerms titleTerms snippetTerms : list string)
    (titleMatches snippetMatches : nat) : nat * nat :=
  match queryTerms with
  | [] => (titleMatches, snippetMatches)
  | term :: rest =>
      countMatches rest titleTerms snippetTerms
        (if arrayIncludes titleTerms term then S titleMatches else titleMatches)
        (if arrayIncludes snippetTerms term then S snippetMatches else snippetMatches)
  end.

Definition ofNat (n : nat) : Q := inject_Z (Z.of_nat n).

Definition relevanceScore (result : SearchResult) (query : string) : Q :=
  let queryTerms := tokenize query in
  let titleTerms := tokenize (title result) in
  let snippetTerms := tokenize (snippet result) in
  if (length queryTerms =? 0)%nat then 0.5%Q
  else
    let '(titleMatches, snippetMatches) :=
      countMatches queryTerms titleTerms snippetTerms 0 0 in
    let titleScore := (ofNat titleMatches / ofNat (length queryTerms))%Q in
    let snippetScore := (ofNat snippetMatches / ofNat (length queryTerms))%Q in
    let combinedScore := (titleScore * 0.6 + snippetScore * 0.4)%Q in
    if JS.includes (JS.toLowerCase (title result)) (JS.toLowerCase query)
    then Qmin 1 (combinedScore + 0.2)%Q
    else combinedScore.

Section WithURL.
Variable parseURL : URLParser.
Variable config : ScoringConfig.

Definition matchesDomain (hostname d : string) : bool :=
  String.eqb hostname d || JS.endsWith hostname ("." +:+ d).

Definition domainScore (u : string) : Q :=
  match parseURL u with
  | Some parsed =>
      let hostname := JS.removeFirst (hostname parsed) "www." in
      if existsb (matchesDomain hostname) (trustedDomains config) then 1.0%Q
      else if JS.endsWith hostname ".gov" || JS.endsWith hostname ".edu" then 0.9%Q
      else if existsb (matchesDomain hostname) qualityDomains then 0.8%Q
      else 0.5%Q
  | None => 0.3%Q
  end.

(** [score(result, query)] when [Date.now()] reads [now]. *)
Definition score (now : Z) (result : SearchResult) (query : string) : ScoredResult :=
  let recency := recencyScore now (timestamp result) in
  let domain := domainScore (url result) in
  let relevance := relevanceScore result query in
  let totalScore :=
    (recency * Scorer.recency (weights config) +
     domain * domainAuthority (weights config) +
     relevance * keywordRelevance (weights config))%Q in
  mkScoredResult (url result) (title result) (snippet result) (source result)
    (timestamp result) (metadata result) totalScore.

(** [(a, b) => b.score - a.score] puts [a] after [b] when it is positive. *)
Definition byScoreDesc (a b : ScoredResult) : bool :=
  JS.positive (s_score b - s_score a).

(** [scoreAll(results, query)]; [clock i] is the reading of [Date.now()]
    while the result at index [i] is scored. *)
Definition scoreAll (clock : nat -> Z) (results : list SearchResult) (query : string)
    : list ScoredResult :=
  let scored := imap (fun i r => score (clock i) r query) results in
  JS.sortBy byScoreDesc scored.

End WithURL.

End Scorer.

(** ** BM25 ranker and hybrid scorer ([BM25Ranker], [HybridBM25Scorer], bm25.ts) *)

Module BM25.

Record BM25ScoredResult := mkBM25 {
  b_url : string;
  b_title : string;
  b_snippet : string;
  b_source : ProviderName;
  b_timestamp : Z;
  b_metadata : option (gmap string value);
  bm25Score : Q
}.

(** The fields of a [BM25Ranker]: its parameters and the index it keeps
    between calls. *)
Record BM25Ranker := mkRanker {
  k1 : Q;
  b : Q;
  delta : Q;
  idfCache : gmap string Q;
  avgDocLength : Q;
  totalDocs : nat;
  docFrequency : gmap string nat
}.

Record BM25Options := {
  opt_k1 : option Q;
  opt_b : option Q;
  opt_delta : option Q
}.

Definition noOptions : BM25Options :=
  {| opt_k1 := None; opt_b := None; opt_delta := None |}.

(** The constructor. *)
Definition newRanker (options : BM25Options) : BM25Ranker :=
  mkRanker (default 1.5%Q (opt_k1 options)) (default 0.75%Q (opt_b options))
           (default 0%Q (opt_delta options)) ∅ 0%Q 0 ∅.

Definition ofNat (n : nat) : Q := inject_Z (Z.of_nat n).

Definition keepWordSpace (c : ascii) : ascii :=
  if JS.isWord c || JS.isSpace c then c else " "%char.

Definition tokenize (text : string) : list string :=
  filter (fun t => 1 < JS.len t)
    (JS.splitSpaces (JS.mapChars keepWordSpace (JS.toLowerCase text))).

Definition getDocumentText (result : SearchResult) : string :=
  JS.toLowerCase (title result +:+ " " +:+ title result +:+ " " +:+ snippet result).

(** The number of documents of a batch in which the token occurs. *)
Definition docsContaining (token : string) (results : list SearchResult) : nat :=
  length (filter (fun result => token ∈ tokenize (getDocumentText result)) results).

(** The number of tokens of a batch. *)
Definition totalTokens (results : list SearchResult) : nat :=
  sum_list ((fun result => length (tokenize (getDocumentText result))) <$> results).

(** [getStats()] *)
Record Stats := {
  st_totalDocs : nat;
  st_avgDocLength : Q;
  st_uniqueTerms : nat
}.

Definition getStats (self : BM25Ranker) : Stats :=
  {| st_totalDocs := totalDocs self;
     st_avgDocLength := avgDocLength self;
     st_uniqueTerms := size (docFrequency self) |}.

Section WithLog.
(** [Math.log] *)
Variable Math_log : Q -> Q.

Definition computeIDF (n : nat) (docFreq : nat) : Q :=
  Math_log (1 + (ofNat n - ofNat docFreq + 0.5) / (ofNat docFreq + 0.5))%Q.

(** One more document for each unique token. *)
Definition countTokens (uniqueTokens : list string) (df : gmap string nat) : gmap string nat :=
  fold_left (fun df token => <[token := default 0 (df !! token) + 1]> df) uniqueTokens df.

(** The loop of [buildIndex] over the results: the total length and the
    document frequencies. *)
Fixpoint indexLoop (results : list SearchResult) (totalLength : nat)
    (df : gmap string nat) : nat * gmap string nat :=
  match results with
  | [] => (totalLength, df)
  | result :: rest =>
      let tokens := tokenize (getDocumentText result) in
      let uniqueTokens := JS.uniq String.eqb tokens in
      indexLoop rest (totalLength + length tokens) (countTokens uniqueTokens df)
  end.

Definition buildIndex (self : BM25Ranker) (results : list SearchResult) : BM25Ranker :=
  let n := length results in
  let '(totalLength, df) := indexLoop results 0 ∅ in
  let avg := (ofNat totalLength / ofNat (Nat.max n 1))%Q in
  mkRanker (k1 self) (b self) (delta self) (computeIDF n <$> df) avg n df.

(** Term frequencies of a document. *)
Definition termFrequencies (docTokens : list string) : gmap string nat :=
  fold_left (fun tf token => <[token := default 0 (tf !! token) + 1]> tf) docTokens ∅.

(** The loop of [scoreDocument] over the query tokens.  The two quotients
    are those of [Q]: they are the code's wherever no divisor is 0
    ([divisorsNonzero] below).  An index built from the batch guarantees
    that of the average for a document that has a token, and parameters in
    their ranges that of the formula; an index kept from an earlier batch of
    the same size can have average 0, and JavaScript's [Infinity] and [NaN]
    are then outside this embedding. *)
Fixpoint scoreLoop (self : BM25Ranker) (termFrequency : gmap string nat) (docLength : nat)
    (queryTokens : list string) (score : Q) : Q :=
  match queryTokens with
  | [] => score
  | queryTerm :: rest =>
      let tf := default 0 (termFrequency !! queryTerm) in
      if (tf =? 0)%nat then scoreLoop self termFrequency docLength rest score
      else
        let idf := default (computeIDF (totalDocs self) 0) (idfCache self !! queryTerm) in
        let numerator := (ofNat tf * (k1 self + 1))%Q in
        let denominator :=
          (ofNat tf + k1 self * (1 - b self + b self * (ofNat docLength / avgDocLength self)))%Q in
        scoreLoop self termFrequency docLength rest
          (score + (idf * (numerator / denominator) + delta self))%Q
  end.

Definition scoreDocument (self : BM25Ranker) (result : SearchResult)
    (queryTokens : list string) : Q :=
  let docTokens := tokenize (getDocumentText result) in
  scoreLoop self (termFrequencies docTokens) (length docTokens) queryTokens 0%Q.

Definition withBM25 (result : SearchResult) (s : Q) : BM25ScoredResult :=
  mkBM25 (url result) (title result) (snippet result) (source result)
         (timestamp result) (metadata result) s.

Definition byBM25Desc (x y : BM25ScoredResult) : bool :=
  JS.positive (bm25Score y - bm25Score x).

(** [scoreAll(results, query)]: the ranker after the call (the index is
    rebuilt only when the number of results differs from the indexed one)
    and the ranked results. *)
Definition scoreAll (self : BM25Ranker) (results : list SearchResult) (query : string)
    : BM25Ranker * list BM25ScoredResult :=
  let self :=
    if (totalDocs self =? 0)%nat || negb (totalDocs self =? length results)%nat
    then buildIndex self results else self in
  let queryTokens := tokenize (JS.toLowerCase query) in
  (self,
   JS.sortBy byBM25Desc
     (map (fun result => withBM25 result (scoreDocument self result queryTokens)) results)).

(** What makes every summand of a score non-negative: the parameters in
    their ranges and no negative IDF. *)
Definition nonnegIndex (self : BM25Ranker) : Prop :=
  (0 <= k1 self /\ 0 <= b self <= 1 /\ 0 <= delta self /\ 0 <= avgDocLength self /\
   (forall t v, idfCache self !! t = Some v -> 0 <= v) /\
   0 <= computeIDF (totalDocs self) 0)%Q.

(** The divisor of the BM25 formula for a token that the document, of
    [docLength] tokens, has [tf] times. *)
Definition denominatorOf (self : BM25Ranker) (tf docLength : nat) : Q :=
  (ofNat tf + k1 self * (1 - b self + b self * (ofNat docLength / avgDocLength self)))%Q.

(** No quotient that [scoreDocument] takes on these documents has the
    divisor 0: for every token a document has, neither the average length
    nor the divisor of the formula is 0.  The quotients of [Q] in
    [scoreLoop] are then the code's; elsewhere the code computes with
    [Infinity] and [NaN]. *)
Definition divisorsNonzero (self : BM25Ranker) (results : list SearchResult) : Prop :=
  forall result t,
    result ∈ results ->
    t ∈ tokenize (getDocumentText result) ->
    let docTokens := tokenize (getDocumentText result) in
    ~ (avgDocLength self == 0)%Q /\
    ~ (denominatorOf self (default 0%nat (termFrequencies docTokens !! t))
                     (length docTokens) == 0)%Q.

End WithLog.

End BM25.

Module HybridBM25Scorer.

Record HybridWeights := {
  bm25 : Q;
  recency : Q;
  domainAuthority : Q
}.

Definition defaultWeights : HybridWeights :=
  {| bm25 := 0.6; recency := 0.2; domainAuthority := 0.2 |}.

Record HybridResult := mkHybrid {
  h_url : string;
  h_title : string;
  h_snippet : string;
  h_source : ProviderName;
  h_timestamp : Z;
  h_metadata : option (gmap string value);
  h_score : Q;
  h_bm25Score : Q
}.

Record Scorer := mkScorer {
  ranker : BM25.BM25Ranker;
  weights : HybridWeights;
  trustedDomains : list string
}.

(** The constructor, with its default arguments. *)
Definition newScorer (w : option HybridWeights) (trusted : option (list string)) : Scorer :=
  mkScorer (BM25.newRanker BM25.noOptions) (default defaultWeights w) (default [] trusted).

Definition recencyScore (now : Z) (ts : Z) : Q :=
  let daysSince := (inject_Z (now - ts) / inject_Z (1000 * 60 * 60 * 24))%Q in
  Qmax 0.1 (1 - daysSince / 365)%Q.

(** [Math.max(...xs, 1)] *)
Definition maxWithOne (xs : list Q) : Q := fold_right Qmax 1%Q xs.

Section WithPlatform.
Variable Math_log : Q -> Q.
Variable parseURL : URLParser.

Definition domainScore (self : Scorer) (u : string) : Q :=
  match parseURL u with
  | Some parsed =>
      let hostname := JS.removeFirst (hostname parsed) "www." in
      if existsb (fun d => JS.includes hostname d) (trustedDomains self) then 1.0%Q
      else if JS.endsWith hostname ".gov" || JS.endsWith hostname ".edu" then 0.9%Q
      else 0.5%Q
  | None => 0.3%Q
  end.

(** The blend of one ranked result; [now] is the reading of [Date.now()]. *)
Definition blend (self : Scorer) (maxBm25 : Q) (now : Z) (result : BM25.BM25ScoredResult)
    : HybridResult :=
  let normalizedBm25 := (BM25.bm25Score result / maxBm25)%Q in
  let recency := recencyScore now (BM25.b_timestamp result) in
  let domain := domainScore self (BM25.b_url result) in
  let finalScore :=
    (normalizedBm25 * bm25 (weights self) +
     recency * HybridBM25Scorer.recency (weights self) +
     domain * domainAuthority (weights self))%Q in
  mkHybrid (BM25.b_url result) (BM25.b_title result) (BM25.b_snippet result)
           (BM25.b_source result) (BM25.b_timestamp result) (BM25.b_metadata result)
           (Qmin 1 finalScore) (BM25.bm25Score result).

Definition byScoreDesc (x y : HybridResult) : bool :=
  JS.positive (h_score y - h_score x).

(** [scoreAll(results, query)]: the scorer after the call (its ranker keeps
    the index) and the ranked results; [clock i] is the reading of
    [Date.now()] while the result at index [i] of the BM25 ranking is
    blended. *)
Definition scoreAll (self : Scorer) (clock : nat -> Z) (results : list SearchResult)
    (query : string) : Scorer * list HybridResult :=
  let '(ranker', bm25Results) := BM25.scoreAll Math_log (ranker self) results query in
  let maxBm25 := maxWithOne (map BM25.bm25Score bm25Results) in
  (mkScorer ranker' (weights self) (trustedDomains self),
   JS.sortBy byScoreDesc
     (imap (fun i result => blend self maxBm25 (clock i) result) bm25Results)).

(** The wording of the specification: the BM25 scores divided by the
    maximum of the batch (of a non-empty batch), then blended. *)
Definition batchMax (xs : list Q) : Q :=
  match xs with
  | [] => 0%Q
  | x :: rest => fold_right Qmax x rest
  end.

Definition blendedByBatchMax_spec (self : Scorer) (clock : nat -> Z)
    (results : list SearchResult) (query : string) : list HybridResult :=
  let bm25Results := snd (BM25.scoreAll Math_log (ranker self) results query) in
  imap (fun i result =>
          blend self (batchMax (map BM25.bm25Score bm25Results)) (clock i) result)
       bm25Results.

End WithPlatform.

End HybridBM25Scorer.

(** ** Fetcher ([Fetcher], scorer.ts)

    [fetchAll] starts one task per provider, at most [concurrency] of them
    at a time and in list order ([p-limit]); a task awaits the cache, then
    the attempts of [p-retry], then the cache write.  The tasks run on one
    thread: what happens between two awaits is one step, and the steps of
    different tasks interleave in any order.  The cache is best-effort
    ([FileCache] swallows its errors): a read may miss whatever was stored
    (expiry, read error) and a write may be lost. *)

Module Fetcher.

(** What an attempt threw: the message ([error.message] or [String(error)]),
    the status code when it is a [ProviderError], and whether [p-retry]
    retries after it (it gives up at once on an abort). *)
Record Thrown := {
  message : string;
  statusCode : option Z;
  retryable : bool
}.

Inductive Attempt :=
  | Returns (results : list SearchResult)
  | Throws (e : Thrown).

(** A provider, for the query and options of one fetch: [search n] is the
    outcome of its [n]-th call. *)
Record Provider := {
  name : ProviderName;
  search : nat -> Attempt
}.

Record ProviderError := {
  provider : ProviderName;
  e_message : string;
  e_statusCode : option Z
}.

Record Fetcher := {
  concurrency : nat;
  retries : nat;
  cacheInUse : bool            (* [this.cache && this.cacheEnabled] *)
}.

(** The constructor. *)
Definition newFetcher (concurrency retries : option nat) (cache : bool)
    (cacheEnabled : option bool) : Fetcher :=
  {| concurrency := default 3 concurrency;
     retries := default 2 retries;
     cacheInUse := cache && default true cacheEnabled |}.

(** [getCacheKey]; [optionsKey] is the [JSON.stringify] of the options. *)
Definition getCacheKey (provider : ProviderName) (query optionsKey : string) : string :=
  providerTag provider +:+ ":" +:+ query +:+ ":" +:+ optionsKey.

(** Where a task stands. *)
Inductive Phase :=
  | Queued
  | AwaitCacheGet
  | AwaitSearch (attempt : nat)
  | AwaitCacheSet (results : list SearchResult)
  | Settled.

Definition running (ph : Phase) : bool :=
  match ph with
  | Queued | Settled => false
  | _ => true
  end.

Definition settled (ph : Phase) : bool :=
  match ph with
  | Settled => true
  | _ => false
  end.

Record State := mkState {
  cache : gmap string (list SearchResult);
  phases : list Phase;
  results : list SearchResult;
  errors : list ProviderError;
  successfulProviders : list ProviderName
}.

Definition setPhase (s : State) (i : nat) (ph : Phase) : State :=
  mkState (cache s) (<[i := ph]> (phases s)) (results s) (errors s) (successfulProviders s).

(** The [try] branch after the fetch: the results and the name are pushed. *)
Definition succeed (s : State) (i : nat) (p : Provider) (rs : list SearchResult) : State :=
  mkState (cache s) (<[i := Settled]> (phases s)) (results s ++ rs) (errors s)
          (successfulProviders s ++ [name p]).

(** The [catch] branch: the error record is pushed. *)
Definition fail (s : State) (i : nat) (p : Provider) (e : Thrown) : State :=
  mkState (cache s) (<[i := Settled]> (phases s)) (results s)
          (errors s ++ [{| provider := name p; e_message := message e;
                           e_statusCode := statusCode e |}])
          (successfulProviders s).

Definition writeCache (s : State) (key : string) (rs : list SearchResult) : State :=
  mkState (<[key := rs]> (cache s)) (phases s) (results s) (errors s) (successfulProviders s).

Section FetchAll.
Variable self : Fetcher.
Variable providers : list Provider.
Variable query optionsKey : string.

Definition keyOfProvider (p : Provider) : string := getCacheKey (name p) query optionsKey.

(** One step of one task. *)
Inductive step : State -> State -> Prop :=
  | step_start s i :
      phases s !! i = Some Queued ->
      (forall j, j < i -> phases s !! j <> Some Queued) ->
      length (filter (fun ph => running ph = true) (phases s)) < concurrency self ->
      step s (setPhase s i (if cacheInUse self then AwaitCacheGet else AwaitSearch 1))
  | step_cache_hit s i p cached :
      phases s !! i = Some AwaitCacheGet ->
      providers !! i = Some p ->
      cache s !! keyOfProvider p = Some cached ->
      step s (succeed s i p cached)
  | step_cache_miss s i :
      phases s !! i = Some AwaitCacheGet ->
      step s (setPhase s i (AwaitSearch 1))
  | step_search_returns s i p n rs :
      phases s !! i = Some (AwaitSearch n) ->
      providers !! i = Some p ->
      search p n = Returns rs ->
      step s (if cacheInUse self && (0 <? length rs)
              then setPhase s i (AwaitCacheSet rs)
              else succeed s i p rs)
  | step_search_retry s i p n e :
      phases s !! i = Some (AwaitSearch n) ->
      providers !! i = Some p ->
      search p n = Throws e ->
      retryable e = true ->
      n <= retries self ->
      step s (setPhase s i (AwaitSearch (S n)))
  | step_search_gives_up s i p n e :
      phases s !! i = Some (AwaitSearch n) ->
      providers !! i = Some p ->
      search p n = Throws e ->
      retryable e = false \/ retries self < n ->
      step s (fail s i p e)
  | step_cache_written s i p rs :
      phases s !! i = Some (AwaitCacheSet rs) ->
      providers !! i = Some p ->
      step s (succeed (writeCache s (keyOfProvider p) rs) i p rs)
  | step_cache_write_lost s i p rs :
      phases s !! i = Some (AwaitCacheSet rs) ->
      providers !! i = Some p ->
      step s (succeed s i p rs).

(** The state in which [fetchAll] has queued its tasks. *)
Definition initial (cache0 : gmap string (list SearchResult)) : State :=
  mkState cache0 (replicate (length providers) Queued) [] [] [].

(** Every task has settled: [Promise.all] resolves and [fetchAll] returns
    [{ results, errors, providers: successfulProviders }]. *)
Definition final (s : State) : Prop :=
  Forall (fun ph => ph = Settled) (phases s).

(** What is left to do: a bound on the steps a state can still take. *)
Definition phaseWeight (ph : Phase) : nat :=
  match ph with
  | Queued => retries self + 4
  | AwaitCacheGet => retries self + 3
  | AwaitSearch n => 2 + (retries self + 1 - n)
  | AwaitCacheSet _ => 1
  | Settled => 0
  end.

Definition weight (s : State) : nat := sum_list (phaseWeight <$> phases s).

End FetchAll.

Definition queued (ph : Phase) : bool :=
  match ph with
  | Queued => true
  | _ => false
  end.

(** The task has not reached its [cache.set] yet. *)
Definition notWritten (ph : Phase) : bool :=
  match ph with
  | AwaitCacheSet _ | Settled => false
  | _ => true
  end.

(** What holds all along a fetch from a provider [bad] whose search always
    throws and a provider [good] whose first call returns [rs], when the
    tasks are in the phases [phb] and [phg] and the cache keys are [kb] and
    [kg]: the cache never holds an entry for [bad], holds none for [good]
    before its write, and the three arrays hold what the settled tasks
    have pushed. *)
Definition isolationInvariant (self : Fetcher) (kb kg : string) (bad good : Provider)
    (rs : list SearchResult) (phb phg : Phase) (s : State) : Prop :=
  (phb = AwaitCacheGet \/ phg = AwaitCacheGet -> cacheInUse self = true) /\
  (cacheInUse self = true -> cache s !! kb = None) /\
  (cacheInUse self = true -> notWritten phg = true -> cache s !! kg = None) /\
  (forall r, phb <> AwaitCacheSet r) /\
  (forall n, phg = AwaitSearch n -> n = 1) /\
  (forall r, phg = AwaitCacheSet r -> r = rs) /\
  results s = (if settled phg then rs else []) /\
  successfulProviders s = (if settled phg then [name good] else []) /\
  (if settled phb then exists err, errors s = [err] /\ provider err = name bad
   else errors s = []).

(** The same, for the tasks at the indices [ib] and [ig] of a two-provider
    fetch. *)
Definition isolated (self : Fetcher) (query optionsKey : string) (bad good : Provider)
    (rs : list SearchResult) (ib ig : nat) (s : State) : Prop :=
  exists phb phg,
    phases s !! ib = Some phb /\ phases s !! ig = Some phg /\
    length (phases s) = 2 /\
    isolationInvariant self (keyOfProvider query optionsKey bad)
                       (keyOfProvider query optionsKey good) bad good rs phb phg s.

(** The names of the providers whose task has settled, in list order. *)
Definition settledNames (providers : list Provider) (phases : list Phase)
    : list ProviderName :=
  (fun pp => name (fst pp)) <$> filter (fun pp => settled (snd pp) = true) (zip providers phases).

(** Where a result can come from: a call of one of the providers, or an
    entry the cache held before the fetch. *)
Definition returnedBy (providers : list Provider)
    (cache0 : gmap string (list SearchResult)) (r : SearchResult) : Prop :=
  (exists p n rs, p ∈ providers /\ search p n = Returns rs /\ r ∈ rs) \/
  (exists key cached, cache0 !! key = Some cached /\ r ∈ cached).

(** Where an error record can come from: what a call of one of the
    providers threw. *)
Definition thrownBy (providers : list Provider) (err : ProviderError) : Prop :=
  exists p n e,
    p ∈ providers /\ search p n = Throws e /\
    err = {| provider := name p; e_message := message e; e_statusCode := statusCode e |}.

(** Nothing in the state is made up. *)
Definition provenance (providers : list Provider)
    (cache0 : gmap string (list SearchResult)) (s : State) : Prop :=
  Forall (returnedBy providers cache0) (results s) /\
  Forall (thrownBy providers) (errors s) /\
  (forall key cached, cache s !! key = Some cached ->
     Forall (returnedBy providers cache0) cached) /\
  (forall i rs, phases s !! i = Some (AwaitCacheSet rs) ->
     Forall (returnedBy providers cache0) rs).

(** The two output arrays hold, between them, the names of the providers
    whose task has settled. *)
Definition accounted (providers : list Provider) (s : State) : Prop :=
  successfulProviders s ++ (provider <$> errors s) ≡ₚ settledNames providers (phases s).

(** What [fetchAll] returns from a state in which every task has settled. *)
Record FetchResult := {
  fr_results : list SearchResult;
  fr_errors : list ProviderError;
  fr_providers : list ProviderName
}.

Definition fetchResult (s : State) : FetchResult :=
  {| fr_results := results s; fr_errors := errors s; fr_providers := successfulProviders s |}.

End Fetcher.

(** ** The interactive session ([InteractiveSearch])

    The parts of the session that compute: the terms a selection stands
    for, the strategy a reply stands for, and the final results. *)

Module Session.

(** [xs[i]] for a number [i]: [None] is [undefined]. *)
Definition index {A} (xs : list A) (i : Z) : option A :=
  if (i <? 0)%Z then None else xs !! Z.to_nat i.

(** The number selection of [handleCommand]:
    [selected.map(i => suggestions[i - 1]?.term).filter(t => !!t)]. *)
Definition selectedTerms (trimmed : string) (suggestions : list Refiner.RefinementSuggestion)
    : list string :=
  let selected :=
    InteractiveSearch.parseSelection trimmed (Z.of_nat (length suggestions)) in
  omap (fun i =>
          match Refiner.term <$> index suggestions (i - 1) with
          | Some t => if String.eqb t "" then None else Some t
          | None => None
          end)
       selected.

(** The strategy prompt of [handleCommand]. *)
Definition strategyOf (strategy : string) : Refiner.Strategy :=
  if JS.startsWith (JS.toLowerCase strategy) "n" then Refiner.Narrow
  else if JS.startsWith (JS.toLowerCase strategy) "p" then Refiner.Pivot
  else Refiner.Expand.

Record AggregatedResults := {
  a_query : string;
  a_timestamp : Z;
  a_providers : list ProviderName;
  a_totalResults : nat;
  a_results : list CategorizedResult;
  a_errors : list Fetcher.ProviderError
}.

Definition providerEqb (a b : ProviderName) : bool := bool_decide (a = b).

(** [buildFinalResults()]: [clock] gives the readings of [Date.now()] while
    the results are scored and [now] the one of the time stamp. *)
Definition buildFinalResults (parseURL : URLParser) (config : Scorer.ScoringConfig)
    (categoryList : list Categorizer.Category) (clock : nat -> Z) (now : Z)
    (allResults : list SearchResult) (initialQuery : string) : AggregatedResults :=
  let scored := Scorer.scoreAll parseURL config clock allResults initialQuery in
  let categorized := Categorizer.categorize parseURL categoryList scored in
  let providers := JS.uniq providerEqb (map source allResults) in
  {| a_query := initialQuery;
     a_timestamp := now;
     a_providers := providers;
     a_totalResults := length categorized;
     a_results := categorized;
     a_errors := [] |}.

End Session.

(** ** Rate limiter ([RateLimiter], utils/rate-limiter.ts)

    A token bucket, refilled by the time elapsed between two readings of the
    clock.  The providers acquire a token before every call. *)

Module RateLimiter.

Record RateLimiter := mkLimiter {
  tokens : Q;
  lastRefill : Z;                      (* milliseconds since the epoch *)
  maxTokens : Q;
  refillRate : Q                       (* tokens per second *)
}.

(** The constructor, when [Date.now()] reads [now]. *)
Definition newLimiter (requestsPerSecond : Q) (now : Z) : RateLimiter :=
  mkLimiter (Qmax 1 requestsPerSecond) now (Qmax 1 requestsPerSecond) requestsPerSecond.

(** [refill()], when [Date.now()] reads [now].  The sum and the product are
    those of [Q]; the code rounds them to doubles.  What is stated of the
    bucket below is stated relative to the refilled bucket and in
    comparisons that a monotone rounding keeps. *)
Definition refill (now : Z) (self : RateLimiter) : RateLimiter :=
  let elapsed := (inject_Z (now - lastRefill self) / 1000)%Q in
  let tokensToAdd := (elapsed * refillRate self)%Q in
  mkLimiter (Qmin (maxTokens self) (tokens self + tokensToAdd)) now
            (maxTokens self) (refillRate self).

(** [this.tokens -= 1] *)
Definition takeToken (self : RateLimiter) : RateLimiter :=
  mkLimiter (tokens self - 1) (lastRefill self) (maxTokens self) (refillRate self).

(** [tryAcquire()]: the answer and the limiter after the call. *)
Definition tryAcquire (now : Z) (self : RateLimiter) : bool * RateLimiter :=
  let self := refill now self in
  if Qle_bool 1 (tokens self) then (true, takeToken self) else (false, self).

(** [getAvailableTokens()] *)
Definition getAvailableTokens (now : Z) (self : RateLimiter) : Q * RateLimiter :=
  let self := refill now self in
  (tokens self, self).

(** The time [acquire] sleeps, in milliseconds, on a refilled limiter
    without a whole token. *)
Definition waitTime (self : RateLimiter) : Q :=
  ((1 - tokens self) / refillRate self * 1000)%Q.

(** [acquire()] for a caller that no other caller interleaves with: [now] is
    the reading of the clock on entry and [wake] the reading after the
    sleep, when there is one. *)
Definition acquire (now wake : Z) (self : RateLimiter) : RateLimiter :=
  let self := refill now self in
  if Qle_bool 1 (tokens self) then takeToken self
  else takeToken (refill wake self).

(** A bucket within its bounds. *)
Definition withinBounds (self : RateLimiter) : Prop :=
  (0 <= tokens self /\ tokens self <= maxTokens self /\
   1 <= maxTokens self /\ 0 <= refillRate self)%Q.

End RateLimiter.

(** ** Sample inputs

    The concrete inputs at which the properties below are evaluated. *)

Module Samples.

Definition freshResult : SearchResult :=
  mkSearchResult "https://github.com/microsoft/typescript" "TypeScript"
                 "TypeScript is a language" brave 1700000000000 None.

Definition unitWeights : Scorer.ScoringConfig :=
  {| Scorer.weights :=
       {| Scorer.recency := 1; Scorer.domainAuthority := 1; Scorer.keywordRelevance := 1 |};
     Scorer.trustedDomains := ["github.com"] |}.

Definition defaultConfig : Scorer.ScoringConfig :=
  {| Scorer.weights := Scorer.defaultWeights;
     Scorer.trustedDomains :=
       ["wikipedia.org"; "github.com"; "developer.mozilla.org"; "stackoverflow.com"] |}.

(** The answers of the platform's URL parser on the sample addresses, as
    the WHATWG URL standard gives them.  An address that is not in the table
    reads as unparseable: of those, only "not-a-url" is used below. *)
Definition urlTable : list (string * URL) :=
  [ ("https://www.www.example.com/", mkURL "https:" "www.www.example.com" "/" [] "");
    ("https://www.example.com/", mkURL "https:" "www.example.com" "/" [] "");
    ("https://example.com/", mkURL "https:" "example.com" "/" [] "");
    ("https://example.com/page?utm_source=google&utm_medium=cpc&id=123",
     mkURL "https:" "example.com" "/page"
           [("utm_source", "google"); ("utm_medium", "cpc"); ("id", "123")] "");
    ("https://example.com/page?id=123",
     mkURL "https:" "example.com" "/page" [("id", "123")] "");
    ("https://example.com/page", mkURL "https:" "example.com" "/page" [] "");
    ("https://www.example.com/page/", mkURL "https:" "www.example.com" "/page/" [] "");
    ("https://example.com/a//", mkURL "https:" "example.com" "/a//" [] "");
    ("https://example.com/a/", mkURL "https:" "example.com" "/a/" [] "");
    ("https://example.com/a", mkURL "https:" "example.com" "/a" [] "");
    ("https://github.com/microsoft/typescript",
     mkURL "https:" "github.com" "/microsoft/typescript" [] "") ].

Definition platformURL : URLParser :=
  fun s => snd <$> List.find (fun entry => String.eqb (fst entry) s) urlTable.

Definition dedupConfig : Deduplicator.DeduplicationConfig :=
  {| Deduplicator.urlNormalization := true;
     Deduplicator.contentFingerprint := true;
     Deduplicator.similarityThreshold := 0.85 |}.

(** Two results of one page from two providers, whose metadata share the
    key [a], and a third result of another page. *)
Definition pageFromBrave : SearchResult :=
  mkSearchResult "https://example.com/page" "Test" "Content here" brave 1700000000000
                 (Some {[ "a" := VNum 1 ]}).


Definition otherPage : SearchResult :=
  mkSearchResult "https://example.com/" "Home" "Welcome" rss 1700000000000 None.


(** The same page from duckduckgo, carrying a [sources] array of its own,
    and the store that holds it as the duplicate of the page from brave. *)
Definition pageWithSources : SearchResult :=
  mkSearchResult "https://www.example.com/page/" "Test" "Content here" duckduckgo
                 1700000000000 (Some {[ "sources" := VArray 7%positive ]}).

Definition taggedStore : Store :=
  mkStore (fun l => if decide (l = 1%positive) then pageFromBrave
                    else if decide (l = 2%positive) then pageWithSources
                    else otherPage)
          {[ 7%positive := [VStr "cached"] ]}.

(** A one-document batch whose only BM25 score is the IDF of its term. *)
Definition shortDoc : SearchResult :=
  mkSearchResult "not-a-url" "ab" "cd" brave 1700000000000 None.

Definition shortDocFrequency : gmap string nat := BM25.countTokens ["ab"; "cd"] ∅.

Definition shortDocRanker (Math_log : Q -> Q) : BM25.BM25Ranker :=
  BM25.mkRanker 1.5 0.75 0 (BM25.computeIDF Math_log 1 <$> shortDocFrequency)
                (BM25.ofNat 3 / BM25.ofNat 1) 1 shortDocFrequency.

Definition shortDocScore (Math_log : Q -> Q) : Q :=
  (0 + (BM25.computeIDF Math_log 1 1 *
        (BM25.ofNat 1 * (1.5 + 1) /
         (BM25.ofNat 1 + 1.5 * (1 - 0.75 + 0.75 * (BM25.ofNat 3 / (BM25.ofNat 3 / BM25.ofNat 1)))))
        + 0))%Q.

(** A provider that answers every call with an HTTP 500, and one that
    returns a result. *)
Definition failingProvider : Fetcher.Provider :=
  {| Fetcher.name := brave;
     Fetcher.search := fun _ =>
       Fetcher.Throws {| Fetcher.message := "Brave API error: 500";
                         Fetcher.statusCode := Some 500%Z;
                         Fetcher.retryable := true |} |}.

Definition workingProvider : Fetcher.Provider :=
  {| Fetcher.name := duckduckgo;
     Fetcher.search := fun _ => Fetcher.Returns [otherPage] |}.

Definition cachingFetcher : Fetcher.Fetcher := Fetcher.newFetcher None None true None.

(** The state in which the sample fetch ends when the cache starts empty
    and keeps what is written: both tasks have settled, the failing provider
    after its three attempts. *)
Definition settledFetch : Fetcher.State :=
  Fetcher.mkState {[ "duckduckgo:typescript:{}" := [otherPage] ]}
    [Fetcher.Settled; Fetcher.Settled] [otherPage]
    [ {| Fetcher.provider := brave; Fetcher.e_message := "Brave API error: 500";
         Fetcher.e_statusCode := Some 500%Z |} ]
    [duckduckgo].

(** A stand-in for [Math.log] in the examples: like the logarithm, it is 0
    at 1 and not negative from 1 on. *)
Definition sampleLog : Q -> Q := fun x => (x - 1)%Q.

End Samples.

(** ** Properties *)

(** C8: on the base query "typescript", buildRefinedQueries(['react','node'],
    'expand') is exactly ["typescript react", "typescript node",
    "typescript react node"], in that order. *)
Theorem buildRefinedQueries_expand_example :
  Refiner.buildRefinedQueries
    (Refiner.newQueryRefiner "typescript" Refiner.noOptions)
    ["react"; "node"] Refiner.Expand
  = ["typescript react"; "typescript node"; "typescript react node"].
Proof. vm_compute. reflexivity. Qed.

(** *** Arrays: [Set] and [sort] *)

Section ArrayFacts.
Context {A : Type} (eqb : A -> A -> bool).
Hypothesis eqb_spec : forall x y, eqb x y = true <-> x = y.

Lemma existsb_eqb_elem_of x (l : list A) : existsb (eqb x) l = true <-> x ∈ l.
Proof using eqb_spec.
  rewrite existsb_exists. split.
  - intros (y & Hy & E). apply eqb_spec in E. subst. now apply list_elem_of_In.
  - intros H. exists x. split; [now apply list_elem_of_In | now apply eqb_spec].
Qed.

Lemma uniq_go_elem_of seen xs x :
  x ∈ JS.uniq_go eqb seen xs <-> x ∈ xs /\ x ∉ seen.
Proof using eqb_spec.
  revert seen. induction xs as [|y r IH]; intros seen; simpl.
  - split; [intros H; inversion H | intros [H _]; inversion H].
  - destruct (existsb (eqb y) seen) eqn:E.
    + apply existsb_eqb_elem_of in E. rewrite IH, elem_of_cons.
      split; [tauto | intros [[-> | H] Hs]; tauto].
    + assert (y ∉ seen) as Hy.
      { intros H. apply existsb_eqb_elem_of in H. congruence. }
      rewrite !elem_of_cons, IH, not_elem_of_cons.
      split.
      * intros [-> | (H1 & H2 & H3)]; tauto.
      * intros [[-> | H1] H2]; [now left|].
        destruct (existsb (eqb x) [y]) eqn:E'.
        -- apply existsb_eqb_elem_of in E'. apply list_elem_of_singleton in E'. now left.
        -- right. repeat split; auto. intros ->. simpl in E'.
           rewrite (proj2 (eqb_spec y y) eq_refl) in E'. discriminate.
Qed.

Lemma uniq_go_NoDup seen xs : NoDup (JS.uniq_go eqb seen xs).
Proof using eqb_spec.
  revert seen. induction xs as [|y r IH]; intros seen; simpl.
  - constructor.
  - destruct (existsb (eqb y) seen); [apply IH|].
    constructor; [|apply IH].
    rewrite uniq_go_elem_of, not_elem_of_cons. tauto.
Qed.

Lemma uniq_elem_of xs x : x ∈ JS.uniq eqb xs <-> x ∈ xs.
Proof using eqb_spec.
  unfold JS.uniq. rewrite uniq_go_elem_of. split; [tauto|].
  intros H. split; [easy|]. apply not_elem_of_nil.
Qed.

Lemma uniq_NoDup xs : NoDup (JS.uniq eqb xs).
Proof using eqb_spec. apply uniq_go_NoDup. Qed.

End ArrayFacts.

Section SortFacts.
Context {A : Type} (after : A -> A -> bool).

Lemma insertSorted_perm x xs : JS.insertSorted after x xs ≡ₚ x :: xs.
Proof.
  induction xs as [|y r IH]; simpl; [reflexivity|].
  destruct (after x y); [|reflexivity].
  rewrite IH. apply Permutation_swap.
Qed.

Lemma sortBy_perm xs : JS.sortBy after xs ≡ₚ xs.
Proof.
  induction xs as [|x r IH]; simpl; [reflexivity|].
  rewrite insertSorted_perm. now rewrite IH.
Qed.

Lemma sortBy_elem_of xs x : x ∈ JS.sortBy after xs <-> x ∈ xs.
Proof. now rewrite sortBy_perm. Qed.

(** The comparator orders by [R]: it never puts [a] after [b] unless
    [R b a], and leaves [a] before [b] only when [R a b]. *)
Context (R : A -> A -> Prop).
Hypothesis R_trans : forall a b c, R a b -> R b c -> R a c.
Hypothesis after_true : forall a b, after a b = true -> R b a.
Hypothesis after_false : forall a b, after a b = false -> R a b.

Lemma insertSorted_sorted x xs :
  StronglySorted R xs -> StronglySorted R (JS.insertSorted after x xs).
Proof using R_trans after_true after_false.
  induction 1 as [|y r Hr IH Hy]; simpl.
  - repeat constructor.
  - destruct (after x y) eqn:E.
    + constructor; [exact IH|].
      apply Forall_forall. intros z Hz.
      rewrite insertSorted_perm in Hz. apply elem_of_cons in Hz as [-> | Hz].
      * now apply after_true.
      * rewrite Forall_forall in Hy. now apply Hy.
    + apply after_false in E.
      constructor; [now constructor|].
      constructor; [exact E|].
      eapply Forall_impl; [exact Hy|]. intros z Hz. eauto.
Qed.

Lemma sortBy_sorted xs : StronglySorted R (JS.sortBy after xs).
Proof using R_trans after_true after_false.
  induction xs as [|x r IH]; simpl; [constructor|].
  now apply insertSorted_sorted.
Qed.

End SortFacts.


(** *** Strings *)

Section StringFacts.

Lemma everyChar_revApp p s acc :
  JS.everyChar p (JS.revApp s acc) = JS.everyChar p s && JS.everyChar p acc.
Proof.
  revert acc. induction s as [|c s IH]; intros acc; simpl; [reflexivity|].
  rewrite IH. simpl. destruct (p c), (JS.everyChar p s), (JS.everyChar p acc); reflexivity.
Qed.

Lemma everyChar_rev p s : JS.everyChar p (JS.rev s) = JS.everyChar p s.
Proof. unfold JS.rev. rewrite everyChar_revApp. simpl. apply andb_true_r. Qed.

End StringFacts.

(** *** The selection parser *)

Section ParseSelection.
Import InteractiveSearch.



Lemma rangeLoop_bounds fuel i stop max numbers :
  Forall (fun x => 1 <= x <= max)%Z numbers ->
  Forall (fun x => 1 <= x <= max)%Z (rangeLoop fuel i stop max numbers).
Proof.
  revert i numbers. induction fuel as [|n IH]; intros i numbers H; simpl; [exact H|].
  destruct (Z.leb_spec i stop), (Z.leb_spec i max); simpl; try exact H.
  apply IH. destruct (Z.leb_spec 1 i); [|exact H].
  apply Forall_app. split; [exact H|]. repeat constructor; lia.
Qed.

Lemma partStep_bounds max numbers part :
  Forall (fun x => 1 <= x <= max)%Z numbers ->
  Forall (fun x => 1 <= x <= max)%Z (partStep max numbers part).
Proof.
  intros H. unfold partStep.
  destruct (JS.includes part "-").
  - destruct (map _ _) as [|[start|] [|[stop|] rest]]; try exact H.
    destruct (usable (Some start) && usable (Some stop)); [|exact H].
    now apply rangeLoop_bounds.
  - destruct (JS.parseInt part) as [num|]; [|exact H].
    destruct (Z.leb_spec 1 num), (Z.leb_spec num max); simpl; try exact H.
    apply Forall_app. split; [exact H|]. repeat constructor; lia.
Qed.

Lemma fold_partStep_bounds max parts numbers :
  Forall (fun x => 1 <= x <= max)%Z numbers ->
  Forall (fun x => 1 <= x <= max)%Z (fold_left (partStep max) parts numbers).
Proof.
  revert numbers. induction parts as [|p r IH]; intros numbers H; simpl; [exact H|].
  apply IH. now apply partStep_bounds.
Qed.




































End ParseSelection.

(** *** Categorizer *)

Section CategorizerFacts.
Import Categorizer.
Variable parseURL : URLParser.
Variable categoryList : list Category.

Lemma rulesLoop_existsb result matched rs :
  rulesLoop parseURL result matched rs
  = matched || existsb (ruleMatches parseURL result) rs.
Proof.
  revert matched. induction rs as [|r rest IH]; intros matched; simpl.
  - now rewrite orb_false_r.
  - destruct matched; [reflexivity|]. simpl. apply IH.
Qed.

Lemma categoriesLoop_filter result cats matches :
  categoriesLoop parseURL result cats matches
  = matches ++ map name (filter (fun c => categoryMatches_spec parseURL result c = true) cats).
Proof.
  revert matches. induction cats as [|c rest IH]; intros matches; simpl.
  - now rewrite app_nil_r.
  - rewrite IH, rulesLoop_existsb. simpl. unfold categoryMatches_spec at 2.
    rewrite filter_cons.
    destruct (existsb (ruleMatches parseURL result) (rules c)) eqn:E.
    + rewrite decide_True by (unfold categoryMatches_spec; exact E).
      simpl. now rewrite <- app_assoc.
    + rewrite decide_False by (unfold categoryMatches_spec; rewrite E; discriminate).
      reflexivity.
Qed.

Lemma matchCategories_labels result :
  matchCategories parseURL categoryList result = labels_spec parseURL categoryList result.
Proof.
  unfold matchCategories, labels_spec. rewrite categoriesLoop_filter. simpl.
  destruct (map name _) as [|m ms]; reflexivity.
Qed.

Lemma labels_spec_nonempty result : labels_spec parseURL categoryList result <> [].
Proof. unfold labels_spec. destruct (map name _); discriminate. Qed.

(** C6: every element that categorize returns carries a non-empty list of
    categories.  The element at an index is made from the scored result at
    that index: its [categories] field holds the names of the categories
    one of whose rules matches that result, in definition order, and exactly
    ["General"] when no category matches; its other fields are those of the
    scored result. *)
Theorem categorize_categories_nonempty (results : list ScoredResult) :
  let out := categorize parseURL categoryList results in
  length out = length results /\
  Forall (fun cr => categories cr <> []) out /\
  (forall i r cr,
     results !! i = Some r -> out !! i = Some cr ->
     let matching :=
       map name (filter (fun c => existsb (ruleMatches parseURL r) (rules c) = true)
                        categoryList) in
     (matching = [] -> categories cr = ["General"]) /\
     (matching <> [] -> categories cr = matching) /\
     c_url cr = s_url r /\ c_title cr = s_title r /\ c_snippet cr = s_snippet r /\
     c_source cr = s_source r /\ c_timestamp cr = s_timestamp r /\
     c_metadata cr = s_metadata r /\ c_score cr = s_score r) /\
  (forall r,
     let matching :=
       map name (filter (fun c => existsb (ruleMatches parseURL r) (rules c) = true)
                        categoryList) in
     (matching = [] -> matchCategories parseURL categoryList r = ["General"]) /\
     (matching <> [] -> matchCategories parseURL categoryList r = matching)).
Proof.
  assert (forall r,
            let matching :=
              map name (filter (fun c => existsb (ruleMatches parseURL r) (rules c) = true)
                               categoryList) in
            (matching = [] -> matchCategories parseURL categoryList r = ["General"]) /\
            (matching <> [] -> matchCategories parseURL categoryList r = matching)) as Hm.
  { intros r matching. rewrite matchCategories_labels. unfold labels_spec.
    change (map name (filter _ categoryList)) with matching.
    split.
    - now intros ->.
    - intros H. destruct matching; [contradiction | reflexivity]. }
  cbv zeta. split; [|split; [|split]].
  - unfold categorize. apply length_map.
  - unfold categorize. apply Forall_map, Forall_forall. intros r _. simpl.
    rewrite matchCategories_labels. apply labels_spec_nonempty.
  - intros i r cr Hr Hcr. unfold categorize in Hcr.
    change (map ?f results) with (f <$> results) in Hcr.
    rewrite list_lookup_fmap, Hr in Hcr. injection Hcr as <-.
    cbn [categories c_url c_title c_snippet c_source c_timestamp c_metadata c_score
         withCategories].
    destruct (Hm r) as [H1 H2]. repeat split; assumption.
  - exact Hm.
Qed.

End CategorizerFacts.

(** *** Scorer *)

Section ScorerFacts.
Import Scorer.
Variable parseURL : URLParser.
Variable config : ScoringConfig.

Local Open Scope Q_scope.

Lemma recencyScore_bounds now ts :
  (ts <= now)%Z -> 0.1 <= recencyScore now ts <= 1.
Proof.
  intros H. unfold recencyScore. split; [apply Q.le_max_l|].
  apply Q.max_lub; [lra|].
  assert (0 <= inject_Z (now - ts)) as Hage.
  { change 0 with (inject_Z 0). rewrite <- Zle_Qle. lia. }
  assert (0 <= inject_Z (now - ts) / msPerDay / 365) as Hd.
  { unfold Qdiv. repeat apply Qmult_le_0_compat; try exact Hage; discriminate. }
  lra.
Qed.

Lemma recencyScore_lower now ts : 0.1 <= recencyScore now ts.
Proof. apply Q.le_max_l. Qed.

Lemma domainScore_bounds u : 0.3 <= domainScore parseURL config u <= 1.
Proof.
  unfold domainScore. destruct (parseURL u) as [parsed|]; [|lra].
  destruct (existsb _ (trustedDomains config)); [lra|].
  destruct (_ || _); [lra|].
  destruct (existsb _ qualityDomains); lra.
Qed.

Lemma countMatches_bounds queryTerms titleTerms snippetTerms tm sm :
  (fst (countMatches queryTerms titleTerms snippetTerms tm sm) <= tm + length queryTerms)%nat /\
  (snd (countMatches queryTerms titleTerms snippetTerms tm sm) <= sm + length queryTerms)%nat.
Proof.
  revert tm sm. induction queryTerms as [|t r IH]; intros tm sm; simpl; [lia|].
  specialize (IH (if arrayIncludes titleTerms t then S tm else tm)
                 (if arrayIncludes snippetTerms t then S sm else sm)).
  destruct (arrayIncludes titleTerms t), (arrayIncludes snippetTerms t); lia.
Qed.

Lemma ratio_bounds (m n : nat) :
  (m <= n)%nat -> (0 < n)%nat -> 0 <= ofNat m / ofNat n <= 1.
Proof.
  intros Hmn Hn. unfold ofNat.
  assert (0 < inject_Z (Z.of_nat n)) as Hp.
  { change 0 with (inject_Z 0). rewrite <- Zlt_Qlt. lia. }
  assert (0 <= inject_Z (Z.of_nat m)) as Hm.
  { change 0 with (inject_Z 0). rewrite <- Zle_Qle. lia. }
  assert (inject_Z (Z.of_nat m) <= inject_Z (Z.of_nat n)) as Hle.
  { rewrite <- Zle_Qle. lia. }
  split.
  - apply Qle_shift_div_l; [exact Hp | lra].
  - apply Qle_shift_div_r; [exact Hp | lra].
Qed.

Lemma relevanceScore_bounds result query : 0 <= relevanceScore result query <= 1.
Proof.
  unfold relevanceScore.
  destruct (length (tokenize query) =? 0)%nat eqn:E; [lra|].
  apply Nat.eqb_neq in E.
  pose proof (countMatches_bounds (tokenize query) (tokenize (title result))
                (tokenize (snippet result)) 0 0) as [Ht Hs].
  destruct (countMatches _ _ _ 0%nat 0%nat) as [tm sm]. simpl in Ht, Hs.
  pose proof (ratio_bounds tm (length (tokenize query)) Ht ltac:(lia)) as Bt.
  pose proof (ratio_bounds sm (length (tokenize query)) Hs ltac:(lia)) as Bs.
  destruct (JS.includes _ _).
  - split; [apply Q.min_glb; lra | apply Q.le_min_l].
  - lra.
Qed.

(** C10: the scored result has the url, title, snippet, source, timestamp and
    metadata of the result it was computed from; scoring adds the score. *)
Theorem score_preserves_fields now (result : SearchResult) (query : string) :
  let scored := score parseURL config now result query in
  s_url scored = url result /\
  s_title scored = title result /\
  s_snippet scored = snippet result /\
  s_source scored = source result /\
  s_timestamp scored = timestamp result /\
  s_metadata scored = metadata result.
Proof. cbv zeta. unfold score. simpl. repeat split. Qed.

Lemma score_bounds now result query :
  weightsWithinUnit (weights config) ->
  (timestamp result <= now)%Z ->
  0 <= s_score (score parseURL config now result query) <= 1.
Proof.
  intros (Hr & Hd & Hk & Hsum) Hts. unfold score. simpl.
  pose proof (recencyScore_bounds now (timestamp result) Hts) as Br.
  pose proof (domainScore_bounds (url result)) as Bd.
  pose proof (relevanceScore_bounds result query) as Bk.
  set (r := recencyScore _ _) in *. set (d := domainScore _ _ _) in *.
  set (k := relevanceScore _ _) in *.
  set (wr := recency _) in *. set (wd := domainAuthority _) in *.
  set (wk := keywordRelevance _) in *.
  split; nra.
Qed.

(** C2, amended: when the weights are non-negative and sum to at most 1 and
    no result is stamped later than the clock reads while it is scored,
    the score that Scorer.score computes, and the score of every element
    that Scorer.scoreAll returns, lies in [0, 1]. *)
Theorem score_in_unit_interval (clock : nat -> Z) (results : list SearchResult)
    (query : string) :
  weightsWithinUnit (weights config) ->
  (forall i r, results !! i = Some r -> (timestamp r <= clock i)%Z) ->
  (forall i r, results !! i = Some r ->
     0 <= s_score (score parseURL config (clock i) r query) <= 1) /\
  Forall (fun sr => 0 <= s_score sr <= 1) (scoreAll parseURL config clock results query).
Proof.
  intros Hw Hts. split.
  - intros i r Hr. apply score_bounds; [exact Hw | now apply (Hts i)].
  - apply Forall_forall. intros sr Hsr. unfold scoreAll in Hsr.
    apply sortBy_elem_of in Hsr. apply elem_of_lookup_imap in Hsr as (i & r & -> & Hr).
    apply score_bounds; [exact Hw | now apply (Hts i)].
Qed.

End ScorerFacts.

Section ScorerExamples.
Import Scorer Samples.
Local Open Scope Q_scope.

(** C2 as stated fails: with the weights 1, 1 and 1, which the configuration
    schema admits, a result stamped at the very reading of the clock scores
    above 1, whatever the URL parser makes of its address. *)
Lemma score_above_one_with_unit_weights :
  ~ exists parseURL : URLParser,
      s_score (score parseURL unitWeights 1700000000000 freshResult "typescript") <= 1.
Proof.
  intros [parseURL H]. unfold score in H. simpl in H.
  pose proof (domainScore_bounds parseURL unitWeights (url freshResult)) as Bd.
  pose proof (relevanceScore_bounds freshResult "typescript") as Bk.
  pose proof (recencyScore_lower 1700000000000 (timestamp freshResult)) as Br.
  assert (recencyScore 1700000000000 (timestamp freshResult) == 1) as Er
    by (vm_compute; reflexivity).
  simpl in Bd, Er. lra.
Qed.

Lemma score_in_unit_interval_witness :
  (forall i r, [freshResult] !! i = Some r ->
     0 <= s_score (score (fun _ => None) defaultConfig 1700000000000 r "typescript") <= 1) /\
  Forall (fun sr => 0 <= s_score sr <= 1)
    (scoreAll (fun _ => None) defaultConfig (fun _ => 1700000000000%Z)
       [freshResult] "typescript").
Proof.
  apply (score_in_unit_interval (fun _ => None) defaultConfig
           (fun _ => 1700000000000%Z) [freshResult] "typescript").
  - unfold weightsWithinUnit. simpl. lra.
  - intros [|i] r Hr; simpl in Hr; [|discriminate].
    injection Hr as <-. simpl. lia.
Defined.

End ScorerExamples.

(** *** Hybrid BM25 scorer *)

Section HybridFacts.
Import HybridBM25Scorer.
Variable Math_log : Q -> Q.
Variable parseURL : URLParser.

Local Open Scope Q_scope.

Lemma maxWithOne_ge_one xs : 1 <= maxWithOne xs.
Proof.
  induction xs as [|x r IH]; simpl; [lra|].
  eapply Qle_trans; [exact IH | apply Q.le_max_r].
Qed.

Lemma maxWithOne_upper xs : Forall (fun x => x <= maxWithOne xs) xs.
Proof.
  induction xs as [|x r IH]; simpl; constructor.
  - apply Q.le_max_l.
  - eapply Forall_impl; [exact IH|]. simpl. intros y Hy.
    eapply Qle_trans; [exact Hy | apply Q.le_max_r].
Qed.

Lemma maxWithOne_attained xs :
  maxWithOne xs == 1 \/ exists x, x ∈ xs /\ maxWithOne xs == x.
Proof.
  induction xs as [|x r IH]; simpl; [left; reflexivity|].
  destruct (Q.max_spec x (maxWithOne r)) as [[Hlt E] | [Hle E]].
  - destruct IH as [IH | (y & Hy & IH)].
    + left. now rewrite E.
    + right. exists y. split; [rewrite elem_of_cons; now right | now rewrite E].
  - right. exists x. split; [rewrite elem_of_cons; now left | exact E].
Qed.

Lemma positive_true x : JS.positive x = true <-> 0 < x.
Proof.
  unfold JS.positive. rewrite negb_true_iff. split.
  - intros H. apply Qnot_le_lt. intros Hle. apply Qle_bool_iff in Hle. congruence.
  - intros H. destruct (Qle_bool x 0) eqn:E; [|reflexivity].
    apply Qle_bool_iff in E. lra.
Qed.

Lemma positive_false x : JS.positive x = false <-> x <= 0.
Proof.
  unfold JS.positive. rewrite negb_false_iff. apply Qle_bool_iff.
Qed.

(** C3, amended: scoreAll divides each BM25 score of the batch by the larger
    of 1 and the batch maximum, blends the quotient with the recency and
    domain signals under the configured weights (0.6, 0.2 and 0.2 unless
    given), clamps the blend at 1, and returns the blended results in
    descending order of score. *)
Theorem hybrid_scoreAll_blend (self : Scorer) (clock : nat -> Z)
    (results : list SearchResult) (query : string) :
  let ranked := snd (BM25.scoreAll Math_log (ranker self) results query) in
  let out := snd (scoreAll Math_log parseURL self clock results query) in
  let divisor := maxWithOne (map BM25.bm25Score ranked) in
  (1 <= divisor /\
   Forall (fun r => BM25.bm25Score r <= divisor) ranked /\
   (divisor == 1 \/ exists r, r ∈ ranked /\ divisor == BM25.bm25Score r)) /\
  out ≡ₚ imap (fun i r => blend parseURL self divisor (clock i) r) ranked /\
  StronglySorted (fun x y => h_score y <= h_score x) out /\
  Forall (fun h => h_score h <= 1) out /\
  (forall now r,
     h_score (blend parseURL self divisor now r)
     = Qmin 1 (BM25.bm25Score r / divisor * bm25 (weights self)
               + recencyScore now (BM25.b_timestamp r) * recency (weights self)
               + domainScore parseURL self (BM25.b_url r) * domainAuthority (weights self)) /\
     h_bm25Score (blend parseURL self divisor now r) = BM25.bm25Score r) /\
  weights (newScorer None None) = {| bm25 := 0.6; recency := 0.2; domainAuthority := 0.2 |}.
Proof.
  cbv zeta. unfold scoreAll.
  destruct (BM25.scoreAll Math_log (ranker self) results query) as [ranker' ranked].
  simpl. repeat split.
  - apply maxWithOne_ge_one.
  - apply Forall_forall. intros r Hr.
    pose proof (maxWithOne_upper (map BM25.bm25Score ranked)) as H.
    rewrite Forall_forall in H. apply H.
    apply list_elem_of_In, in_map, list_elem_of_In. exact Hr.
  - destruct (maxWithOne_attained (map BM25.bm25Score ranked)) as [H | (x & Hx & H)];
      [now left|].
    apply list_elem_of_In, in_map_iff in Hx as (r & <- & Hr).
    right. exists r. split; [now apply list_elem_of_In | exact H].
  - apply sortBy_perm.
  - apply sortBy_sorted.
    + intros x y z Hxy Hyz. lra.
    + intros x y H. apply positive_true in H. lra.
    + intros x y H. apply positive_false in H. lra.
  - apply Forall_forall. intros h Hh. apply sortBy_elem_of in Hh.
    apply elem_of_lookup_imap in Hh as (i & r & -> & _). simpl. apply Q.le_min_l.
Qed.

End HybridFacts.

Section HybridExamples.
Import HybridBM25Scorer Samples.
Variable Math_log : Q -> Q.
Variable parseURL : URLParser.
Local Open Scope Q_scope.

Lemma shortDoc_index :
  BM25.buildIndex Math_log (BM25.newRanker BM25.noOptions) [shortDoc]
  = shortDocRanker Math_log.
Proof.
  unfold BM25.buildIndex.
  replace (BM25.indexLoop [shortDoc] 0 ∅) with (3%nat, shortDocFrequency)
    by (vm_compute; reflexivity).
  reflexivity.
Qed.

Lemma shortDoc_bm25 :
  BM25.scoreAll Math_log (BM25.newRanker BM25.noOptions) [shortDoc] "cd"
  = (shortDocRanker Math_log, [BM25.withBM25 shortDoc (shortDocScore Math_log)]).
Proof.
  unfold BM25.scoreAll.
  change (BM25.totalDocs (BM25.newRanker BM25.noOptions) =? 0)%nat with true.
  cbn [orb]. rewrite shortDoc_index.
  replace (BM25.tokenize (JS.toLowerCase "cd")) with ["cd"] by (vm_compute; reflexivity).
  cbn [map JS.sortBy JS.insertSorted].
  unfold BM25.scoreDocument.
  replace (BM25.tokenize (BM25.getDocumentText shortDoc)) with ["ab"; "ab"; "cd"]
    by (vm_compute; reflexivity).
  cbn [BM25.scoreLoop length].
  replace (default 0%nat (BM25.termFrequencies ["ab"; "ab"; "cd"] !! "cd")) with 1%nat
    by (vm_compute; reflexivity).
  cbn [Nat.eqb].
  change (BM25.idfCache (shortDocRanker Math_log))
    with (BM25.computeIDF Math_log 1 <$> shortDocFrequency).
  rewrite lookup_fmap.
  replace (shortDocFrequency !! "cd") with (Some 1%nat) by (vm_compute; reflexivity).
  reflexivity.
Qed.

(** The only BM25 score of the batch is the IDF of "cd", [Math.log(4/3)]. *)
Lemma shortDocScore_value :
  exists x, x == 4 # 3 /\ shortDocScore Math_log == Math_log x.
Proof.
  exists (1 + (BM25.ofNat 1 - BM25.ofNat 1 + 0.5) / (BM25.ofNat 1 + 0.5)).
  split; [|unfold shortDocScore, BM25.computeIDF].
  2: { assert (BM25.ofNat 1 * (1.5 + 1) /
         (BM25.ofNat 1 + 1.5 * (1 - 0.75 + 0.75 * (BM25.ofNat 3 / (BM25.ofNat 3 / BM25.ofNat 1))))
         == 1) as E by (vm_compute; reflexivity).
       rewrite E. ring. }
  vm_compute. reflexivity.
Qed.

Lemma hybrid_shortDoc (divisor : Q) :
  parseURL "not-a-url" = None ->
  h_score (blend parseURL (newScorer None None) divisor 1700000000000
                 (BM25.withBM25 shortDoc (shortDocScore Math_log)))
  == Qmin 1 (shortDocScore Math_log / divisor * 0.6 + 0.26).
Proof.
  intros Hp. unfold blend. cbn [h_score BM25.bm25Score BM25.withBM25 BM25.b_url BM25.b_timestamp].
  unfold domainScore. cbn [url shortDoc timestamp]. rewrite Hp.
  cbn [weights newScorer default defaultWeights bm25 recency domainAuthority].
  assert (recencyScore 1700000000000 1700000000000 == 1) as E
    by (vm_compute; reflexivity).
  rewrite E. apply Q.min_compat; [reflexivity | ring].
Qed.

End HybridExamples.

(** C3 as stated fails: in the one-document batch [shortDoc] queried for "cd"
    the only BM25 score is Math.log(4/3), which lies between 0 and 1; the code
    divides it by 1, not by the batch maximum, so the blended score is
    0.6 * Math.log(4/3) + 0.26 and not the 0.86 the claim gives. *)
Lemma hybrid_not_divided_by_batch_max :
  ~ exists (Math_log : Q -> Q) (parseURL : URLParser),
      (forall x, x == 4 # 3 -> 0 < Math_log x < 1)%Q /\
      parseURL "not-a-url" = None /\
      forall h,
        h ∈ snd (HybridBM25Scorer.scoreAll Math_log parseURL
                   (HybridBM25Scorer.newScorer None None)
                   (fun _ => 1700000000000%Z) [Samples.shortDoc] "cd") ->
        exists h',
          h' ∈ HybridBM25Scorer.blendedByBatchMax_spec Math_log parseURL
                 (HybridBM25Scorer.newScorer None None)
                 (fun _ => 1700000000000%Z) [Samples.shortDoc] "cd" /\
          (HybridBM25Scorer.h_score h == HybridBM25Scorer.h_score h')%Q.
Proof.
  intros (Math_log & parseURL & Hlog & Hp & Hclaim).
  destruct (shortDocScore_value Math_log) as (x & Hx & Hs).
  specialize (Hlog x Hx).
  unfold HybridBM25Scorer.scoreAll, HybridBM25Scorer.blendedByBatchMax_spec in Hclaim.
  cbn [HybridBM25Scorer.ranker HybridBM25Scorer.newScorer] in Hclaim.
  rewrite shortDoc_bm25 in Hclaim.
  cbn [snd map imap JS.sortBy JS.insertSorted HybridBM25Scorer.maxWithOne
       HybridBM25Scorer.batchMax fold_right BM25.bm25Score BM25.withBM25] in Hclaim.
  destruct (Hclaim _ ltac:(apply list_elem_of_singleton; reflexivity)) as (h' & Hh' & E).
  apply list_elem_of_singleton in Hh'. subst h'.
  rewrite !hybrid_shortDoc in E by exact Hp.
  set (s := Samples.shortDocScore Math_log) in *.
  assert (0 < s < 1)%Q as Hs01 by (rewrite Hs; exact Hlog).
  assert (Qmax s 1 == 1)%Q as Emax by (apply Q.max_r; lra).
  assert (s / Qmax s 1 * 0.6 + 0.26 == s * 0.6 + 0.26)%Q as Ha
    by (rewrite Emax; field).
  assert (s / s * 0.6 + 0.26 == 0.86)%Q as Hb by (field; lra).
  rewrite Ha, Hb in E.
  rewrite (Q.min_r 1 (s * 0.6 + 0.26)%Q) in E by lra.
  rewrite (Q.min_r 1 0.86%Q) in E by lra.
  lra.
Qed.

(** What the preceding lemma asks of the platform can be met: a logarithm
    with a value strictly between 0 and 1 at 4/3 (Math.log(4/3) is about
    0.2877) and a parser that rejects "not-a-url". *)
Example shortDoc_platform_exists :
  exists (Math_log : Q -> Q) (parseURL : URLParser),
    (forall x, x == 4 # 3 -> 0 < Math_log x < 1)%Q /\
    parseURL "not-a-url" = None.
Proof.
  exists (fun _ => 1 # 4), Samples.platformURL.
  split; [intros x _; split; reflexivity | reflexivity].
Qed.

(** *** Deduplicator: the surviving results *)

Section FirstOccurrences.
Import Deduplicator.
Variable key : loc -> string.

Lemma firstOccurrences_snoc acc pre r :
  firstOccurrences key acc (pre ++ [r])
  = firstOccurrences key acc pre ++
    (if decide (key r ∈ acc ++ (key <$> pre)) then [] else [r]).
Proof.
  revert acc. induction pre as [|h rest IH]; intros acc; simpl.
  - rewrite app_nil_r. destruct (decide (key r ∈ acc)); reflexivity.
  - change (list_fmap _ _ key rest) with (key <$> rest).
    destruct (decide (key h ∈ acc)) as [Hh | Hh].
    + rewrite IH. f_equal.
      assert (key r ∈ acc ++ (key <$> rest) <-> key r ∈ acc ++ key h :: (key <$> rest)) as Hiff.
      { rewrite !elem_of_app, !elem_of_cons. split; [tauto|].
        intros [? | [E | ?]]; [tauto | rewrite E; tauto | tauto]. }
      repeat case_decide; try reflexivity; tauto.
    + rewrite IH. simpl. f_equal. f_equal.
      assert (key r ∈ (key h :: acc) ++ (key <$> rest)
              <-> key r ∈ acc ++ key h :: (key <$> rest)) as Hiff.
      { rewrite !elem_of_app, !elem_of_cons. tauto. }
      repeat case_decide; try reflexivity; tauto.
Qed.

Lemma firstOccurrences_sublist acc l : sublist (firstOccurrences key acc l) l.
Proof.
  revert acc. induction l as [|h rest IH]; intros acc; simpl; [constructor|].
  destruct (decide (key h ∈ acc)); [apply sublist_cons | apply sublist_skip]; apply IH.
Qed.

Lemma firstOccurrences_fresh acc l x :
  x ∈ firstOccurrences key acc l -> key x ∉ acc.
Proof.
  revert acc. induction l as [|h rest IH]; intros acc; simpl.
  - intros H. inversion H.
  - destruct (decide (key h ∈ acc)) as [Hh | Hh]; [apply IH|].
    rewrite elem_of_cons. intros [-> | H]; [exact Hh|].
    apply IH in H. rewrite not_elem_of_cons in H. tauto.
Qed.

Lemma firstOccurrences_NoDup_keys acc l : NoDup (key <$> firstOccurrences key acc l).
Proof.
  revert acc. induction l as [|h rest IH]; intros acc; simpl; [constructor|].
  destruct (decide (key h ∈ acc)) as [Hh | Hh]; [apply IH|].
  simpl. constructor; [|apply IH].
  rewrite list_elem_of_fmap. intros (y & E & Hy).
  apply firstOccurrences_fresh in Hy. rewrite not_elem_of_cons in Hy.
  destruct Hy as [Hy _]. congruence.
Qed.

Lemma firstOccurrences_covers acc l x :
  x ∈ l -> key x ∉ acc ->
  exists y, y ∈ firstOccurrences key acc l /\ key y = key x.
Proof.
  revert acc. induction l as [|h rest IH]; intros acc Hx Hacc; [inversion Hx|].
  simpl. apply elem_of_cons in Hx as [-> | Hx].
  - rewrite decide_False by exact Hacc. exists h. split; [apply elem_of_cons; now left | reflexivity].
  - destruct (decide (key h ∈ acc)) as [Hh | Hh]; [now apply IH|].
    destruct (decide (key x = key h)) as [E | NE].
    + exists h. split; [apply elem_of_cons; now left | now symmetry].
    + destruct (IH (key h :: acc) Hx) as (y & Hy & E).
      { rewrite not_elem_of_cons. tauto. }
      exists y. split; [apply elem_of_cons; now right | exact E].
Qed.

Lemma firstOccurrences_first acc l y :
  y ∈ firstOccurrences key acc l ->
  exists l1 l2, l = l1 ++ y :: l2 /\ key y ∉ acc ++ (key <$> l1).
Proof.
  revert acc. induction l as [|h rest IH]; intros acc; simpl; [intros H; inversion H|].
  destruct (decide (key h ∈ acc)) as [Hh | Hh].
  - intros Hy. destruct (IH acc Hy) as (l1 & l2 & -> & Hn).
    exists (h :: l1), l2. split; [reflexivity|].
    rewrite fmap_cons, elem_of_app, elem_of_cons. rewrite elem_of_app in Hn.
    intros [H | [E | H]]; [tauto | | tauto].
    apply Hn. left. now rewrite E.
  - rewrite elem_of_cons. intros [-> | Hy].
    + exists [], rest. split; [reflexivity|]. rewrite fmap_nil. now rewrite app_nil_r.
    + destruct (IH (key h :: acc) Hy) as (l1 & l2 & -> & Hn).
      exists (h :: l1), l2. split; [reflexivity|].
      rewrite fmap_cons, elem_of_app, elem_of_cons.
      rewrite elem_of_app, elem_of_cons in Hn. tauto.
Qed.

Lemma firstWithKey_snoc k pre r :
  firstWithKey key k (pre ++ [r])
  = match firstWithKey key k pre with
    | Some e => Some e
    | None => if decide (key r = k) then Some r else None
    end.
Proof.
  unfold firstWithKey. rewrite filter_app.
  destruct (filter (fun x => key x = k) pre) as [|e rest]; simpl.
  - rewrite filter_cons, filter_nil. destruct (decide (key r = k)); reflexivity.
  - reflexivity.
Qed.

Lemma firstWithKey_None k l : firstWithKey key k l = None <-> k ∉ (key <$> l).
Proof.
  unfold firstWithKey. rewrite head_None. split.
  - intros H (x & -> & Hx)%list_elem_of_fmap.
    assert (x ∈ filter (fun y => key y = key x) l) as Hin
      by (apply list_elem_of_filter; auto).
    rewrite H in Hin. inversion Hin.
  - intros H. destruct (filter _ l) as [|x rest] eqn:E; [reflexivity|].
    exfalso. apply H. assert (x ∈ filter (fun y => key y = k) l) as Hin
      by (rewrite E; apply elem_of_cons; now left).
    apply list_elem_of_filter in Hin as [<- Hin]. now apply list_elem_of_fmap_2.
Qed.

Lemma firstWithKey_Some k l e :
  firstWithKey key k l = Some e ->
  key e = k /\ exists l1 l2, l = l1 ++ e :: l2 /\ k ∉ (key <$> l1).
Proof.
  unfold firstWithKey. induction l as [|h rest IH]; [discriminate|].
  rewrite filter_cons. destruct (decide (key h = k)) as [E | NE]; simpl.
  - intros [= <-]. split; [exact E|]. exists [], rest. split; [reflexivity|].
    rewrite fmap_nil. apply not_elem_of_nil.
  - intros H. destruct (IH H) as (Ek & l1 & l2 & -> & Hn).
    split; [exact Ek|]. exists (h :: l1), l2. split; [reflexivity|].
    rewrite fmap_cons, not_elem_of_cons. split; [congruence | exact Hn].
Qed.

End FirstOccurrences.

Section DeduplicatorFacts.
Import Deduplicator.
Variable parseURL : URLParser.
Variable config : DeduplicationConfig.

Local Abbreviation keyOf st := (keyIn parseURL config st).

Lemma generateKey_sameIdentity o o' :
  sameIdentity o o' -> generateKey parseURL config o = generateKey parseURL config o'.
Proof.
  intros (E1 & E2 & E3 & _). unfold generateKey. now rewrite E1, E2, E3.
Qed.

Lemma sameIdentity_refl o : sameIdentity o o.
Proof. repeat split. Qed.

Lemma sameIdentity_trans o1 o2 o3 :
  sameIdentity o1 o2 -> sameIdentity o2 o3 -> sameIdentity o1 o3.
Proof.
  intros (A1 & A2 & A3 & A4 & A5) (B1 & B2 & B3 & B4 & B5).
  repeat split; congruence.
Qed.

Lemma mergeDuplicate_other st e result x :
  x <> e -> objects (mergeDuplicate st e result) x = objects st x.
Proof.
  intros Hx. unfold mergeDuplicate.
  destruct (negb (truthy _)); simpl; now rewrite fn_lookup_insert_ne.
Qed.

Lemma mergeDuplicate_sameIdentity st e result x :
  sameIdentity (objects (mergeDuplicate st e result) x) (objects st x).
Proof.
  destruct (decide (x = e)) as [-> | Hx].
  - unfold mergeDuplicate.
    destruct (negb (truthy _)); simpl; rewrite fn_lookup_insert; repeat split.
  - rewrite mergeDuplicate_other by exact Hx. apply sameIdentity_refl.
Qed.

Lemma step_sameIdentity st r x :
  sameIdentity (objects (store (step parseURL config st r)) x) (objects (store st) x).
Proof.
  unfold step. destruct (seen st !! _); simpl.
  - apply mergeDuplicate_sameIdentity.
  - apply sameIdentity_refl.
Qed.

Lemma run_snoc st0 pre r :
  run parseURL config st0 (pre ++ [r]) = step parseURL config (run parseURL config st0 pre) r.
Proof. unfold run. now rewrite fold_left_app. Qed.

Lemma run_sameIdentity st0 pre x :
  sameIdentity (objects (store (run parseURL config st0 pre)) x) (objects st0 x).
Proof.
  induction pre as [|r pre IH] using rev_ind.
  - apply sameIdentity_refl.
  - rewrite run_snoc. eapply sameIdentity_trans; [apply step_sameIdentity | exact IH].
Qed.

(** The keys are those of the store the run started from. *)
Lemma run_key st0 pre x :
  generateKey parseURL config (objects (store (run parseURL config st0 pre)) x)
  = keyOf st0 x.
Proof. apply generateKey_sameIdentity, run_sameIdentity. Qed.

Lemma run_seen_unique st0 pre :
  (forall k, seen (run parseURL config st0 pre) !! k = firstWithKey (keyOf st0) k pre) /\
  unique (run parseURL config st0 pre) = firstOccurrences (keyOf st0) [] pre.
Proof.
  induction pre as [|r pre [IHs IHu]] using rev_ind.
  - split; [intros k; apply lookup_empty | reflexivity].
  - rewrite run_snoc. unfold step. rewrite run_key.
    rewrite firstOccurrences_snoc. simpl.
    destruct (seen (run parseURL config st0 pre) !! keyOf st0 r) as [e|] eqn:E; simpl.
    + rewrite IHs in E. split.
      * intros k. rewrite IHs, firstWithKey_snoc.
        destruct (firstWithKey (keyOf st0) k pre) eqn:Ek; [reflexivity|].
        destruct (decide (keyOf st0 r = k)) as [<- | NE]; [|reflexivity].
        simpl in Ek. congruence.
      * rewrite IHu. rewrite decide_True; [now rewrite app_nil_r|].
        destruct (decide (keyOf st0 r ∈ (keyOf st0 <$> pre))) as [H | H]; [exact H|].
        apply firstWithKey_None in H. simpl in H. congruence.
    + rewrite IHs in E. split.
      * intros k. rewrite firstWithKey_snoc.
        destruct (decide (keyOf st0 r = k)) as [<- | NE].
        -- rewrite lookup_insert_eq. simpl. now rewrite E.
        -- rewrite lookup_insert_ne by exact NE. rewrite IHs.
           now destruct (firstWithKey (keyOf st0) k pre).
      * rewrite IHu. rewrite decide_False; [reflexivity|].
        now apply firstWithKey_None.
Qed.

(** C9: deduplicate returns the first occurrence of each deduplication key,
    in input order: a subsequence of the input (so no longer than it, and
    made of its elements), with one element per key of the input and no key
    twice; every returned element stands in the input before any other
    element of its key.  The keys are not changed by the run. *)
Theorem deduplicate_first_occurrences (st : Store) (results : list loc) :
  let out := snd (deduplicate parseURL config st results) in
  let st' := fst (deduplicate parseURL config st results) in
  let key := keyIn parseURL config st in
  out = firstOccurrences key [] results /\
  sublist out results /\
  length out <= length results /\
  (forall x, x ∈ out -> x ∈ results) /\
  NoDup (key <$> out) /\
  (forall x, x ∈ results -> exists y, y ∈ out /\ key y = key x) /\
  (forall y, y ∈ out ->
     exists l1 l2, results = l1 ++ y :: l2 /\ key y ∉ (key <$> l1)) /\
  (forall x, generateKey parseURL config (objects st' x) = key x).
Proof.
  cbv zeta. unfold deduplicate. cbn [fst snd].
  destruct (run_seen_unique st results) as [_ ->].
  pose proof (firstOccurrences_sublist (keyOf st) [] results) as Hsub.
  repeat split.
  - exact Hsub.
  - now apply sublist_length.
  - intros x Hx. now apply (elem_of_sublist _ _ _ Hx).
  - apply firstOccurrences_NoDup_keys.
  - intros x Hx.
    apply (firstOccurrences_covers (keyOf st)); [exact Hx | apply not_elem_of_nil].
  - intros y Hy.
    apply (firstOccurrences_first (keyOf st)) in Hy as (l1 & l2 & E & Hn).
    exists l1, l2. split; [exact E | exact Hn].
  - intros x. apply run_key.
Qed.

(** *** Deduplicator: the merge of a duplicate *)

Lemma mergeDuplicate_spec st e result :
  let existing := objects st e in
  let st' := mergeDuplicate st e result in
  sameIdentity (objects st' e) existing /\
  exists m,
    metadata (objects st' e) = Some m /\
    (forall k, k <> "sources" ->
       m !! k = match spread (metadata result) !! k with
                | Some v => Some v
                | None => spread (metadata existing) !! k
                end) /\
    match (spread (metadata result) ∪ spread (metadata existing)) !! "sources" with
    | Some (VArray a) =>
        m !! "sources" = Some (VArray a) /\
        arrays st' = alter (fun xs => xs ++ [sourceTag result]) a (arrays st)
    | old =>
        if truthy (default VUndefined old)
        then m !! "sources" = old /\ arrays st' = arrays st
        else exists a,
               (a ∉ dom (arrays st)) /\
               m !! "sources" = Some (VArray a) /\
               arrays st' = <[a := [sourceTag existing; sourceTag result]]> (arrays st)
    end.
Proof.
  cbv zeta. split; [apply mergeDuplicate_sameIdentity|].
  assert (forall k, (spread (metadata result) ∪ spread (metadata (objects st e))) !! k
                    = match spread (metadata result) !! k with
                      | Some v => Some v
                      | None => spread (metadata (objects st e)) !! k
                      end) as Hunion.
  { intros k. rewrite lookup_union.
    destruct (spread (metadata result) !! k), (spread (metadata (objects st e)) !! k);
      reflexivity. }
  unfold mergeDuplicate.
  set (merged := spread (metadata result) ∪ spread (metadata (objects st e))) in *.
  destruct (merged !! "sources") as [old|] eqn:Eold; simpl.
  - destruct (truthy old) eqn:Et; simpl.
    + eexists. rewrite fn_lookup_insert. split; [reflexivity|].
      split; [intros k _; apply Hunion|].
      rewrite Eold. destruct old; simpl in *; try discriminate; rewrite ?Et; auto.
    + eexists. rewrite fn_lookup_insert. cbn [metadata withMetadata].
      split; [reflexivity|].
      split; [intros k Hk; rewrite lookup_insert_ne by congruence; apply Hunion|].
      rewrite lookup_insert_eq.
      destruct old; simpl in Et; try discriminate; rewrite ?Et;
        (exists (fresh (dom (arrays st)));
         split; [apply is_fresh|]; split; [reflexivity|];
         now rewrite alter_insert_eq).
  - eexists. rewrite fn_lookup_insert. cbn [metadata withMetadata].
    split; [reflexivity|].
    split; [intros k Hk; rewrite lookup_insert_ne by congruence; apply Hunion|].
    rewrite lookup_insert_eq.
    exists (fresh (dom (arrays st))).
    split; [apply is_fresh|]. split; [reflexivity|].
    now rewrite alter_insert_eq.
Qed.

(** The step on a duplicate. *)
Lemma step_merges_duplicate (st0 : Store) (pre : list loc) (r e : loc) :
  let st := run parseURL config st0 pre in
  let result := objects (store st) r in
  let existing := objects (store st) e in
  let st' := step parseURL config st r in
  seen st !! generateKey parseURL config result = Some e ->
  (exists l1 l2, pre = l1 ++ e :: l2 /\ keyOf st0 e = keyOf st0 r /\
                 keyOf st0 r ∉ (keyOf st0 <$> l1)) /\
  unique st' = unique st /\
  seen st' = seen st /\
  (forall x, x <> e -> objects (store st') x = objects (store st) x) /\
  sameIdentity (objects (store st') e) existing /\
  exists m,
    metadata (objects (store st') e) = Some m /\
    (forall k, k <> "sources" ->
       m !! k = match spread (metadata result) !! k with
                | Some v => Some v
                | None => spread (metadata existing) !! k
                end) /\
    match (spread (metadata result) ∪ spread (metadata existing)) !! "sources" with
    | Some (VArray a) =>
        m !! "sources" = Some (VArray a) /\
        arrays (store st') = alter (fun xs => xs ++ [sourceTag result]) a (arrays (store st))
    | old =>
        if truthy (default VUndefined old)
        then m !! "sources" = old /\ arrays (store st') = arrays (store st)
        else exists a,
               (a ∉ dom (arrays (store st))) /\
               m !! "sources" = Some (VArray a) /\
               arrays (store st')
               = <[a := [sourceTag existing; sourceTag result]]> (arrays (store st))
    end.
Proof.
  cbv zeta. intros Hseen.
  split.
  { rewrite run_key in Hseen.
    destruct (run_seen_unique st0 pre) as [Hs _]. rewrite Hs in Hseen.
    apply firstWithKey_Some in Hseen as (Ek & l1 & l2 & E & Hn).
    exists l1, l2. auto. }
  unfold step. rewrite Hseen. cbn [unique seen store].
  split; [reflexivity|]. split; [reflexivity|].
  split; [intros x Hx; now apply mergeDuplicate_other|].
  apply mergeDuplicate_spec.
Qed.

(** *** Deduplicator: the whole run *)

Lemma mergedMetadata_snoc st g r :
  mergedMetadata st (g ++ [r]) = spread (metadata (objects st r)) ∪ mergedMetadata st g.
Proof. unfold mergedMetadata. now rewrite fold_left_app. Qed.





Lemma groupOf_same_key key x y l : key x = key y -> groupOf key x l = groupOf key y l.
Proof. intros E. unfold groupOf. now rewrite E. Qed.






(** A later member of a group overrides the earlier ones, key by key. *)
Lemma mergedMetadata_lookup st g y k :
  mergedMetadata st (g ++ [y]) !! k
  = match spread (metadata (objects st y)) !! k with
    | Some v => Some v
    | None => mergedMetadata st g !! k
    end.
Proof.
  rewrite mergedMetadata_snoc, lookup_union.
  destruct (spread (metadata (objects st y)) !! k), (mergedMetadata st g !! k); reflexivity.
Qed.


End DeduplicatorFacts.

(** *** Deduplicator: URL normalization *)

Section NormalFormFacts.
Import Deduplicator.

Lemma lowerChar_idem c : JS.lowerChar (JS.lowerChar c) = JS.lowerChar c.
Proof. destruct c as [[] [] [] [] [] [] [] []]; vm_compute; reflexivity. Qed.

Lemma toLowerCase_idem s : JS.toLowerCase (JS.toLowerCase s) = JS.toLowerCase s.
Proof. induction s as [|c r IH]; simpl; [reflexivity|]. now rewrite lowerChar_idem, IH. Qed.

Lemma toLowerCase_sliceFrom n s :
  JS.toLowerCase (JS.sliceFrom n s) = JS.sliceFrom n (JS.toLowerCase s).
Proof.
  revert s. induction n as [|n IH]; intros s; [reflexivity|].
  destruct s as [|c r]; simpl; [reflexivity | apply IH].
Qed.

Lemma normalizedHost_lower parsed :
  JS.toLowerCase (normalizedHost parsed) = normalizedHost parsed.
Proof.
  unfold normalizedHost. cbv zeta. destruct (JS.startsWith _ _).
  - now rewrite toLowerCase_sliceFrom, toLowerCase_idem.
  - apply toLowerCase_idem.
Qed.

Section SortId.
Context {A : Type} (after : A -> A -> bool).
Lemma sortBy_sorted_id l :
  StronglySorted (fun a b => after a b = false) l -> JS.sortBy after l = l.
Proof.
  induction 1 as [|x r Hr IH Hx]; simpl; [reflexivity|].
  rewrite IH. destruct r as [|y r']; [reflexivity|]. simpl.
  apply Forall_cons in Hx as [-> _]. reflexivity.
Qed.
End SortId.

Lemma ltb_false_le a b : String.ltb b a = false <-> String.leb a b = true.
Proof.
  unfold String.ltb, String.leb. rewrite (String.compare_antisym a b).
  destruct (String.compare b a); simpl; split; congruence.
Qed.

Lemma leb_trans a b c : String.leb a b = true -> String.leb b c = true -> String.leb a c = true.
Proof.
  intros H1 H2.
  assert (String.le a b) as L1 by (unfold String.le; now rewrite H1).
  assert (String.le b c) as L2 by (unfold String.le; now rewrite H2).
  pose proof (transitivity L1 L2) as L. unfold String.le in L.
  now destruct (String.leb a c).
Qed.

Lemma sort_sorted params :
  StronglySorted (fun a b => String.ltb (fst b) (fst a) = false) (URLSearchParams.sort params).
Proof.
  unfold URLSearchParams.sort. apply sortBy_sorted.
  - intros a b c Hab Hbc. apply ltb_false_le in Hab, Hbc. apply ltb_false_le.
    eapply leb_trans; eauto.
  - intros a b H. unfold String.ltb in *.
    rewrite (String.compare_antisym (fst a) (fst b)).
    destruct (String.compare (fst b) (fst a)); simpl in *; congruence.
  - auto.
Qed.

Lemma sort_idem params :
  URLSearchParams.sort (URLSearchParams.sort params) = URLSearchParams.sort params.
Proof. apply sortBy_sorted_id, sort_sorted. Qed.

Lemma deleteAll_filter names params :
  fold_left (fun ps param => URLSearchParams.delete param ps) names params
  = filter (fun p => fst p ∉ names) params.
Proof.
  revert params. induction names as [|n ns IH]; intros params; simpl.
  - induction params as [|p r IHr]; [reflexivity|].
    rewrite filter_cons, decide_True by apply not_elem_of_nil. now rewrite <- IHr.
  - rewrite IH. unfold URLSearchParams.delete. rewrite list_filter_filter.
    apply list_filter_iff. intros p. rewrite not_elem_of_cons, negb_true_iff.
    split.
    + intros [H1 H2]. split; [|exact H1]. intros E. rewrite E, String.eqb_refl in H2. discriminate.
    + intros [H1 H2]. split; [exact H2|]. now apply String.eqb_neq.
Qed.

Lemma filter_all {A} (P : A -> Prop) `{forall x, Decision (P x)} (l : list A) :
  Forall P l -> filter P l = l.
Proof.
  induction 1 as [|x r Hx Hr IH]; [reflexivity|].
  rewrite filter_cons, decide_True by exact Hx. now rewrite IH.
Qed.

Lemma stripTracking_sorted_strip params :
  stripTracking (URLSearchParams.sort (stripTracking params))
  = URLSearchParams.sort (stripTracking params).
Proof.
  unfold stripTracking. rewrite !deleteAll_filter.
  apply filter_all. unfold URLSearchParams.sort. rewrite sortBy_perm.
  apply Forall_forall. intros p Hp. now apply list_elem_of_filter in Hp as [Hp _].
Qed.


End NormalFormFacts.

Section NormalizeUrlFacts.
Import Deduplicator.
Variable parseURL : URLParser.

(** C5, amended: a second normalization changes nothing on an unparseable
    string that is still unparseable in lower case (the fallback), and on a
    URL whose normal form the parser reads back into its components, whose
    host has no second leading [www.] and whose path has no second trailing
    slash. *)
Theorem normalizeUrl_idempotent_when_stable (u : string) :
  normalFormStable parseURL u ->
  normalizeUrl parseURL (normalizeUrl parseURL u) = normalizeUrl parseURL u.
Proof.
  unfold normalFormStable, normalizeUrl.
  destruct (parseURL u) as [parsed|] eqn:Eu.
  - intros ((parsed' & Eparse & Eproto & Ehost & Epath & Eparams) & Hwww & Hslash).
    rewrite Eparse. unfold normalizeParsed. cbv zeta.
    assert (normalizedParams (clearHash parsed') = normalizedParams (clearHash parsed)) as ->.
    { unfold normalizedParams. cbn [clearHash searchParams]. rewrite Eparams.
      unfold normalizedParams. now rewrite stripTracking_sorted_strip, sort_idem. }
    assert (normalizedHost (clearHash parsed') = normalizedHost (clearHash parsed)) as ->.
    { unfold normalizedHost at 1. cbn [clearHash hostname]. rewrite Ehost.
      rewrite normalizedHost_lower, Hwww. reflexivity. }
    assert (normalizedPath (clearHash parsed') = normalizedPath (clearHash parsed)) as ->.
    { unfold normalizedPath at 1. cbn [clearHash pathname]. rewrite Epath.
      destruct (JS.endsWith (normalizedPath parsed) "/") eqn:Es.
      - specialize (Hslash eq_refl).
        destruct (Nat.ltb_spec 1 (JS.len (normalizedPath parsed))); [lia|reflexivity].
      - now rewrite andb_false_r. }
    cbn [clearHash protocol]. now rewrite Eproto.
  - intros ->. apply toLowerCase_idem.
Qed.

(** Whatever else the parser does: if it reads the two addresses below as
    the WHATWG standard does, normalizing twice differs from normalizing
    once, because only one leading [www.] is removed at a time. *)
Lemma normalizeUrl_strips_one_www :
  parseURL "https://www.www.example.com/"
    = Some (mkURL "https:" "www.www.example.com" "/" [] "") ->
  parseURL "https://www.example.com/"
    = Some (mkURL "https:" "www.example.com" "/" [] "") ->
  normalizeUrl parseURL "https://www.www.example.com/" = "https://www.example.com/" /\
  normalizeUrl parseURL (normalizeUrl parseURL "https://www.www.example.com/")
    = "https://example.com/".
Proof.
  intros H1 H2.
  assert (normalizeUrl parseURL "https://www.www.example.com/" = "https://www.example.com/")
    as E by (unfold normalizeUrl; rewrite H1; vm_compute; reflexivity).
  split; [exact E|]. rewrite E. unfold normalizeUrl. rewrite H2. vm_compute. reflexivity.
Qed.

End NormalizeUrlFacts.

Section NormalizeUrlExamples.
Import Deduplicator Samples.

(** The example of the specification, and the pair it says normalize alike. *)
Example normalizeUrl_strips_tracking :
  normalizeUrl platformURL
    "https://example.com/page?utm_source=google&utm_medium=cpc&id=123"
  = "https://example.com/page?id=123".
Proof. vm_compute. reflexivity. Qed.

Example normalizeUrl_www_and_slash :
  normalizeUrl platformURL "https://www.example.com/page/"
  = normalizeUrl platformURL "https://example.com/page".
Proof. vm_compute. reflexivity. Qed.

(** C5 as stated fails: "https://www.www.example.com/" normalizes to
    "https://www.example.com/", which normalizes to "https://example.com/";
    likewise "https://example.com/a//" loses one slash at a time. *)
Lemma normalizeUrl_not_idempotent :
  normalizeUrl platformURL "https://www.www.example.com/" = "https://www.example.com/" /\
  normalizeUrl platformURL "https://www.example.com/" = "https://example.com/" /\
  normalizeUrl platformURL (normalizeUrl platformURL "https://www.www.example.com/")
    <> normalizeUrl platformURL "https://www.www.example.com/" /\
  normalizeUrl platformURL (normalizeUrl platformURL "https://example.com/a//")
    <> normalizeUrl platformURL "https://example.com/a//".
Proof.
  destruct (normalizeUrl_strips_one_www platformURL eq_refl eq_refl) as [E1 E2].
  split; [exact E1|]. split; [vm_compute; reflexivity|].
  split.
  - rewrite E2, E1. discriminate.
  - vm_compute. discriminate.
Qed.

Lemma normalizeUrl_idempotent_witness :
  normalizeUrl platformURL
    (normalizeUrl platformURL
       "https://example.com/page?utm_source=google&utm_medium=cpc&id=123")
  = normalizeUrl platformURL
      "https://example.com/page?utm_source=google&utm_medium=cpc&id=123".
Proof.
  apply (normalizeUrl_idempotent_when_stable platformURL).
  unfold normalFormStable.
  change (platformURL "https://example.com/page?utm_source=google&utm_medium=cpc&id=123")
    with (Some (mkURL "https:" "example.com" "/page"
                  [("utm_source", "google"); ("utm_medium", "cpc"); ("id", "123")] "")).
  cbv beta iota. split; [|split].
  - exists (mkURL "https:" "example.com" "/page" [("id", "123")] "").
    repeat split; vm_compute; reflexivity.
  - vm_compute. reflexivity.
  - vm_compute. discriminate.
Defined.

End NormalizeUrlExamples.

(** *** Deduplicator: the sample run *)

Section DeduplicatorExamples.
Import Deduplicator Samples.


End DeduplicatorExamples.

(** *** The fetcher *)

Section FetcherFacts.
Import Fetcher.
Variable self : Fetcher.
Variable providers : list Provider.
Variable query optionsKey : string.
Local Abbreviation step := (Fetcher.step self providers query optionsKey).
Local Abbreviation weight := (Fetcher.weight self).
Local Abbreviation phaseWeight := (Fetcher.phaseWeight self).

Lemma sum_list_insert (f : Phase -> nat) l i x y :
  l !! i = Some x ->
  sum_list (f <$> <[i := y]> l) + f x = sum_list (f <$> l) + f y.
Proof.
  revert i. induction l as [|h t IH]; intros i H; [discriminate|].
  destruct i as [|i].
  - injection H as ->. change (<[0:=y]> (x :: t)) with (y :: t).
    rewrite !fmap_cons. cbn [sum_list sum_list_with]. unfold id. lia.
  - specialize (IH i H). change (<[S i:=y]> (h :: t)) with (h :: <[i:=y]> t).
    rewrite !fmap_cons. cbn [sum_list sum_list_with]. unfold id in *. lia.
Qed.

Lemma weight_setPhase s i ph ph' :
  phases s !! i = Some ph -> phaseWeight ph' < phaseWeight ph ->
  weight (setPhase s i ph') < weight s.
Proof.
  intros H Hw. unfold Fetcher.weight, setPhase. cbn [phases].
  pose proof (sum_list_insert phaseWeight (phases s) i ph ph' H). lia.
Qed.

Lemma step_weight s s' : step s s' -> weight s' < weight s.
Proof.
  destruct 1 as [s i H _ _ | s i p cached H _ _ | s i H | s i p n rs H _ _
                 | s i p n e H _ _ _ Hn | s i p n e H _ _ _ | s i p rs H _ | s i p rs H _].
  - apply (weight_setPhase s i _ _ H). destruct (cacheInUse self); simpl; lia.
  - apply (weight_setPhase s i _ Settled H). simpl; lia.
  - apply (weight_setPhase s i _ _ H). simpl; lia.
  - destruct (cacheInUse self && (0 <? length rs)).
    + apply (weight_setPhase s i _ _ H). simpl; lia.
    + apply (weight_setPhase s i _ Settled H). simpl; lia.
  - apply (weight_setPhase s i _ _ H). simpl; lia.
  - apply (weight_setPhase s i _ Settled H). simpl; lia.
  - apply (weight_setPhase (writeCache s (keyOfProvider query optionsKey p) rs) i _ Settled H). simpl; lia.
  - apply (weight_setPhase s i _ Settled H). simpl; lia.
Qed.

Lemma step_length s s' : step s s' -> length (phases s') = length (phases s).
Proof.
  destruct 1; try destruct (cacheInUse self && _); simpl; apply length_insert.
Qed.

Lemma progress s :
  length (phases s) = length providers ->
  1 <= concurrency self ->
  ~ final s -> exists s', step s s'.
Proof.
  intros Hlen Hc Hnf.
  destruct (list_find (fun ph => running ph = true) (phases s)) as [[i ph]|] eqn:Erun.
  - apply list_find_Some in Erun as (Hi & Hph & _).
    assert (is_Some (providers !! i)) as [p Hp].
    { apply lookup_lt_is_Some. rewrite <- Hlen. now apply lookup_lt_Some in Hi. }
    destruct ph as [| |n|rs|]; try discriminate.
    + eexists. now apply (step_cache_miss _ _ _ _ s i).
    + destruct (search p n) as [rs|e] eqn:Es.
      * eexists. now apply (step_search_returns _ _ _ _ s i p n rs).
      * destruct (retryable e) eqn:Er; [destruct (decide (n <= retries self))|].
        -- eexists. now apply (step_search_retry _ _ _ _ s i p n e).
        -- eexists. apply (step_search_gives_up _ _ _ _ s i p n e); auto. right. lia.
        -- eexists. apply (step_search_gives_up _ _ _ _ s i p n e); auto.
    + eexists. now apply (step_cache_write_lost _ _ _ _ s i p rs).
  - apply list_find_None in Erun.
    destruct (list_find (fun ph => queued ph = true) (phases s)) as [[i ph]|] eqn:Eq.
    + apply list_find_Some in Eq as (Hi & Hq & Hmin).
      destruct ph; try discriminate.
      eexists. apply (step_start _ _ _ _ s i); [exact Hi | |].
      * intros j Hj Hq'. now apply (Hmin j Queued Hq' Hj).
      * replace (filter _ (phases s)) with (@nil Phase); [simpl; lia|].
        symmetry. destruct (filter _ (phases s)) as [|ph t] eqn:Ef; [reflexivity|].
        assert (ph ∈ filter (fun ph => running ph = true) (phases s)) as Hin
          by (rewrite Ef; apply elem_of_cons; now left).
        apply list_elem_of_filter in Hin as [Hr Hin]. exfalso.
        rewrite Forall_forall in Erun. now apply (Erun ph Hin).
    + apply list_find_None in Eq. exfalso. apply Hnf.
      unfold final. rewrite Forall_forall in *. intros ph Hph.
      specialize (Erun ph Hph). specialize (Eq ph Hph).
      destruct ph; simpl in *; congruence.
Qed.

Lemma final_dec s : Decision (final s).
Proof. unfold final. apply Forall_dec. intros ph. destruct ph; (now left) || (right; discriminate). Defined.

Lemma completes s :
  length (phases s) = length providers ->
  1 <= concurrency self ->
  exists s', rtc step s s' /\ final s'.
Proof.
  intros Hlen Hc.
  remember (weight s) as w eqn:Hw. revert s Hlen Hw.
  induction w as [w IH] using lt_wf_ind. intros s Hlen ->.
  destruct (final_dec s) as [Hf | Hnf].
  - exists s. split; [apply rtc_refl | exact Hf].
  - destruct (progress s Hlen Hc Hnf) as [s1 Hstep].
    destruct (IH (weight s1) (step_weight _ _ Hstep) s1) as (s' & Hrtc & Hf).
    + rewrite (step_length _ _ Hstep). exact Hlen.
    + reflexivity.
    + exists s'. split; [eapply rtc_l; eauto | exact Hf].
Qed.

Lemma getCacheKey_inj n1 n2 q o : getCacheKey n1 q o = getCacheKey n2 q o -> n1 = n2.
Proof. destruct n1, n2; try reflexivity; unfold getCacheKey; simpl; discriminate. Qed.

End FetcherFacts.

Section Scenario.
Import Fetcher.
Variable self : Fetcher.
Variable query optionsKey : string.
Variables bad good : Provider.
Variable rs : list SearchResult.
Variable providers : list Provider.
Variables ib ig : nat.
Hypothesis Hib : providers !! ib = Some bad.
Hypothesis Hig : providers !! ig = Some good.
Hypothesis Hlen : length providers = 2.
Hypothesis Hneq : ib <> ig.
Hypothesis Hnames : cacheInUse self = true -> name bad <> name good.
Hypothesis Hbad : forall n, exists e, search bad n = Throws e.
Hypothesis Hgood : search good 1 = Returns rs.
Hypothesis Hrs : rs <> [].

Local Abbreviation step := (Fetcher.step self providers query optionsKey).
Local Abbreviation kb := (keyOfProvider query optionsKey bad).
Local Abbreviation kg := (keyOfProvider query optionsKey good).

Local Abbreviation Inv := (isolated self query optionsKey bad good rs ib ig).

Lemma keys_differ : cacheInUse self = true -> kb <> kg.
Proof using Hnames. intros Hc E. apply (Hnames Hc). now apply getCacheKey_inj in E. Qed.

Lemma index_cases i ph s :
  length (phases s) = 2 -> phases s !! i = Some ph -> i = ib \/ i = ig.
Proof using Hib Hig Hlen Hneq.
  intros Hl Hi. apply lookup_lt_Some in Hi.
  apply lookup_lt_Some in Hib, Hig. lia.
Qed.

Lemma Inv_bad s s' ph' phg :
  phases s' = <[ib := ph']> (phases s) ->
  phases s !! ig = Some phg ->
  ib < length (phases s) ->
  length (phases s) = 2 ->
  isolationInvariant self kb kg bad good rs ph' phg s' ->
  Inv s'.
Proof using Hneq.
  intros E Hg Lb Hl HI. exists ph', phg. rewrite E.
  rewrite list_lookup_insert_eq by exact Lb.
  rewrite list_lookup_insert_ne by exact Hneq.
  rewrite length_insert. auto.
Qed.

Lemma Inv_good s s' phb ph' :
  phases s' = <[ig := ph']> (phases s) ->
  phases s !! ib = Some phb ->
  ig < length (phases s) ->
  length (phases s) = 2 ->
  isolationInvariant self kb kg bad good rs phb ph' s' ->
  Inv s'.
Proof using Hneq.
  intros E Hb Lg Hl HI. exists phb, ph'. rewrite E.
  rewrite list_lookup_insert_eq by exact Lg.
  rewrite list_lookup_insert_ne by (intros E'; now apply Hneq).
  rewrite length_insert. auto.
Qed.

Ltac preserved :=
  unfold isolationInvariant;
  cbn [setPhase succeed fail writeCache cache results errors successfulProviders settled
       phases notWritten];
  repeat match goal with E : cacheInUse _ = _ |- _ => rewrite E; clear E end;
  repeat split;
  try solve
    [ auto
    | discriminate
    | intros [? | ?]; auto; discriminate
    | intros ? [= <-]; reflexivity
    | intros; discriminate
    | intros [? | ?]; first [discriminate | match goal with P : _ \/ _ -> _ |- _ => apply P; auto end]
    | match goal with H : results _ = _ |- _ => now rewrite H end
    | match goal with H : successfulProviders _ = _ |- _ => now rewrite H end ].

Lemma step_Inv s s' : step s s' -> Inv s -> Inv s'.
Proof using All.
  intros Hstep (phb & phg & Hb & Hg & Hl & HI).
  pose proof keys_differ as Hk.
  assert (ib < length (phases s)) as Lb by (now apply lookup_lt_Some in Hb).
  assert (ig < length (phases s)) as Lg by (now apply lookup_lt_Some in Hg).
  destruct HI as (P0 & P1 & P2 & P3 & P4 & P5 & P6 & P7 & P8).
  destruct Hstep as [s i H _ _ | s i p cached H Hp Hc | s i H | s i p n rs' H Hp Hs
                 | s i p n e H Hp Hs _ Hn | s i p n e H Hp Hs _ | s i p rs' H Hp | s i p rs' H Hp];
    destruct (index_cases i _ s Hl H) as [-> | ->];
    rewrite ?Hb, ?Hg in H; injection H as ->; rewrite ?Hib, ?Hig in *;
    try (injection Hp as <-).
  - (* the failing task starts *)
    eapply Inv_bad; [reflexivity | exact Hg | exact Lb | exact Hl |].
    destruct (cacheInUse self) eqn:Ec; preserved.
  - (* the succeeding task starts *)
    eapply Inv_good; [reflexivity | exact Hb | exact Lg | exact Hl |].
    destruct (cacheInUse self) eqn:Ec; preserved.
  - (* a cache hit for the failing provider: the cache holds nothing for it *)
    rewrite P1 in Hc by (apply P0; now left). discriminate.
  - (* a cache hit for the succeeding provider: nothing was written yet *)
    rewrite P2 in Hc by (try reflexivity; apply P0; now right). discriminate.
  - eapply Inv_bad; [reflexivity | exact Hg | exact Lb | exact Hl |]. preserved.
  - eapply Inv_good; [reflexivity | exact Hb | exact Lg | exact Hl |]. preserved.
  - (* the failing provider never returns *)
    destruct (Hbad n) as [e He]. congruence.
  - (* the succeeding provider returns on its first attempt *)
    rewrite (P4 n eq_refl), Hgood in Hs. injection Hs as <-.
    destruct (cacheInUse self && (0 <? length rs)) eqn:Ec;
      (eapply Inv_good; [reflexivity | exact Hb | exact Lg | exact Hl |]); preserved.
  - eapply Inv_bad; [reflexivity | exact Hg | exact Lb | exact Hl |]. preserved.
  - rewrite (P4 n eq_refl), Hgood in Hs. discriminate.
  - (* the failing task gives up: its error is recorded *)
    eapply Inv_bad; [reflexivity | exact Hg | exact Lb | exact Hl |]. preserved.
    simpl in P8. rewrite P8. eexists. split; reflexivity.
  - rewrite (P4 n eq_refl), Hgood in Hs. discriminate.
  - now destruct (P3 rs').
  - (* the succeeding task has written the cache *)
    rewrite (P5 rs' eq_refl) in *.
    eapply Inv_good; [reflexivity | exact Hb | exact Lg | exact Hl |]. preserved.
    intros Hc. rewrite lookup_insert_ne by (intros E; now apply (Hk Hc)). now apply P1.
  - now destruct (P3 rs').
  - rewrite (P5 rs' eq_refl) in *.
    eapply Inv_good; [reflexivity | exact Hb | exact Lg | exact Hl |]. preserved.
Qed.

Lemma rtc_Inv s s' : rtc step s s' -> Inv s -> Inv s'.
Proof using All. induction 1; eauto using step_Inv. Qed.

Lemma Inv_initial cache0 :
  (cacheInUse self = true -> cache0 !! kb = None /\ cache0 !! kg = None) ->
  Inv (initial providers cache0).
Proof using Hib Hig Hlen Hneq.
  intros Hcold. exists Queued, Queued. unfold initial. cbn [phases].
  rewrite Hlen. apply lookup_lt_Some in Hib as Lb. apply lookup_lt_Some in Hig as Lg.
  rewrite Hlen in Lb, Lg.
  split; [now apply lookup_replicate_2|]. split; [now apply lookup_replicate_2|].
  split; [reflexivity|].
  unfold isolationInvariant. cbn. repeat split; try discriminate.
  - intros [? | ?]; discriminate.
  - intros Hc. now apply Hcold.
  - intros Hc _. now apply Hcold.
Qed.

Lemma Inv_final s :
  Inv s -> final s ->
  results s = rs /\
  (exists err, errors s = [err] /\ provider err = name bad) /\
  successfulProviders s = [name good].
Proof.
  intros (phb & phg & Hb & Hg & Hl & HI) Hf.
  unfold final in Hf. rewrite Forall_forall in Hf.
  assert (phb = Settled) as -> by (apply Hf; eapply list_elem_of_lookup_2; eauto).
  assert (phg = Settled) as -> by (apply Hf; eapply list_elem_of_lookup_2; eauto).
  destruct HI as (_ & _ & _ & _ & _ & _ & P6 & P7 & P8). simpl in *. auto.
Qed.

End Scenario.

Section Isolation.
Import Fetcher.

(** C4: a fetch from two providers, one whose search throws at every
    attempt and one whose search returns the non-empty list [rs], in either
    order.  The fetcher runs at least one task at a time and, when it uses a
    cache, the two providers have different names and the cache holds no
    entry for them at the start (both searches are called).  Then, however the
    two tasks interleave, every state the fetch reaches can be run to a
    state in which both tasks have settled (nothing aborts the fetch), and
    whenever both have settled [fetchAll] returns [rs] as its non-empty
    results, exactly one error, tagged with the failing provider's name,
    and the succeeding provider's name as its only provider. *)
Theorem fetchAll_isolates_failure (self : Fetcher) (query optionsKey : string)
    (bad good : Provider) (rs : list SearchResult) (providers : list Provider)
    (cache0 : gmap string (list SearchResult)) :
  providers = [bad; good] \/ providers = [good; bad] ->
  (forall n, exists e, search bad n = Throws e) ->
  search good 1 = Returns rs ->
  rs <> [] ->
  1 <= concurrency self ->
  (cacheInUse self = true ->
   name bad <> name good /\
   cache0 !! keyOfProvider query optionsKey bad = None /\
   cache0 !! keyOfProvider query optionsKey good = None) ->
  forall s,
    rtc (step self providers query optionsKey) (initial providers cache0) s ->
    (exists s', rtc (step self providers query optionsKey) s s' /\ final s') /\
    (final s ->
     fr_results (fetchResult s) <> [] /\
     exists err,
       provider err = name bad /\
       fetchResult s =
         {| fr_results := rs; fr_errors := [err]; fr_providers := [name good] |}).
Proof.
  intros Hp Hbad Hgood Hrs Hc Hcold s Hrun.
  assert (exists ib ig, providers !! ib = Some bad /\ providers !! ig = Some good /\
                        length providers = 2 /\ ib <> ig)
    as (ib & ig & Hib & Hig & Hlen & Hneq).
  { destruct Hp as [-> | ->]; [exists 0, 1 | exists 1, 0]; repeat split; auto. }
  assert (isolated self query optionsKey bad good rs ib ig s) as HI.
  { eapply rtc_Inv; eauto; [intros Hu; now apply Hcold|].
    eapply Inv_initial; eauto. intros Hu. now apply Hcold. }
  split.
  - apply completes; [|exact Hc].
    destruct HI as (phb & phg & _ & _ & Hl & _). congruence.
  - intros Hf.
    destruct (Inv_final self query optionsKey bad good rs ib ig s HI Hf)
      as (R & (err & E & P) & S).
    unfold fetchResult. cbn [fr_results]. rewrite R, E, S.
    split; [exact Hrs|]. exists err. split; [exact P | reflexivity].
Qed.

(** The theorem at the sample providers, with a cold cache in use. *)
Lemma fetchAll_isolates_failure_witness :
  let providers := [Samples.failingProvider; Samples.workingProvider] in
  exists s,
    rtc (step Samples.cachingFetcher providers "typescript" "{}")
        (initial providers ∅) s /\
    final s /\
    fr_results (fetchResult s) <> [] /\
    exists err,
      provider err = brave /\
      fetchResult s =
        {| fr_results := [Samples.otherPage]; fr_errors := [err];
           fr_providers := [duckduckgo] |}.
Proof.
  cbv zeta.
  pose proof (fetchAll_isolates_failure Samples.cachingFetcher "typescript" "{}"
                Samples.failingProvider Samples.workingProvider [Samples.otherPage]
                [Samples.failingProvider; Samples.workingProvider] ∅
                (or_introl eq_refl)) as H.
  assert (forall n, exists e, search Samples.failingProvider n = Throws e) as H2
    by (intros n; eexists; reflexivity).
  assert ([Samples.otherPage] <> []) as H3 by discriminate.
  assert (1 <= concurrency Samples.cachingFetcher) as H4 by (vm_compute; lia).
  assert (name Samples.failingProvider <> name Samples.workingProvider) as H1
    by discriminate.
  specialize (H H2 eq_refl H3 H4
                (fun _ => conj H1 (conj (lookup_empty _) (lookup_empty _)))).
  destruct (H _ (rtc_refl _ _)) as [(s & Hrun & Hf) _].
  exists s. split; [exact Hrun|]. split; [exact Hf|].
  destruct (H s Hrun) as [_ Hres]. exact (Hres Hf).
Defined.

End Isolation.

(** *** Deduplicator: the merge on the sample run *)

Section MergeExamples.
Import Deduplicator Samples.


End MergeExamples.

(** ** Further properties *)

(** *** Deduplicator: repeated runs *)

Section FirstOccurrencesMore.
Import Deduplicator.

Lemma firstOccurrences_app (key : loc -> string) acc l1 l2 :
  firstOccurrences key acc (l1 ++ l2)
  = firstOccurrences key acc l1 ++ firstOccurrences key (acc ++ (key <$> l1)) l2.
Proof.
  induction l2 as [|r l2 IH] using rev_ind.
  - now rewrite !app_nil_r.
  - rewrite app_assoc, !firstOccurrences_snoc, IH, fmap_app, <- !app_assoc.
    reflexivity.
Qed.

Lemma firstOccurrences_NoDup (key : loc -> string) acc l :
  NoDup (key <$> l) -> (forall x, x ∈ l -> key x ∉ acc) ->
  firstOccurrences key acc l = l.
Proof.
  induction l as [|r l IH] using rev_ind; intros HN Hacc; [reflexivity|].
  rewrite fmap_app in HN. apply NoDup_app in HN as (HN1 & Hd & _).
  rewrite firstOccurrences_snoc, IH; [|exact HN1|].
  - rewrite decide_False; [reflexivity|].
    rewrite elem_of_app. intros [H | H].
    + apply (Hacc r); [|exact H]. rewrite elem_of_app, list_elem_of_singleton. now right.
    + apply (Hd _ H). simpl. rewrite list_elem_of_singleton. reflexivity.
  - intros x Hx. apply Hacc. rewrite elem_of_app. now left.
Qed.

Lemma firstOccurrences_ext (key key' : loc -> string) acc l :
  (forall x, key x = key' x) ->
  firstOccurrences key acc l = firstOccurrences key' acc l.
Proof.
  intros E. revert acc. induction l as [|r l IH]; intros acc; [reflexivity|].
  simpl. rewrite <- E. destruct (decide (key r ∈ acc)); [apply IH|]. now rewrite IH.
Qed.

End FirstOccurrencesMore.

Section DeduplicatorRuns.
Import Deduplicator.
Variable parseURL : URLParser.
Variable config : DeduplicationConfig.
Local Abbreviation keyOf st := (keyIn parseURL config st).

Lemma keyOf_run st0 pre x :
  keyOf (store (run parseURL config st0 pre)) x = keyOf st0 x.
Proof. unfold keyIn. apply run_key. Qed.

(** A run over results of distinct keys pushes them all and merges nothing. *)
Lemma run_distinct_keys st0 l :
  NoDup (keyOf st0 <$> l) ->
  store (run parseURL config st0 l) = st0 /\ unique (run parseURL config st0 l) = l.
Proof.
  induction l as [|r l IH] using rev_ind; intros HN; [split; reflexivity|].
  rewrite fmap_app in HN. apply NoDup_app in HN as (HN1 & Hd & _).
  destruct (IH HN1) as [Es Eu].
  rewrite run_snoc. unfold step. cbv zeta.
  destruct (run_seen_unique parseURL config st0 l) as [Hseen _].
  rewrite Es, Hseen.
  assert (firstWithKey (keyOf st0) (generateKey parseURL config (objects st0 r)) l = None) as ->.
  { apply firstWithKey_None. intros H. apply (Hd _ H). simpl.
    rewrite list_elem_of_singleton. reflexivity. }
  simpl. rewrite Eu. split; reflexivity.
Qed.

(** Only survivors are written to. *)
Lemma run_writes_survivors st0 pre x :
  x ∉ unique (run parseURL config st0 pre) ->
  objects (store (run parseURL config st0 pre)) x = objects st0 x.
Proof.
  induction pre as [|r pre IH] using rev_ind; intros Hx; [reflexivity|].
  destruct (run_seen_unique parseURL config st0 pre) as [Hseen Hu].
  rewrite run_snoc in *. unfold step in *. cbv zeta in *.
  rewrite Hseen in *.
  change (generateKey parseURL config (objects (store (run parseURL config st0 pre)) r))
    with (keyOf (store (run parseURL config st0 pre)) r) in *.
  rewrite keyOf_run in *.
  destruct (firstWithKey (keyOf st0) (keyOf st0 r) pre) as [e|] eqn:E; simpl in *.
  - rewrite mergeDuplicate_other; [now apply IH|].
    intros ->. apply Hx. rewrite Hu.
    apply firstWithKey_Some in E as (Ek & l1 & l2 & -> & Hl1).
    rewrite firstOccurrences_app. rewrite elem_of_app. right. simpl.
    rewrite decide_False by (rewrite Ek; exact Hl1). left.
  - apply IH. intros H. apply Hx. rewrite elem_of_app. now left.
Qed.

(** X1: deduplicating the output of [deduplicate] again, in the store the
    first call left, returns the same array and writes nothing: the keys of
    the survivors are distinct and the merged metadata is no part of a
    key. *)
Theorem deduplicate_idempotent (st : Store) (results : list loc) :
  let st1 := fst (deduplicate parseURL config st results) in
  let out := snd (deduplicate parseURL config st results) in
  deduplicate parseURL config st1 out = (st1, out).
Proof.
  cbv zeta. unfold deduplicate. cbn [fst snd].
  destruct (run_seen_unique parseURL config st results) as [_ Hu].
  set (st1 := store (run parseURL config st results)).
  assert (NoDup (keyOf st1 <$> unique (run parseURL config st results))) as HN.
  { rewrite Hu.
    erewrite (list_fmap_ext (keyOf st1) (keyOf st));
      [apply firstOccurrences_NoDup_keys|].
    intros _ x _. apply keyOf_run. }
  destruct (run_distinct_keys st1 _ HN) as [-> ->]. reflexivity.
Qed.

(** X2: the accumulation of the interactive session.  When the survivors of
    one call are passed again, followed by new results, the earlier
    survivors come back first and in order; what follows are the first
    occurrences, among the new results, of the keys no earlier survivor
    has: each added result stands in the new results before any other
    result of its key, and every new result whose key is new has its first
    occurrence added. *)
Theorem deduplicate_accumulates (st : Store) (round1 round2 : list loc) :
  let st1 := fst (deduplicate parseURL config st round1) in
  let all1 := snd (deduplicate parseURL config st round1) in
  let all2 := snd (deduplicate parseURL config st1 (all1 ++ round2)) in
  exists added,
    all2 = all1 ++ added /\
    added = firstOccurrences (keyOf st) (keyOf st <$> all1) round2 /\
    sublist added round2 /\
    length all1 <= length all2 /\
    NoDup (keyOf st <$> all2) /\
    (forall x, x ∈ added -> keyOf st x ∉ (keyOf st <$> all1)) /\
    (forall y, y ∈ added ->
       exists l1 l2, round2 = l1 ++ y :: l2 /\ keyOf st y ∉ (keyOf st <$> l1)) /\
    (forall x, x ∈ round2 -> keyOf st x ∉ (keyOf st <$> all1) ->
       exists y, y ∈ added /\ keyOf st y = keyOf st x) /\
    (forall x, x ∈ round2 -> exists y, y ∈ all2 /\ keyOf st y = keyOf st x).
Proof.
  cbv zeta. unfold deduplicate. cbn [fst snd].
  destruct (run_seen_unique parseURL config st round1) as [_ Hu1].
  set (st1 := store (run parseURL config st round1)).
  set (all1 := unique (run parseURL config st round1)) in *.
  destruct (run_seen_unique parseURL config st1 (all1 ++ round2)) as [_ ->].
  assert (forall x, keyOf st1 x = keyOf st x) as Ek by (intros x; apply keyOf_run).
  rewrite (firstOccurrences_ext _ _ _ _ Ek), firstOccurrences_app.
  assert (NoDup (keyOf st <$> all1)) as HN
    by (rewrite Hu1; apply firstOccurrences_NoDup_keys).
  rewrite (firstOccurrences_NoDup (keyOf st) [] all1 HN)
    by (intros x _; apply not_elem_of_nil).
  exists (firstOccurrences (keyOf st) ([] ++ (keyOf st <$> all1)) round2).
  split; [reflexivity|]. split; [reflexivity|].
  split; [apply firstOccurrences_sublist|].
  split; [rewrite length_app; lia|].
  split.
  { rewrite <- (firstOccurrences_NoDup (keyOf st) [] all1 HN) at 1
      by (intros x _; apply not_elem_of_nil).
    rewrite <- firstOccurrences_app. apply firstOccurrences_NoDup_keys. }
  split.
  { intros x Hx. apply firstOccurrences_fresh in Hx. exact Hx. }
  split.
  { intros y Hy. apply firstOccurrences_first in Hy as (l1 & l2 & E & Hn).
    exists l1, l2. split; [exact E|]. intros H. apply Hn.
    rewrite elem_of_app. now right. }
  split.
  { intros x Hx Hout.
    apply (firstOccurrences_covers (keyOf st) ([] ++ (keyOf st <$> all1)) round2 x Hx Hout). }
  intros x Hx.
  destruct (decide (keyOf st x ∈ (keyOf st <$> all1))) as [Hin | Hout].
  - apply list_elem_of_fmap in Hin as (y & Ey & Hy).
    exists y. split; [rewrite elem_of_app; now left | now symmetry].
  - destruct (firstOccurrences_covers (keyOf st) ([] ++ (keyOf st <$> all1)) round2 x Hx Hout)
      as (y & Hy & Ey).
    exists y. split; [rewrite elem_of_app; now right | exact Ey].
Qed.

(** What the merge of a duplicate does to the arrays: it pushes the
    provider of the duplicate to the array under [sources], which is the
    duplicate's or the survivor's, or to a new array. *)
Lemma step_arrays_cases (st0 : Store) (pre : list loc) (r e : loc) :
  let st := run parseURL config st0 pre in
  let st' := step parseURL config st r in
  seen st !! generateKey parseURL config (objects (store st) r) = Some e ->
  e ∈ pre /\
  (forall x, x <> e -> objects (store st') x = objects (store st) x) /\
  ((exists a,
      ((sourcesArray (objects (store st) r) = Some a) \/
       (sourcesArray (objects (store st) e) = Some a)) /\
      sourcesArray (objects (store st') e) = Some a /\
      arrays (store st')
      = alter (fun xs => xs ++ [sourceTag (objects (store st) r)]) a (arrays (store st))) \/
   (sourcesArray (objects (store st') e) = None /\
    arrays (store st') = arrays (store st)) \/
   (exists a,
      (a ∉ dom (arrays (store st))) /\
      sourcesArray (objects (store st') e) = Some a /\
      arrays (store st')
      = <[a := [sourceTag (objects (store st) e); sourceTag (objects (store st) r)]]>
          (arrays (store st)))).
Proof.
  cbv zeta. intros E.
  destruct (step_merges_duplicate parseURL config st0 pre r e E)
    as ((l1 & l2 & Epre & _ & _) & _ & _ & Hother & _ & m & Hm & _ & Hsrc).
  split; [rewrite Epre, elem_of_app, elem_of_cons; tauto|].
  split; [exact Hother|].
  set (cur := store (run parseURL config st0 pre)) in *.
  set (cur' := store (step parseURL config (run parseURL config st0 pre) r)) in *.
  assert (forall v, m !! "sources" = v ->
            sourcesArray (objects cur' e)
            = match v with Some (VArray a) => Some a | _ => None end) as Hsa.
  { intros v <-. unfold sourcesArray. now rewrite Hm. }
  destruct ((spread (metadata (objects cur r)) ∪ spread (metadata (objects cur e)))
              !! "sources") as [v|] eqn:Eu.
  - destruct v as [| |bv|q|s|a|o];
      try (cbn [default] in Hsrc;
           match type of Hsrc with
           | if ?c then _ else _ =>
               destruct c;
               [destruct Hsrc as [H1 H2]; right; left; split;
                  [now rewrite (Hsa _ H1) | exact H2]
               |destruct Hsrc as (a & Ha & H1 & H2); right; right; exists a;
                  split; [exact Ha | split; [now rewrite (Hsa _ H1) | exact H2]]]
           end).
    destruct Hsrc as [H1 H2]. left. exists a. split; [|split].
    + apply lookup_union_Some_raw in Eu as [Eu | [_ Eu]]; [left | right];
        unfold sourcesArray; now rewrite Eu.
    + now rewrite (Hsa _ H1).
    + exact H2.
  - cbn [default truthy] in Hsrc. destruct Hsrc as (a & Ha & H1 & H2).
    right. right. exists a. split; [exact Ha | split; [now rewrite (Hsa _ H1) | exact H2]].
Qed.

Lemma sourceTag_sameIdentity o o' : sameIdentity o o' -> sourceTag o = sourceTag o'.
Proof. intros (_ & _ & _ & E & _). unfold sourceTag. now rewrite E. Qed.

(** The arrays along a run: an array of the first store keeps what it held
    and gains provider tags of the results at most, and it gains any only
    when it is the [sources] array of one of the results. *)
Lemma run_arrays (st0 : Store) (pre : list loc) :
  let cur := store (run parseURL config st0 pre) in
  (forall a xs, arrays st0 !! a = Some xs ->
     exists ys, arrays cur !! a = Some (xs ++ ys) /\
       Forall (fun v => exists r, r ∈ pre /\ v = sourceTag (objects st0 r)) ys) /\
  (forall a, a ∈ dom (arrays st0) -> arrays cur !! a <> arrays st0 !! a ->
     exists r, r ∈ pre /\ sourcesArray (objects st0 r) = Some a) /\
  (forall x a, sourcesArray (objects cur x) = Some a ->
     sourcesArray (objects st0 x) = Some a \/ a ∉ dom (arrays st0) \/
     exists r, r ∈ pre /\ sourcesArray (objects st0 r) = Some a).
Proof.
  induction pre as [|r pre IH] using rev_ind; cbv zeta.
  { split; [|split].
    - intros a xs H. exists []. rewrite app_nil_r. split; [exact H | constructor].
    - intros a _ H. now contradiction H.
    - intros x a H. now left. }
  cbv zeta in IH. destruct IH as (I1 & I2 & I3).
  set (cur := store (run parseURL config st0 pre)) in *.
  assert (forall (P : loc -> Prop), (exists x, x ∈ pre /\ P x) ->
            exists x, x ∈ pre ++ [r] /\ P x) as Hmono.
  { intros P (x & Hx & HP). exists x. split; [rewrite elem_of_app; now left | exact HP]. }
  assert (forall (P : loc -> Prop), P r -> exists x, x ∈ pre ++ [r] /\ P x) as Hlast.
  { intros P HP. exists r. split; [|exact HP].
    rewrite elem_of_app, list_elem_of_singleton. now right. }
  assert (forall ys,
            Forall (fun v => exists x, x ∈ pre /\ v = sourceTag (objects st0 x)) ys ->
            Forall (fun v => exists x, x ∈ pre ++ [r] /\ v = sourceTag (objects st0 x)) ys)
    as HmonoF.
  { intros ys H. eapply Forall_impl; [exact H|]. intros v Hv. now apply Hmono. }
  rewrite run_snoc.
  destruct (seen (run parseURL config st0 pre)
              !! generateKey parseURL config (objects cur r)) as [e|] eqn:E.
  2:{ assert (store (step parseURL config (run parseURL config st0 pre) r) = cur) as ->.
      { unfold step. cbv zeta. fold cur. now rewrite E. }
      split; [|split].
      - intros a xs H. destruct (I1 a xs H) as (ys & H1 & H2).
        exists ys. split; [exact H1 | now apply HmonoF].
      - intros a Ha H. now apply Hmono, I2.
      - intros x a H. destruct (I3 x a H) as [H1 | [H1 | H1]]; [now left | now right; left|].
        right. right. now apply Hmono. }
  destruct (step_arrays_cases st0 pre r e E) as (He & Hother & Hcases).
  fold cur in Hother, Hcases.
  set (cur' := store (step parseURL config (run parseURL config st0 pre) r)) in *.
  assert (forall a, sourcesArray (objects cur r) = Some a \/
                    sourcesArray (objects cur e) = Some a ->
            a ∉ dom (arrays st0) \/
            exists x, x ∈ pre ++ [r] /\ sourcesArray (objects st0 x) = Some a) as Horigin.
  { intros a [H | H].
    - destruct (I3 r a H) as [H1 | [H1 | H1]]; [right | now left | right].
      + now apply Hlast.
      + now apply Hmono.
    - destruct (I3 e a H) as [H1 | [H1 | H1]]; [right | now left | right].
      + apply Hmono. now exists e.
      + now apply Hmono. }
  assert (forall x a, x <> e -> sourcesArray (objects cur' x) = Some a ->
            sourcesArray (objects st0 x) = Some a \/ a ∉ dom (arrays st0) \/
            exists y, y ∈ pre ++ [r] /\ sourcesArray (objects st0 y) = Some a) as Hrest.
  { intros x a Hx H. rewrite Hother in H by exact Hx.
    destruct (I3 x a H) as [H1 | [H1 | H1]]; [now left | now right; left|].
    right. right. now apply Hmono. }
  assert (sourceTag (objects cur r) = sourceTag (objects st0 r)) as Etag
    by (apply sourceTag_sameIdentity, run_sameIdentity).
  destruct Hcases as [(a & Hfrom & Hsa & Harr) | [(Hsa & Harr) | (a & Hfresh & Hsa & Harr)]].
  - split; [|split].
    + intros a0 xs H. destruct (I1 a0 xs H) as (ys & H1 & H2). rewrite Harr.
      destruct (decide (a0 = a)) as [-> | Hne].
      * exists (ys ++ [sourceTag (objects cur r)]). split.
        -- rewrite lookup_alter_eq, H1. cbn. now rewrite app_assoc.
        -- apply Forall_app. split; [now apply HmonoF|]. constructor; [|constructor].
           now apply Hlast.
      * exists ys. split; [now rewrite lookup_alter_ne | now apply HmonoF].
    + intros a0 Ha0 H. rewrite Harr in H.
      destruct (decide (a0 = a)) as [-> | Hne].
      * destruct (Horigin a Hfrom) as [H1 | H1]; [contradiction | exact H1].
      * rewrite lookup_alter_ne in H by congruence. now apply Hmono, I2.
    + intros x a1 H. destruct (decide (x = e)) as [-> | Hx]; [|now apply Hrest].
      rewrite Hsa in H. injection H as <-. right. now apply Horigin.
  - split; [|split].
    + intros a0 xs H. destruct (I1 a0 xs H) as (ys & H1 & H2). rewrite Harr.
      exists ys. split; [exact H1 | now apply HmonoF].
    + intros a0 Ha0 H. rewrite Harr in H. now apply Hmono, I2.
    + intros x a1 H. destruct (decide (x = e)) as [-> | Hx]; [|now apply Hrest].
      rewrite Hsa in H. discriminate.
  - assert (a ∉ dom (arrays st0)) as Hfresh0.
    { intros Hin. apply Hfresh. apply elem_of_dom in Hin as [xs Hxs].
      destruct (I1 a xs Hxs) as (ys & H1 & _). apply elem_of_dom. eauto. }
    split; [|split].
    + intros a0 xs H. destruct (I1 a0 xs H) as (ys & H1 & H2). rewrite Harr.
      exists ys. split; [|now apply HmonoF].
      rewrite lookup_insert_ne; [exact H1|]. intros ->. apply Hfresh0.
      apply elem_of_dom. eauto.
    + intros a0 Ha0 H. rewrite Harr in H.
      rewrite lookup_insert_ne in H by (intros ->; contradiction).
      now apply Hmono, I2.
    + intros x a1 H. destruct (decide (x = e)) as [-> | Hx]; [|now apply Hrest].
      rewrite Hsa in H. injection H as <-. right. now left.
Qed.

(** X3: what [deduplicate] writes.  It assigns to the metadata of
    survivors only: every result object keeps its url, title, snippet,
    source and timestamp, and no field of an object that is not returned is
    assigned.  Arrays are shared by reference, though: an array that was
    there before the call keeps its entries and gains provider tags of the
    results at most, and it gains any only when it is the [sources] array
    of one of the results.  So the [sources] array of a dropped duplicate
    can grow, as it does in the sample run below. *)
Theorem deduplicate_writes_survivors_only (st : Store) (results : list loc) :
  let st' := fst (deduplicate parseURL config st results) in
  let out := snd (deduplicate parseURL config st results) in
  (forall x, sameIdentity (objects st' x) (objects st x)) /\
  (forall x, x ∉ out -> objects st' x = objects st x) /\
  (forall a xs, arrays st !! a = Some xs ->
     exists ys, arrays st' !! a = Some (xs ++ ys) /\
       Forall (fun v => exists r, r ∈ results /\ v = sourceTag (objects st r)) ys) /\
  (forall a, a ∈ dom (arrays st) -> arrays st' !! a <> arrays st !! a ->
     exists r, r ∈ results /\ sourcesArray (objects st r) = Some a).
Proof.
  cbv zeta. unfold deduplicate. cbn [fst snd].
  destruct (run_arrays st results) as (I1 & I2 & _).
  split; [|split; [|split]].
  - intros x. apply run_sameIdentity.
  - intros x. apply run_writes_survivors.
  - exact I1.
  - exact I2.
Qed.

End DeduplicatorRuns.

Section DeduplicatorRunsExamples.
Import Deduplicator Samples.

(** A duplicate that carries a [sources] array of its own: the survivor
    takes the array over by reference and the provider of the duplicate is
    pushed to it.  The duplicate is not returned and none of its fields is
    assigned, but the array it refers to has grown. *)
Example dropped_duplicate_sources_grow :
  let run := deduplicate platformURL dedupConfig taggedStore [1; 2]%positive in
  snd run = [1]%positive /\
  objects (fst run) 2%positive = objects taggedStore 2%positive /\
  sourcesArray (objects taggedStore 2%positive) = Some 7%positive /\
  sourcesArray (objects (fst run) 1%positive) = Some 7%positive /\
  arrays taggedStore !! 7%positive = Some [VStr "cached"] /\
  arrays (fst run) !! 7%positive = Some [VStr "cached"; VStr "duckduckgo"].
Proof. cbv zeta. repeat split; vm_compute; reflexivity. Qed.

End DeduplicatorRunsExamples.

(** *** Deduplicator: similarity *)

Lemma StronglySorted_seq start len : StronglySorted lt (seq start len).
Proof.
  revert start. induction len as [|len IH]; intros start; simpl; constructor; [apply IH|].
  apply Forall_forall. intros x Hx. apply list_elem_of_In, in_seq in Hx. lia.
Qed.

Lemma StronglySorted_list_filter {A} (R : A -> A -> Prop) (p : A -> bool) l :
  StronglySorted R l -> StronglySorted R (List.filter p l).
Proof.
  induction 1 as [|x l Hs IH Hx]; simpl; [constructor|].
  destruct (p x); [|exact IH]. constructor; [exact IH|].
  rewrite Forall_forall in *. intros y Hy.
  apply Hx, list_elem_of_In. apply list_elem_of_In, filter_In in Hy. tauto.
Qed.

Lemma StronglySorted_filter_seq (p : nat -> bool) start len :
  StronglySorted lt (List.filter p (seq start len)).
Proof. apply StronglySorted_list_filter, StronglySorted_seq. Qed.

Section SimilarityFacts.
Import Deduplicator.

Lemma string_eqb_spec (x y : string) : String.eqb x y = true <-> x = y.
Proof. apply String.eqb_eq. Qed.

Lemma has_elem_of set t : has set t = true <-> t ∈ set.
Proof. apply existsb_eqb_elem_of, string_eqb_spec. Qed.

Lemma splitChar_go_nonempty sep s cur : JS.splitChar_go sep s cur <> [].
Proof.
  revert cur. induction s as [|c r IH]; intros cur; simpl; [discriminate|].
  destruct (Ascii.eqb c sep); [discriminate | apply IH].
Qed.

Lemma trigramSet_NoDup text : NoDup (trigramSet text).
Proof. apply uniq_NoDup, string_eqb_spec. Qed.

Lemma trigramSet_nonempty text : 0 < length (trigramSet text).
Proof.
  unfold trigramSet, JS.splitChar.
  destruct (JS.splitChar_go "|" (fingerprint text) "") as [|x l] eqn:E.
  - now apply splitChar_go_nonempty in E.
  - assert (x ∈ JS.uniq String.eqb (x :: l)) as H
      by (apply uniq_elem_of; [apply string_eqb_spec | left]).
    destruct (JS.uniq String.eqb (x :: l)); [now apply elem_of_nil in H | simpl; lia].
Qed.

Lemma filter_has_elem_of (A B : list string) t :
  t ∈ List.filter (has B) A <-> t ∈ A /\ t ∈ B.
Proof. rewrite !list_elem_of_In, filter_In, <- !list_elem_of_In, has_elem_of. reflexivity. Qed.

Lemma filter_has_NoDup (A B : list string) : NoDup A -> NoDup (List.filter (has B) A).
Proof. rewrite !NoDup_ListNoDup. apply List.NoDup_filter. Qed.

Lemma intersection_comm (A B : list string) :
  NoDup A -> NoDup B ->
  length (List.filter (has B) A) = length (List.filter (has A) B).
Proof.
  intros HA HB. apply Permutation_length, NoDup_Permutation.
  - now apply filter_has_NoDup.
  - now apply filter_has_NoDup.
  - intros t. rewrite !filter_has_elem_of. tauto.
Qed.

Lemma union_comm (A B : list string) :
  length (JS.uniq String.eqb (A ++ B)) = length (JS.uniq String.eqb (B ++ A)).
Proof.
  apply Permutation_length, NoDup_Permutation;
    try (apply uniq_NoDup, string_eqb_spec).
  intros t. rewrite !uniq_elem_of by apply string_eqb_spec.
  rewrite !elem_of_app. tauto.
Qed.

Lemma intersection_le_union (A B : list string) :
  NoDup A ->
  length (List.filter (has B) A) <= length (JS.uniq String.eqb (A ++ B)).
Proof.
  intros HA. apply submseteq_length, NoDup_submseteq.
  - now apply filter_has_NoDup.
  - intros t Ht. apply filter_has_elem_of in Ht as [Ht _].
    apply uniq_elem_of; [apply string_eqb_spec|]. rewrite elem_of_app. now left.
Qed.

Lemma union_self (A : list string) :
  NoDup A -> length (JS.uniq String.eqb (A ++ A)) = length A.
Proof.
  intros HA. apply Permutation_length, NoDup_Permutation.
  - apply uniq_NoDup, string_eqb_spec.
  - exact HA.
  - intros t. rewrite uniq_elem_of by apply string_eqb_spec. rewrite elem_of_app. tauto.
Qed.

Lemma intersection_self (A : list string) : List.filter (has A) A = A.
Proof.
  apply forallb_filter_id, forallb_forall. intros t Ht. apply has_elem_of, list_elem_of_In, Ht.
Qed.

Lemma ofNat_ratio_bounds (n m : nat) :
  n <= m -> 0 < m -> (0 <= ofNat n / ofNat m <= 1)%Q.
Proof.
  intros Hnm Hm. unfold ofNat.
  assert (0 < inject_Z (Z.of_nat m))%Q as Hpos
    by (rewrite <- (Zlt_Qlt 0); lia).
  assert (0 <= inject_Z (Z.of_nat n))%Q as Hn
    by (rewrite <- (Zle_Qle 0); lia).
  assert (inject_Z (Z.of_nat n) <= inject_Z (Z.of_nat m))%Q as Hle
    by (rewrite <- Zle_Qle; lia).
  split.
  - apply Qle_shift_div_l; [exact Hpos | lra].
  - apply Qle_shift_div_r; [exact Hpos | lra].
Qed.

(** X4: [computeSimilarity] is a symmetric score between 0 and 1, and it is
    1 for two texts of one fingerprint (a text and itself, for one). *)
Theorem computeSimilarity_spec (a b : string) :
  (0 <= computeSimilarity a b <= 1)%Q /\
  computeSimilarity a b = computeSimilarity b a /\
  (fingerprint a = fingerprint b -> (computeSimilarity a b == 1)%Q).
Proof.
  unfold computeSimilarity.
  pose proof (trigramSet_nonempty a) as Ha. pose proof (trigramSet_nonempty b) as Hb.
  pose proof (trigramSet_NoDup a) as Na. pose proof (trigramSet_NoDup b) as Nb.
  replace (length (trigramSet a) =? 0)%nat with false by (symmetry; apply Nat.eqb_neq; lia).
  replace (length (trigramSet b) =? 0)%nat with false by (symmetry; apply Nat.eqb_neq; lia).
  cbn [orb].
  pose proof (intersection_le_union (trigramSet a) (trigramSet b) Na) as Hle.
  assert (0 < length (JS.uniq String.eqb (trigramSet a ++ trigramSet b))) as Hu.
  { eapply Nat.lt_le_trans; [exact Ha|].
    apply submseteq_length, NoDup_submseteq; [exact Na|].
    intros t Ht. apply uniq_elem_of; [apply string_eqb_spec|]. rewrite elem_of_app. now left. }
  split; [|split].
  - replace (0 <? _)%nat with true by (symmetry; apply Nat.ltb_lt; exact Hu).
    now apply ofNat_ratio_bounds.
  - rewrite (intersection_comm _ _ Na Nb), (union_comm (trigramSet a) (trigramSet b)).
    reflexivity.
  - intros E. assert (trigramSet a = trigramSet b) as -> by (unfold trigramSet; now rewrite E).
    rewrite intersection_self, (union_self _ Nb).
    set (n := length (trigramSet b)) in *.
    replace (0 <? n)%nat with true by (symmetry; apply Nat.ltb_lt; exact Hb).
    unfold ofNat. field. intros H.
    unfold Qeq in H. simpl in H. lia.
Qed.

Lemma similarStep_similarAt results th i m j :
  similarStep results th i m j
  = if similarAt results th i j then pushSimilar m i j else m.
Proof.
  unfold similarStep, similarAt.
  destruct (results !! i); [|reflexivity]. destruct (results !! j); reflexivity.
Qed.

Lemma pushSimilar_new m i j :
  i ∉ m.*1 -> pushSimilar m i j = m ++ [(i, [j])].
Proof.
  induction m as [|[k js] m IH]; intros Hi; [reflexivity|].
  simpl in *. apply not_elem_of_cons in Hi as [Hne Hi].
  replace (k =? i)%nat with false by (symmetry; apply Nat.eqb_neq; congruence).
  now rewrite IH.
Qed.

Lemma pushSimilar_last m i js j :
  i ∉ m.*1 -> pushSimilar (m ++ [(i, js)]) i j = m ++ [(i, js ++ [j])].
Proof.
  induction m as [|[k ks] m IH]; intros Hi; simpl.
  - now rewrite Nat.eqb_refl.
  - simpl in Hi. apply not_elem_of_cons in Hi as [Hne Hi].
    replace (k =? i)%nat with false by (symmetry; apply Nat.eqb_neq; congruence).
    now rewrite IH.
Qed.

Lemma filter_snoc {A} (p : A -> bool) l x :
  List.filter p (l ++ [x]) = List.filter p l ++ (if p x then [x] else []).
Proof. rewrite List.filter_app. simpl. now destruct (p x). Qed.

(** The inner loop appends one entry for [i], when some [j] is similar. *)
Lemma inner_loop results th i js m :
  i ∉ m.*1 ->
  fold_left (similarStep results th i) js m
  = m ++ match List.filter (similarAt results th i) js with
         | [] => []
         | sel => [(i, sel)]
         end.
Proof.
  intros Hi. induction js as [|j js IH] using rev_ind.
  - simpl. now rewrite app_nil_r.
  - rewrite fold_left_app. cbn [fold_left]. rewrite IH, similarStep_similarAt, filter_snoc.
    destruct (similarAt results th i j).
    + destruct (List.filter (similarAt results th i) js) as [|a sel].
      * rewrite app_nil_r. now apply pushSimilar_new.
      * simpl. now apply (pushSimilar_last m i (a :: sel) j).
    + now rewrite app_nil_r.
Qed.

Lemma similarTable_keys results th k :
  Forall (fun i => i < k)
    (omap (fun i => match similarAfter results th i with
                    | [] => None
                    | js => Some (i, js)
                    end) (seq 0 k)).*1.
Proof.
  induction k as [|k IH]; [constructor|].
  rewrite seq_S, omap_app, fmap_app. apply Forall_app. split.
  - eapply Forall_impl; [exact IH|]. simpl. intros; lia.
  - simpl. destruct (similarAfter results th k); simpl; repeat constructor.
Qed.

Lemma findSimilar_table config results threshold :
  findSimilar config results threshold
  = similarTable results (default (similarityThreshold config) threshold).
Proof.
  unfold findSimilar, similarTable.
  set (th := default (similarityThreshold config) threshold).
  generalize (length results) at 2 3 as k.
  induction k as [|k IH]; [reflexivity|].
  rewrite seq_S, fold_left_app, omap_app, IH. cbn [fold_left].
  rewrite inner_loop.
  - f_equal. simpl. unfold similarAfter.
    destruct (List.filter (similarAt results th k) (seq (S k) (length results - S k)));
      reflexivity.
  - intros Hk. pose proof (similarTable_keys results th k) as HF.
    rewrite Forall_forall in HF. apply HF in Hk. lia.
Qed.

(** X5: [findSimilar] lists, for each index [i] in ascending order, the
    later indices [j] whose text is at least [threshold] similar to that of
    [i] (the configured threshold when none is given), in ascending order;
    an index without a similar later index has no entry. *)
Theorem findSimilar_spec (config : DeduplicationConfig) (results : list SearchResult)
    (threshold : option Q) :
  let th := default (similarityThreshold config) threshold in
  let similar := findSimilar config results threshold in
  (forall i j,
     (exists js, (i, js) ∈ similar /\ j ∈ js) <->
     i < j < length results /\
     exists resultI resultJ,
       results !! i = Some resultI /\ results !! j = Some resultJ /\
       (th <= computeSimilarity (textOf resultI) (textOf resultJ))%Q) /\
  StronglySorted lt similar.*1 /\
  Forall (fun entry => entry.2 <> [] /\ StronglySorted lt entry.2) similar.
Proof.
  cbv zeta. rewrite findSimilar_table.
  set (th := default (similarityThreshold config) threshold).
  assert (forall i js, (i, js) ∈ similarTable results th <->
            i < length results /\ js = similarAfter results th i /\ js <> []) as Hentry.
  { intros i js. unfold similarTable. rewrite list_elem_of_omap. split.
    - intros (i' & Hi' & E). apply list_elem_of_In, in_seq in Hi'.
      destruct (similarAfter results th i') as [|a l] eqn:Es; [discriminate|].
      injection E as <- <-. repeat split; [lia | now rewrite Es | discriminate].
    - intros (Hi & -> & Hne). exists i. split; [apply list_elem_of_In, in_seq; lia|].
      destruct (similarAfter results th i); [contradiction | reflexivity]. }
  assert (forall i j, j ∈ similarAfter results th i <->
            i < j < length results /\ similarAt results th i j = true) as Hafter.
  { intros i j. unfold similarAfter. rewrite list_elem_of_In, filter_In, in_seq. split.
    - intros [H1 H2]. split; [lia | exact H2].
    - intros [H1 H2]. split; [lia | exact H2]. }
  split; [|split].
  - intros i j. split.
    + intros (js & Hjs & Hj). apply Hentry in Hjs as (Hi & -> & _).
      apply Hafter in Hj as [Hij Hs]. split; [exact Hij|].
      unfold similarAt in Hs.
      destruct (results !! i) as [a|]; [|discriminate].
      destruct (results !! j) as [b|]; [|discriminate].
      exists a, b. repeat split. now apply Qle_bool_iff.
    + intros (Hij & a & b & Ea & Eb & Hs).
      assert (j ∈ similarAfter results th i) as Hj.
      { apply Hafter. split; [exact Hij|]. unfold similarAt. rewrite Ea, Eb.
        now apply Qle_bool_iff. }
      exists (similarAfter results th i). split; [|exact Hj].
      apply Hentry. split; [lia|]. split; [reflexivity|].
      intros E. rewrite E in Hj. now apply elem_of_nil in Hj.
  - unfold similarTable. generalize (length results) at 1 as k.
    induction k as [|k IH]; [constructor|].
    rewrite seq_S, omap_app, fmap_app.
    apply (StronglySorted_app_2 lt); [| exact IH |].
    + intros x y Hx Hy. pose proof (similarTable_keys results th k) as HF.
      rewrite Forall_forall in HF. apply HF in Hx.
      simpl in Hy. destruct (similarAfter results th k); simpl in Hy;
        [now apply elem_of_nil in Hy|].
      apply list_elem_of_singleton in Hy. subst y. exact Hx.
    + simpl. destruct (similarAfter results th k); simpl; repeat constructor.
  - apply Forall_forall. intros [i js] Hin. apply Hentry in Hin as (_ & -> & Hne).
    split; [exact Hne|]. simpl. unfold similarAfter.
    apply StronglySorted_filter_seq.
Qed.

End SimilarityFacts.

(** *** Deduplicator: URLs that normalize alike *)

Section EquivalentUrls.
Import Deduplicator.
Variable parseURL : URLParser.

Lemma NoDup_fmap_eq {A B} (f : A -> B) (l : list A) x y :
  NoDup (f <$> l) -> x ∈ l -> y ∈ l -> f x = f y -> x = y.
Proof.
  induction l as [|a l IH]; intros HN Hx Hy E; [now apply elem_of_nil in Hx|].
  rewrite fmap_cons in HN. apply NoDup_cons in HN as [Ha HN].
  apply elem_of_cons in Hx as [-> | Hx]; apply elem_of_cons in Hy as [-> | Hy].
  - reflexivity.
  - destruct Ha. rewrite E. now apply list_elem_of_fmap_2.
  - destruct Ha. rewrite <- E. now apply list_elem_of_fmap_2.
  - now apply IH.
Qed.

(** Parameters of distinct names sort to one order, whatever order they
    come in. *)
Lemma sort_perm (l l' : list (string * string)) :
  l ≡ₚ l' -> NoDup (fst <$> l) ->
  URLSearchParams.sort l = URLSearchParams.sort l'.
Proof.
  intros HP HN.
  apply (StronglySorted_unique_strong
           (fun a b : string * string => String.ltb (fst b) (fst a) = false)).
  - intros x y Hx Hy Hxy Hyx.
    apply (NoDup_fmap_eq fst l); [exact HN | | |].
    + unfold URLSearchParams.sort in Hx. now apply sortBy_elem_of in Hx.
    + unfold URLSearchParams.sort in Hy. apply sortBy_elem_of in Hy. now rewrite HP.
    + apply ltb_false_le in Hxy, Hyx. now apply String.leb_antisym.
  - apply sort_sorted.
  - apply sort_sorted.
  - unfold URLSearchParams.sort. now rewrite !sortBy_perm.
Qed.

(** X6: what [normalizeUrl] does not look at.  Two addresses whose parsed
    forms agree on the protocol, on the host name up to case, on the path and,
    up to order, on the parameters other than the tracking ones (these
    having distinct names) normalize to the same string: the fragment, the
    tracking parameters, the case of the host and the order of the
    parameters play no part. *)
Theorem normalizeUrl_equivalent (u u' : string) (p q : URL) :
  parseURL u = Some p ->
  parseURL u' = Some q ->
  protocol p = protocol q ->
  JS.toLowerCase (hostname p) = JS.toLowerCase (hostname q) ->
  pathname p = pathname q ->
  filter (fun kv => fst kv ∉ trackingParams) (searchParams p)
    ≡ₚ filter (fun kv => fst kv ∉ trackingParams) (searchParams q) ->
  NoDup (fst <$> filter (fun kv => fst kv ∉ trackingParams) (searchParams p)) ->
  normalizeUrl parseURL u = normalizeUrl parseURL u'.
Proof.
  intros Hu Hu' Hproto Hhost Hpath Hparams HN.
  unfold normalizeUrl. rewrite Hu, Hu'.
  unfold normalizeParsed, normalizedParams, normalizedHost, normalizedPath, clearHash.
  cbn [protocol hostname pathname searchParams].
  unfold stripTracking. rewrite !deleteAll_filter.
  rewrite (sort_perm _ _ Hparams HN), Hproto, Hhost, Hpath. reflexivity.
Qed.

End EquivalentUrls.

Section EquivalentUrlsExample.
Import Deduplicator Samples.

(** The address with tracking parameters and the one without. *)
Lemma normalizeUrl_equivalent_witness :
  normalizeUrl platformURL "https://example.com/page?utm_source=google&utm_medium=cpc&id=123"
  = normalizeUrl platformURL "https://example.com/page?id=123".
Proof.
  apply (normalizeUrl_equivalent platformURL _ _
           (mkURL "https:" "example.com" "/page"
                  [("utm_source", "google"); ("utm_medium", "cpc"); ("id", "123")] "")
           (mkURL "https:" "example.com" "/page" [("id", "123")] ""));
    try reflexivity.
  vm_compute. apply NoDup_singleton.
Defined.

End EquivalentUrlsExample.

(** *** Scorer: the three signals and the ranking *)

Section ScorerProfile.
Import Scorer.
Variable parseURL : URLParser.
Variable config : ScoringConfig.
Local Open Scope Q_scope.

Lemma byScoreDesc_true a b : byScoreDesc a b = true -> s_score a <= s_score b.
Proof. unfold byScoreDesc. rewrite positive_true. lra. Qed.

Lemma byScoreDesc_false a b : byScoreDesc a b = false -> s_score b <= s_score a.
Proof. unfold byScoreDesc. rewrite positive_false. lra. Qed.

Lemma scoreAll_perm_sorted (clock : nat -> Z) (results : list SearchResult) (query : string) :
  scoreAll parseURL config clock results query
    ≡ₚ imap (fun i r => score parseURL config (clock i) r query) results /\
  length (scoreAll parseURL config clock results query) = length results /\
  StronglySorted (fun a b => s_score b <= s_score a)
                 (scoreAll parseURL config clock results query).
Proof.
  unfold scoreAll. split; [apply sortBy_perm|]. split.
  - rewrite sortBy_perm. apply length_imap.
  - apply sortBy_sorted.
    + intros a b c H1 H2. lra.
    + apply byScoreDesc_true.
    + apply byScoreDesc_false.
Qed.

(** X7: [scoreAll] returns the scored results, each input once, ordered by
    descending score; the fields of a result are those of the input it was
    scored from. *)
Theorem scoreAll_ranked (clock : nat -> Z) (results : list SearchResult) (query : string) :
  let out := scoreAll parseURL config clock results query in
  out ≡ₚ imap (fun i r => score parseURL config (clock i) r query) results /\
  length out = length results /\
  StronglySorted (fun a b => s_score b <= s_score a) out /\
  (forall sr, sr ∈ out ->
     exists i r, results !! i = Some r /\
       sr = score parseURL config (clock i) r query /\
       s_url sr = url r /\ s_title sr = title r /\ s_snippet sr = snippet r).
Proof.
  cbv zeta. destruct (scoreAll_perm_sorted clock results query) as (H1 & H2 & H3).
  repeat split; try assumption.
  intros sr Hsr. rewrite H1 in Hsr. apply elem_of_lookup_imap in Hsr as (i & r & -> & Hr).
  exists i, r. repeat split. exact Hr.
Qed.

Lemma msPerDay_value : msPerDay == 86400000.
Proof. reflexivity. Qed.

Lemma recencyScore_unfold now ts :
  recencyScore now ts == Qmax 0.1 (1 - inject_Z (now - ts) / 31536000000).
Proof.
  unfold recencyScore. apply Q.max_compat; [reflexivity|].
  rewrite msPerDay_value. field.
Qed.

(** X8: the recency signal never falls below 0.1, is 1 for a result stamped
    at the reading of the clock, does not exceed 1 for a result that is not
    from the future, is 0.1 from an age of 328.5 days on, and a newer result
    never scores lower than an older one. *)
Theorem recencyScore_profile (now : Z) :
  (forall ts, 0.1 <= recencyScore now ts) /\
  recencyScore now now == 1 /\
  (forall ts, (ts <= now)%Z -> recencyScore now ts <= 1) /\
  (forall ts, (28382400000 <= now - ts)%Z -> recencyScore now ts == 0.1) /\
  (forall ts1 ts2, (ts1 <= ts2)%Z -> recencyScore now ts1 <= recencyScore now ts2).
Proof.
  split; [apply recencyScore_lower|]. split; [|split; [|split]].
  - rewrite recencyScore_unfold, Z.sub_diag.
    assert (1 - inject_Z 0 / 31536000000 == 1) as -> by reflexivity.
    apply Q.max_r. vm_compute. discriminate.
  - intros ts H. now apply recencyScore_bounds.
  - intros ts H. rewrite recencyScore_unfold. apply Q.max_l.
    assert (inject_Z 28382400000 <= inject_Z (now - ts)) as H' by (now rewrite <- Zle_Qle).
    assert (inject_Z 28382400000 == 28382400000) as E by reflexivity.
    rewrite E in H'. revert H'. generalize (inject_Z (now - ts)). intros x H'.
    assert (x / 31536000000 == x * (1 # 31536000000)) as -> by field. lra.
  - intros ts1 ts2 H. rewrite !recencyScore_unfold.
    apply Q.max_le_compat_l.
    assert (inject_Z (now - ts2) <= inject_Z (now - ts1)) as H' by (rewrite <- Zle_Qle; lia).
    revert H'. generalize (inject_Z (now - ts1)) (inject_Z (now - ts2)). intros x y H'.
    assert (x / 31536000000 == x * (1 # 31536000000)) as -> by field.
    assert (y / 31536000000 == y * (1 # 31536000000)) as -> by field. lra.
Qed.

Lemma countMatches_none queryTerms titleTerms snippetTerms tm sm :
  (forall t, t ∈ queryTerms ->
     arrayIncludes titleTerms t = false /\ arrayIncludes snippetTerms t = false) ->
  countMatches queryTerms titleTerms snippetTerms tm sm = (tm, sm).
Proof.
  revert tm sm. induction queryTerms as [|t rest IH]; intros tm sm H; [reflexivity|].
  simpl. destruct (H t) as [-> ->]; [left|].
  apply IH. intros t' Ht'. apply H. now right.
Qed.

(** X9: the relevance signal lies between 0 and 1; it is 0.5 for a query
    without a term of more than two characters; and when no query term is a
    term of the title or of the snippet, it is 0, or 0.2 when the title
    contains the query as a substring all the same. *)
Theorem relevanceScore_profile (result : SearchResult) (query : string) :
  0 <= relevanceScore result query <= 1 /\
  (tokenize query = [] -> relevanceScore result query = 0.5) /\
  (tokenize query <> [] ->
   (forall t, t ∈ tokenize query ->
      (t ∉ tokenize (title result)) /\ (t ∉ tokenize (snippet result))) ->
   relevanceScore result query
   == if JS.includes (JS.toLowerCase (title result)) (JS.toLowerCase query)
      then 0.2 else 0).
Proof.
  split; [apply relevanceScore_bounds|]. split.
  - intros E. unfold relevanceScore. now rewrite E.
  - intros Hne Hnone. unfold relevanceScore.
    destruct (tokenize query) as [|t0 rest] eqn:E; [contradiction|].
    cbn [length Nat.eqb].
    rewrite countMatches_none.
    + destruct (JS.includes _ _).
      * assert (ofNat 0 / ofNat (S (length rest)) * 0.6
                + ofNat 0 / ofNat (S (length rest)) * 0.4 + 0.2 == 0.2) as ->.
        { unfold ofNat. change (inject_Z (Z.of_nat 0)) with 0. unfold Qdiv.
          rewrite !Qmult_0_l. reflexivity. }
        apply Q.min_r. lra.
      * unfold ofNat. change (inject_Z (Z.of_nat 0)) with 0. unfold Qdiv.
        rewrite !Qmult_0_l. reflexivity.
    + intros t Ht. destruct (Hnone t Ht) as [H1 H2]. unfold arrayIncludes. split.
      * apply not_true_is_false. intros H. apply H1.
        now apply (existsb_eqb_elem_of String.eqb String.eqb_eq).
      * apply not_true_is_false. intros H. apply H2.
        now apply (existsb_eqb_elem_of String.eqb String.eqb_eq).
Qed.

(** X10: the domain signal is 0.3 exactly for an address the URL parser
    rejects; for a parsed address it is 1, 0.9, 0.8 or 0.5, and it is 1
    exactly when the host name, its first [www.] removed, is a trusted domain
    or ends with a dot and a trusted domain. *)
Theorem domainScore_profile (u : string) :
  (parseURL u = None <-> domainScore parseURL config u == 0.3) /\
  (forall parsed, parseURL u = Some parsed ->
     let hostname := JS.removeFirst (hostname parsed) "www." in
     (domainScore parseURL config u == 1 \/ domainScore parseURL config u == 0.9 \/
      domainScore parseURL config u == 0.8 \/ domainScore parseURL config u == 0.5) /\
     (domainScore parseURL config u == 1 <->
      exists trusted, trusted ∈ trustedDomains config /\
        (hostname = trusted \/ JS.endsWith hostname ("." +:+ trusted) = true))).
Proof.
  unfold domainScore. split.
  - destruct (parseURL u) as [parsed|]; [|split; reflexivity].
    split; [discriminate|].
    destruct (existsb _ (trustedDomains config)); [intros H; now vm_compute in H|].
    destruct (_ || _); [intros H; now vm_compute in H|].
    destruct (existsb _ qualityDomains); intros H; now vm_compute in H.
  - intros parsed ->. cbv zeta.
    set (host := JS.removeFirst (hostname parsed) "www.").
    assert (existsb (matchesDomain host) (trustedDomains config) = true <->
            exists trusted, trusted ∈ trustedDomains config /\
              (host = trusted \/ JS.endsWith host ("." +:+ trusted) = true)) as Ht.
    { rewrite existsb_exists. unfold matchesDomain. split.
      - intros (d & Hd & H). exists d. split; [now apply list_elem_of_In|].
        apply orb_true_iff in H as [H | H]; [left; now apply String.eqb_eq | now right].
      - intros (d & Hd & H). exists d. split; [now apply list_elem_of_In|].
        apply orb_true_iff. destruct H as [-> | H]; [left; apply String.eqb_refl | now right]. }
    destruct (existsb (matchesDomain host) (trustedDomains config)).
    + split; [left; reflexivity|]. split; [intros _; now apply Ht | reflexivity].
    + assert (~ exists trusted, trusted ∈ trustedDomains config /\
              (host = trusted \/ JS.endsWith host ("." +:+ trusted) = true)) as Hn
        by (intros H; apply Ht in H; discriminate).
      destruct (_ || _).
      * split; [right; left; reflexivity|].
        split; [intros H; now vm_compute in H | intros H; contradiction].
      * destruct (existsb _ qualityDomains).
        -- split; [right; right; left; reflexivity|].
           split; [intros H; now vm_compute in H | intros H; contradiction].
        -- split; [right; right; right; reflexivity|].
           split; [intros H; now vm_compute in H | intros H; contradiction].
Qed.

End ScorerProfile.

(** *** BM25: the index *)

Section BM25Index.
Import BM25.
Variable Math_log : Q -> Q.

Lemma countTokens_lookup (tokens : list string) (df : gmap string nat) (t : string) :
  NoDup tokens ->
  countTokens tokens df !! t
  = if decide (t ∈ tokens) then Some (default 0 (df !! t) + 1) else df !! t.
Proof.
  unfold countTokens. revert df.
  induction tokens as [|x tokens IH]; intros df HN; [reflexivity|].
  apply NoDup_cons in HN as [Hx HN]. cbn [fold_left]. rewrite (IH _ HN).
  destruct (decide (t = x)) as [-> | Hne].
  - rewrite decide_False by exact Hx. rewrite decide_True by left.
    now rewrite lookup_insert_eq.
  - rewrite lookup_insert_ne by congruence.
    destruct (decide (t ∈ tokens)) as [Hin | Hout].
    + rewrite decide_True by now right. reflexivity.
    + rewrite decide_False; [reflexivity|]. rewrite elem_of_cons. tauto.
Qed.

(** The loop of [buildIndex] adds, to what it starts from, the length of
    every document and one for every document a token occurs in. *)
Lemma indexLoop_spec results totalLength df :
  fst (indexLoop results totalLength df) = totalLength + totalTokens results /\
  forall t,
    snd (indexLoop results totalLength df) !! t
    = match docsContaining t results with
      | O => df !! t
      | S n => Some (default 0 (df !! t) + S n)
      end.
Proof.
  revert totalLength df. induction results as [|r results IH]; intros totalLength df.
  - split; [unfold totalTokens; simpl; lia | reflexivity].
  - cbn [indexLoop]. destruct (IH (totalLength + length (tokenize (getDocumentText r)))
                                  (countTokens (JS.uniq String.eqb (tokenize (getDocumentText r))) df))
      as [E1 E2].
    split.
    + rewrite E1. unfold totalTokens. rewrite fmap_cons. cbn [sum_list sum_list_with].
      unfold id. lia.
    + intros t. rewrite E2. unfold docsContaining. rewrite filter_cons.
      rewrite countTokens_lookup by (apply uniq_NoDup, String.eqb_eq).
      destruct (decide (t ∈ tokenize (getDocumentText r))) as [Hin | Hout].
      * rewrite decide_True by (apply uniq_elem_of; [apply String.eqb_eq | exact Hin]).
        cbn [length default]. destruct (length (filter _ results)); [reflexivity|].
        f_equal. unfold id. lia.
      * rewrite decide_False
          by (intros H; apply Hout; apply uniq_elem_of in H; [exact H | apply String.eqb_eq]).
        reflexivity.
Qed.

Lemma docsContaining_le t results : docsContaining t results <= length results.
Proof. unfold docsContaining. apply length_filter. Qed.

(** What [buildIndex] leaves in the ranker. *)
Lemma buildIndex_index (self : BM25Ranker) (results : list SearchResult) :
  let index := buildIndex Math_log self results in
  k1 index = k1 self /\ b index = b self /\ delta index = delta self /\
  totalDocs index = length results /\
  avgDocLength index = (ofNat (totalTokens results) / ofNat (Nat.max (length results) 1))%Q /\
  (forall t,
     docFrequency index !! t
     = if decide (docsContaining t results = 0) then None
       else Some (docsContaining t results)) /\
  (forall t n, docFrequency index !! t = Some n -> 1 <= n <= length results) /\
  (forall t,
     idfCache index !! t
     = computeIDF Math_log (length results) <$> docFrequency index !! t).
Proof.
  cbv zeta. unfold buildIndex.
  destruct (indexLoop_spec results 0 ∅) as [E1 E2].
  destruct (indexLoop results 0 ∅) as [totalLength df]. cbn [fst snd] in E1, E2.
  cbn [k1 b delta totalDocs avgDocLength docFrequency idfCache].
  assert (forall t, df !! t = if decide (docsContaining t results = 0) then None
                              else Some (docsContaining t results)) as Hdf.
  { intros t. rewrite E2, lookup_empty. destruct (docsContaining t results); reflexivity. }
  repeat split; try reflexivity.
  - now rewrite E1.
  - exact Hdf.
  - rewrite Hdf in H. destruct (decide _); [discriminate|]. injection H as <-. lia.
  - rewrite Hdf in H. destruct (decide _); [discriminate|]. injection H as <-.
    apply docsContaining_le.
  - intros t. apply lookup_fmap.
Qed.

(** X11: [buildIndex] keeps the parameters of the ranker and replaces the
    index by that of the batch: the number of documents, the mean number of
    tokens of a document (the total over 1 for an empty batch), for every
    token that occurs in the batch the number of documents it occurs in,
    which is at least 1 and at most the number of documents, and no entry
    for any other token; the IDF cache holds [computeIDF] of exactly these
    frequencies. *)
Theorem buildIndex_spec (self : BM25Ranker) (results : list SearchResult) :
  let index := buildIndex Math_log self results in
  k1 index = k1 self /\ b index = b self /\ delta index = delta self /\
  totalDocs index = length results /\
  avgDocLength index = (ofNat (totalTokens results) / ofNat (Nat.max (length results) 1))%Q /\
  (forall t,
     docFrequency index !! t
     = if decide (docsContaining t results = 0) then None
       else Some (docsContaining t results)) /\
  (forall t n, docFrequency index !! t = Some n -> 1 <= n <= length results) /\
  (forall t,
     idfCache index !! t
     = computeIDF Math_log (length results) <$> docFrequency index !! t) /\
  st_totalDocs (getStats index) = length results /\
  st_avgDocLength (getStats index)
  = (ofNat (totalTokens results) / ofNat (Nat.max (length results) 1))%Q.
Proof.
  cbv zeta.
  destruct (buildIndex_index self results) as (E1 & E2 & E3 & E4 & E5 & E6 & E7 & E8).
  unfold getStats. cbn [st_totalDocs st_avgDocLength].
  repeat split; try assumption; apply (E7 t n H).
Qed.

End BM25Index.

(** *** BM25: the scores *)

Section BM25Scores.
Import BM25.
Variable Math_log : Q -> Q.

(** A query token that the document does not have adds nothing. *)
Lemma scoreLoop_absent self tf docLength queryTokens score :
  (forall t, t ∈ queryTokens -> default 0 (tf !! t) = 0) ->
  scoreLoop Math_log self tf docLength queryTokens score = score.
Proof.
  revert score. induction queryTokens as [|t rest IH]; intros score H; [reflexivity|].
  cbn [scoreLoop]. rewrite (H t) by left. cbn [Nat.eqb].
  apply IH. intros t' Ht'. apply H. now right.
Qed.

Lemma termFrequencies_lookup docTokens t :
  default 0 (termFrequencies docTokens !! t) = 0 <-> (t ∉ docTokens).
Proof.
  unfold termFrequencies.
  assert (forall tf : gmap string nat,
            default 0 (fold_left (fun tf token => <[token := default 0 (tf !! token) + 1]> tf)
                             docTokens tf !! t) = 0
            <-> (t ∉ docTokens) /\ default 0 (tf !! t) = 0) as H.
  { induction docTokens as [|x l IH]; intros tf; cbn [fold_left].
    - split; [intros H; split; [apply not_elem_of_nil | exact H] | tauto].
    - rewrite IH, not_elem_of_cons. destruct (decide (x = t)) as [-> | Hne].
      + rewrite lookup_insert_eq. simpl. split; [lia | tauto].
      + rewrite lookup_insert_ne by exact Hne. split; [intros [? ?]; auto | tauto]. }
  rewrite H, lookup_empty. simpl. tauto.
Qed.

(** X12: a document that has none of the query tokens scores 0, whatever
    the index. *)
Theorem scoreDocument_no_common_token (self : BM25Ranker) (result : SearchResult)
    (queryTokens : list string) :
  (forall t, t ∈ queryTokens -> t ∉ tokenize (getDocumentText result)) ->
  scoreDocument Math_log self result queryTokens = 0%Q.
Proof.
  intros H. unfold scoreDocument. apply scoreLoop_absent.
  intros t Ht. apply termFrequencies_lookup. now apply H.
Qed.

Local Open Scope Q_scope.

Lemma ofNat_nonneg n : 0 <= ofNat n.
Proof. unfold ofNat. rewrite <- (Zle_Qle 0). lia. Qed.

Lemma ofNat_pos n : (0 < n)%nat -> 0 < ofNat n.
Proof. intros H. unfold ofNat. rewrite <- (Zlt_Qlt 0). lia. Qed.

Lemma ofNat_le n m : (n <= m)%nat -> ofNat n <= ofNat m.
Proof. intros H. unfold ofNat. rewrite <- Zle_Qle. lia. Qed.

Lemma Qdiv_nonneg x y : 0 <= x -> 0 <= y -> 0 <= x / y.
Proof.
  intros Hx Hy. unfold Qdiv. apply Qmult_le_0_compat; [exact Hx|].
  now apply Qinv_le_0_compat.
Qed.

Lemma scoreLoop_nonneg self tf docLength queryTokens score :
  nonnegIndex Math_log self -> 0 <= score ->
  0 <= scoreLoop Math_log self tf docLength queryTokens score.
Proof.
  intros (Hk & [Hb0 Hb1] & Hd & Ha & Hc & H0).
  revert score. induction queryTokens as [|t rest IH]; intros score Hs; [exact Hs|].
  cbn [scoreLoop]. destruct (default 0%nat (tf !! t)) as [|n] eqn:E; [now apply IH|].
  cbn [Nat.eqb]. apply IH.
  set (idf := default (computeIDF Math_log (totalDocs self) 0) (idfCache self !! t)).
  assert (0 <= idf) as Hidf.
  { unfold idf. destruct (idfCache self !! t) as [v|] eqn:Ev; [now apply (Hc t) | exact H0]. }
  pose proof (ofNat_pos (S n) ltac:(lia)) as Htf.
  pose proof (Qdiv_nonneg (ofNat docLength) (avgDocLength self) (ofNat_nonneg _) Ha) as Hq.
  assert (0 <= ofNat (S n) * (k1 self + 1)) as Hnum by nra.
  assert (0 <= ofNat (S n)
               + k1 self * (1 - b self + b self * (ofNat docLength / avgDocLength self))) as Hden.
  { assert (0 <= b self * (ofNat docLength / avgDocLength self)) by nra. nra. }
  pose proof (Qdiv_nonneg _ _ Hnum Hden) as Hfrac.
  assert (0 <= idf * (ofNat (S n) * (k1 self + 1)
                      / (ofNat (S n)
                         + k1 self * (1 - b self + b self * (ofNat docLength / avgDocLength self)))))
    as Hterm by (apply Qmult_le_0_compat; assumption).
  lra.
Qed.

Lemma computeIDF_nonneg n docFreq :
  (forall x, 1 <= x -> 0 <= Math_log x) ->
  (docFreq <= n)%nat -> 0 <= computeIDF Math_log n docFreq.
Proof.
  intros Hlog Hle. unfold computeIDF. apply Hlog.
  pose proof (ofNat_le _ _ Hle) as H1. pose proof (ofNat_nonneg docFreq) as H2.
  assert (0 <= (ofNat n - ofNat docFreq + 0.5) / (ofNat docFreq + 0.5))
    by (apply Qdiv_nonneg; lra).
  lra.
Qed.

Lemma buildIndex_nonneg self results :
  (forall x, 1 <= x -> 0 <= Math_log x) ->
  0 <= k1 self -> 0 <= b self <= 1 -> 0 <= delta self ->
  nonnegIndex Math_log (buildIndex Math_log self results).
Proof.
  intros Hlog Hk Hb Hd.
  destruct (buildIndex_index Math_log self results)
    as (E1 & E2 & E3 & E4 & E5 & E6 & E7 & E8).
  unfold nonnegIndex. rewrite E1, E2, E3, E4, E5.
  repeat split; try assumption; try apply Hb.
  - apply Qdiv_nonneg; apply ofNat_nonneg.
  - intros t v Hv. rewrite E8 in Hv.
    destruct (docFrequency (buildIndex Math_log self results) !! t) as [d|] eqn:Ed;
      [|discriminate].
    injection Hv as <-. apply computeIDF_nonneg; [exact Hlog|].
    now apply (E7 t d).
  - apply computeIDF_nonneg; [exact Hlog | lia].
Qed.

Lemma byBM25Desc_true x y : byBM25Desc x y = true -> bm25Score x <= bm25Score y.
Proof. unfold byBM25Desc. rewrite positive_true. lra. Qed.

Lemma byBM25Desc_false x y : byBM25Desc x y = false -> bm25Score y <= bm25Score x.
Proof. unfold byBM25Desc. rewrite positive_false. lra. Qed.

(** X13: the scores of a new ranker are never negative, provided the
    logarithm is non-negative from 1 on (as [Math.log] is) and the
    parameters are in their ranges ([k1] and [delta] not negative, [b]
    between 0 and 1, which the defaults are). *)
Theorem scoreAll_nonnegative (options : BM25Options) (results : list SearchResult)
    (query : string) :
  (forall x, 1 <= x -> 0 <= Math_log x) ->
  0 <= k1 (newRanker options) ->
  0 <= b (newRanker options) <= 1 ->
  0 <= delta (newRanker options) ->
  Forall (fun r => 0 <= bm25Score r)
         (snd (scoreAll Math_log (newRanker options) results query)).
Proof.
  intros Hlog Hk Hb Hd. unfold scoreAll.
  change (totalDocs (newRanker options)) with 0%nat. cbn [Nat.eqb orb snd].
  apply Forall_forall. intros r Hr. apply sortBy_elem_of in Hr.
  apply list_elem_of_In, in_map_iff in Hr as (result & <- & _).
  cbn [bm25Score withBM25]. unfold scoreDocument.
  apply scoreLoop_nonneg; [|lra].
  now apply buildIndex_nonneg.
Qed.

Lemma totalTokens_pos results result t :
  result ∈ results -> t ∈ tokenize (getDocumentText result) ->
  (0 < totalTokens results)%nat.
Proof.
  intros Hin Ht. unfold totalTokens.
  induction results as [|r results IH]; [inversion Hin|].
  rewrite fmap_cons. cbn [sum_list sum_list_with]. unfold id.
  apply elem_of_cons in Hin as [<- | Hin].
  - destruct (tokenize (getDocumentText result)); [inversion Ht | simpl; lia].
  - specialize (IH Hin). unfold id in IH. lia.
Qed.

(** X14: for a ranker with [k1] not negative and [b] between 0 and 1 whose
    index, where the call keeps it (it is kept when it was built from as
    many results, and more than none), has a positive average length, no
    quotient of the scores has the divisor 0, and [scoreAll] returns every
    input once, with the fields of the result it was made from, in
    descending order of BM25 score. *)
Theorem bm25_scoreAll_ranked (self : BM25Ranker) (results : list SearchResult)
    (query : string) :
  0 <= k1 self -> 0 <= b self <= 1 ->
  (totalDocs self <> 0%nat -> totalDocs self = length results -> 0 < avgDocLength self) ->
  let index := fst (scoreAll Math_log self results query) in
  let out := snd (scoreAll Math_log self results query) in
  divisorsNonzero index results /\
  out ≡ₚ map (fun result =>
                withBM25 result
                  (scoreDocument Math_log index result (tokenize (JS.toLowerCase query))))
             results /\
  length out = length results /\
  StronglySorted (fun x y => bm25Score y <= bm25Score x) out.
Proof.
  intros Hk Hb Hkept. cbv zeta. split.
  - intros result t Hin Ht docTokens.
    set (index := fst (scoreAll Math_log self results query)).
    assert (k1 index = k1 self /\ b index = b self /\ 0 < avgDocLength index)
      as (Ek & Eb & Havg).
    { unfold index, scoreAll. cbn [fst].
      destruct (buildIndex_index Math_log self results) as (E1 & E2 & _ & _ & E5 & _).
      assert (0 < avgDocLength (buildIndex Math_log self results)) as Hbuilt.
      { rewrite E5. apply Qlt_shift_div_l.
        - apply ofNat_pos. lia.
        - rewrite Qmult_0_l. apply ofNat_pos. now apply (totalTokens_pos results result t). }
      destruct (totalDocs self =? 0)%nat eqn:E0; cbn [orb]; [now repeat split|].
      destruct (totalDocs self =? length results)%nat eqn:El; cbn [negb];
        [|now repeat split].
      apply Nat.eqb_neq in E0. apply Nat.eqb_eq in El.
      repeat split. now apply Hkept. }
    split; [lra|].
    unfold denominatorOf. rewrite Ek, Eb.
    destruct (default 0%nat (termFrequencies docTokens !! t)) as [|n] eqn:E.
    { apply termFrequencies_lookup in E. contradiction. }
    pose proof (ofNat_pos (S n) ltac:(lia)) as Htf.
    assert (0 <= ofNat (length docTokens) / avgDocLength index) as Hq
      by (apply Qdiv_nonneg; [apply ofNat_nonneg | lra]).
    assert (0 <= b self * (ofNat (length docTokens) / avgDocLength index)) by nra.
    assert (0 <= k1 self * (1 - b self
                            + b self * (ofNat (length docTokens) / avgDocLength index)))
      by nra.
    lra.
  - unfold scoreAll. cbn [fst snd]. split; [apply sortBy_perm|]. split.
    + rewrite sortBy_perm. apply length_map.
    + apply sortBy_sorted.
      * intros x y z H1 H2. lra.
      * apply byBM25Desc_true.
      * apply byBM25Desc_false.
Qed.

(** X15: the index is rebuilt only when the number of results changes.
    After a call on a non-empty batch, a call on another batch of the same
    size leaves the ranker as it is and scores the new batch against the
    statistics of the old one; a call on a batch of another size indexes
    that batch. *)
Theorem scoreAll_index_reuse (self : BM25Ranker) (results : list SearchResult)
    (query : string) :
  results <> [] ->
  let first := fst (scoreAll Math_log self results query) in
  totalDocs first = length results /\
  (totalDocs self = 0%nat -> first = buildIndex Math_log self results) /\
  (forall results' query',
     length results' = length results ->
     fst (scoreAll Math_log first results' query') = first /\
     snd (scoreAll Math_log first results' query')
     = JS.sortBy byBM25Desc
         (map (fun result =>
                 withBM25 result
                   (scoreDocument Math_log first result (tokenize (JS.toLowerCase query'))))
              results')) /\
  (forall results' query',
     length results' <> length results ->
     fst (scoreAll Math_log first results' query') = buildIndex Math_log first results').
Proof.
  intros Hne. cbv zeta.
  assert (0 < length results)%nat as Hlen by (destruct results; [contradiction | simpl; lia]).
  assert (totalDocs (fst (scoreAll Math_log self results query)) = length results) as Hd.
  { unfold scoreAll. cbn [fst].
    destruct (totalDocs self =? 0)%nat eqn:E0; cbn [orb].
    - now destruct (buildIndex_index Math_log self results) as (_ & _ & _ & E & _).
    - destruct (totalDocs self =? length results)%nat eqn:E1; cbn [negb].
      + now apply Nat.eqb_eq in E1.
      + now destruct (buildIndex_index Math_log self results) as (_ & _ & _ & E & _). }
  split; [exact Hd|]. split; [|split].
  - intros E. unfold scoreAll. rewrite E. reflexivity.
  - intros results' query' El.
    set (first := fst (scoreAll Math_log self results query)) in *.
    unfold scoreAll at 1 2. rewrite Hd, <- El.
    replace (length results' =? 0)%nat with false by (symmetry; apply Nat.eqb_neq; lia).
    rewrite Nat.eqb_refl. cbn [orb negb fst snd]. split; reflexivity.
  - intros results' query' El.
    set (first := fst (scoreAll Math_log self results query)) in *.
    unfold scoreAll at 1. rewrite Hd.
    replace (length results =? length results')%nat with false
      by (symmetry; apply Nat.eqb_neq; congruence).
    cbn [negb]. rewrite orb_true_r. reflexivity.
Qed.

End BM25Scores.

Section BM25Examples.
Import BM25 Samples.
Local Open Scope Q_scope.

(** No token of [shortDoc] is "zz". *)
Lemma scoreDocument_no_common_token_witness :
  scoreDocument sampleLog (newRanker noOptions) shortDoc ["zz"] = 0.
Proof.
  apply scoreDocument_no_common_token.
  intros t Ht. apply list_elem_of_singleton in Ht. subst t.
  replace (tokenize (getDocumentText shortDoc)) with ["ab"; "ab"; "cd"]
    by (vm_compute; reflexivity).
  intros H. repeat (apply elem_of_cons in H as [H | H]; [discriminate|]).
  now apply elem_of_nil in H.
Defined.

Lemma scoreAll_nonnegative_witness :
  Forall (fun r => 0 <= bm25Score r)
         (snd (scoreAll sampleLog (newRanker noOptions) [shortDoc] "cd")).
Proof.
  apply scoreAll_nonnegative.
  - intros x Hx. unfold sampleLog. lra.
  - vm_compute. discriminate.
  - split; vm_compute; discriminate.
  - vm_compute. discriminate.
Defined.

Lemma scoreAll_index_reuse_witness :
  let first := fst (scoreAll sampleLog (newRanker noOptions) [shortDoc] "cd") in
  totalDocs first = 1%nat /\
  first = buildIndex sampleLog (newRanker noOptions) [shortDoc] /\
  fst (scoreAll sampleLog first [freshResult] "typescript") = first.
Proof.
  cbv zeta.
  destruct (scoreAll_index_reuse sampleLog (newRanker noOptions) [shortDoc] "cd")
    as (E1 & E2 & E3 & _); [discriminate|].
  split; [exact E1|]. split; [now apply E2|].
  now destruct (E3 [freshResult] "typescript" eq_refl).
Defined.

(** A ranker that keeps its index: it was built from [shortDoc], of three
    tokens, and is asked to score another batch of one result. *)
Lemma bm25_scoreAll_ranked_witness :
  let self := buildIndex sampleLog (newRanker noOptions) [shortDoc] in
  let index := fst (scoreAll sampleLog self [freshResult] "typescript language") in
  let out := snd (scoreAll sampleLog self [freshResult] "typescript language") in
  index = self /\
  divisorsNonzero index [freshResult] /\
  out ≡ₚ map (fun result =>
                withBM25 result
                  (scoreDocument sampleLog index result
                     (tokenize (JS.toLowerCase "typescript language"))))
             [freshResult] /\
  length out = 1%nat /\
  StronglySorted (fun x y => bm25Score y <= bm25Score x) out.
Proof.
  cbv zeta. split; [vm_compute; reflexivity|].
  apply (bm25_scoreAll_ranked sampleLog (buildIndex sampleLog (newRanker noOptions) [shortDoc])
           [freshResult] "typescript language").
  - vm_compute. discriminate.
  - split; vm_compute; discriminate.
  - intros _ _. vm_compute. reflexivity.
Defined.

End BM25Examples.

(** *** Categorizer: groups *)

Section UniqSnoc.
Context {A : Type} (eqb : A -> A -> bool).
Hypothesis eqb_spec : forall x y, eqb x y = true <-> x = y.
Context `{EqDecision A}.

Lemma uniq_go_snoc seen l x :
  JS.uniq_go eqb seen (l ++ [x])
  = JS.uniq_go eqb seen l ++ (if decide (x ∈ seen ++ l) then [] else [x]).
Proof using eqb_spec.
  revert seen. induction l as [|a l IH]; intros seen.
  - simpl. rewrite app_nil_r.
    destruct (existsb (eqb x) seen) eqn:E.
    + apply (existsb_eqb_elem_of eqb eqb_spec) in E. now rewrite decide_True.
    + rewrite decide_False; [reflexivity|].
      intros H. apply (existsb_eqb_elem_of eqb eqb_spec) in H. congruence.
  - simpl. destruct (existsb (eqb a) seen) eqn:E.
    + rewrite IH. f_equal. apply (existsb_eqb_elem_of eqb eqb_spec) in E.
      apply decide_ext. rewrite !elem_of_app, elem_of_cons. split; [tauto|].
      intros [H | [H | H]]; [tauto | subst; tauto | tauto].
    + rewrite IH. simpl. f_equal. f_equal. apply decide_ext.
      rewrite ?elem_of_cons, ?elem_of_app, ?elem_of_cons. tauto.
Qed.

Lemma uniq_snoc l x :
  JS.uniq eqb (l ++ [x]) = JS.uniq eqb l ++ (if decide (x ∈ l) then [] else [x]).
Proof using eqb_spec. unfold JS.uniq. now rewrite uniq_go_snoc. Qed.

End UniqSnoc.

Section Groups.
Import Categorizer.

Lemma pushGrouped_table (f : string -> list CategorizedResult) ks c r :
  NoDup ks ->
  pushGrouped ((fun k => (k, f k)) <$> ks) c r
  = if decide (c ∈ ks)
    then (fun k => (k, if decide (k = c) then f k ++ [r] else f k)) <$> ks
    else ((fun k => (k, f k)) <$> ks) ++ [(c, [r])].
Proof.
  induction ks as [|k ks IH]; intros HN.
  - reflexivity.
  - apply NoDup_cons in HN as [Hk HN]. rewrite !fmap_cons. cbn [pushGrouped].
    destruct (String.eqb k c) eqn:E.
    + apply String.eqb_eq in E. subst k. rewrite decide_True by left.
      rewrite decide_True by reflexivity. f_equal.
      apply list_fmap_ext. intros i k' Hk'. rewrite decide_False; [reflexivity|].
      intros E'. subst k'. apply Hk. eapply list_elem_of_lookup_2; eauto.
    + apply String.eqb_neq in E. rewrite (IH HN).
      destruct (decide (c ∈ ks)) as [Hin | Hout].
      * rewrite decide_True by now right.
        now rewrite (decide_False (P := k = c)).
      * rewrite decide_False; [reflexivity|]. rewrite elem_of_cons. intros [-> | ?]; tauto.
Qed.

Lemma groupTable_snoc pairs c r :
  groupTable (pairs ++ [(c, r)]) = pushGrouped (groupTable pairs) c r.
Proof.
  unfold groupTable. rewrite fmap_app. cbn [fmap list_fmap fst].
  change (list_fmap _ _ fst pairs) with (fst <$> pairs).
  rewrite (uniq_snoc String.eqb String.eqb_eq).
  rewrite pushGrouped_table by (apply uniq_NoDup, String.eqb_eq).
  destruct (decide (c ∈ fst <$> pairs)) as [Hin | Hout].
  - rewrite decide_True by (apply uniq_elem_of; [apply String.eqb_eq | exact Hin]).
    rewrite app_nil_r. apply list_fmap_ext. intros _ k _. f_equal.
    rewrite filter_app, fmap_app, filter_cons, filter_nil. cbn [fst].
    destruct (decide (k = c)) as [-> | Hne].
    + rewrite decide_True by reflexivity. reflexivity.
    + rewrite decide_False by congruence. now rewrite app_nil_r.
  - rewrite decide_False
      by (intros H; apply Hout; apply uniq_elem_of in H; [exact H | apply String.eqb_eq]).
    rewrite fmap_app. f_equal.
    + apply list_fmap_ext. intros i k Hk. f_equal.
      rewrite filter_app, fmap_app, filter_cons, filter_nil. cbn [fst].
      rewrite decide_False; [now rewrite app_nil_r|].
      intros E'. subst k. apply Hout.
      apply list_elem_of_lookup_2 in Hk. apply uniq_elem_of in Hk; [exact Hk | apply String.eqb_eq].
    + cbn [fmap list_fmap]. f_equal. f_equal.
      rewrite filter_app, fmap_app, filter_cons, filter_nil. cbn [fst].
      rewrite decide_True by reflexivity.
      replace (filter (fun p : string * CategorizedResult => p.1 = c) pairs) with
        (@nil (string * CategorizedResult)); [reflexivity|].
      symmetry. apply elem_of_nil_inv. intros [k x] Hin.
      apply list_elem_of_filter in Hin as [Hk Hin]. simpl in Hk. subst k.
      apply Hout. change c with (fst (c, x)). now apply list_elem_of_fmap_2.
Qed.

Lemma groupByCategory_pairs results grouped :
  fold_left
    (fun grouped result =>
       fold_left (fun grouped category => pushGrouped grouped category result)
                 (categories result) grouped)
    results grouped
  = fold_left (fun grouped p => pushGrouped grouped (fst p) (snd p)) (labelled results) grouped.
Proof.
  revert grouped. induction results as [|r results IH]; intros grouped; [reflexivity|].
  unfold labelled. cbn [fold_left flat_map]. rewrite fold_left_app, IH. f_equal.
  generalize (categories r) grouped. clear.
  intros cs. induction cs as [|c cs IH]; intros grouped; [reflexivity|].
  rewrite fmap_cons. cbn [fold_left fst snd]. apply IH.
Qed.

Lemma groupByCategory_table results :
  groupByCategory results = groupTable (labelled results).
Proof.
  unfold groupByCategory. rewrite groupByCategory_pairs.
  induction (labelled results) as [|[c r] pairs IH] using rev_ind; [reflexivity|].
  now rewrite fold_left_app, IH, groupTable_snoc.
Qed.

Lemma labelled_elem_of results c r :
  (c, r) ∈ labelled results <-> r ∈ results /\ c ∈ categories r.
Proof.
  unfold labelled. rewrite list_elem_of_In, in_flat_map. split.
  - intros (r' & Hr' & H). apply list_elem_of_In, list_elem_of_fmap in H as (c' & E & Hc').
    injection E as -> ->. split; [now apply list_elem_of_In | exact Hc'].
  - intros [Hr Hc]. exists r. split; [now apply list_elem_of_In|].
    apply list_elem_of_In, list_elem_of_fmap. now exists c.
Qed.

Lemma labelled_one cat r cs :
  NoDup cs ->
  snd <$> filter (fun p : string * CategorizedResult => fst p = cat)
            ((fun category => (category, r)) <$> cs)
  = if decide (cat ∈ cs) then [r] else [].
Proof.
  induction cs as [|c cs IH]; intros HN; [reflexivity|].
  apply NoDup_cons in HN as [Hc HN]. rewrite fmap_cons, filter_cons. cbn [fst].
  destruct (decide (c = cat)) as [-> | Hne].
  - rewrite decide_True by left. rewrite fmap_cons, (IH HN).
    now rewrite (decide_False (P := cat ∈ cs)).
  - rewrite (IH HN). destruct (decide (cat ∈ cs)) as [Hin | Hout].
    + now rewrite decide_True by now right.
    + rewrite decide_False; [reflexivity|]. rewrite elem_of_cons. intros [-> | ?]; tauto.
Qed.

Lemma labelled_filter cat results :
  Forall (fun r => NoDup (categories r)) results ->
  snd <$> filter (fun p : string * CategorizedResult => fst p = cat) (labelled results)
  = filter (fun r => cat ∈ categories r) results.
Proof.
  induction 1 as [|r results Hr _ IH]; [reflexivity|].
  unfold labelled in *. cbn [flat_map]. rewrite filter_app, fmap_app, IH, (labelled_one _ _ _ Hr).
  rewrite filter_cons. now destruct (decide (cat ∈ categories r)).
Qed.

(** X16: [groupByCategory] has one entry per category that labels some
    result, in the order the categories are first met; the entry of a
    category holds the results that carry it, in input order (once per
    time the result carries it; once when its labels are distinct).  Every
    result with a label is found under each of its labels. *)
Theorem groupByCategory_spec (results : list CategorizedResult) :
  let grouped := groupByCategory results in
  grouped.*1 = JS.uniq String.eqb (flat_map categories results) /\
  NoDup grouped.*1 /\
  (forall cat rs, (cat, rs) ∈ grouped ->
     rs <> [] /\
     (forall r, r ∈ rs <-> r ∈ results /\ cat ∈ categories r) /\
     (Forall (fun r => NoDup (categories r)) results ->
      rs = filter (fun r => cat ∈ categories r) results)) /\
  (forall r cat, r ∈ results -> cat ∈ categories r ->
     exists rs, (cat, rs) ∈ grouped /\ r ∈ rs).
Proof.
  cbv zeta. rewrite groupByCategory_table. unfold groupTable.
  assert ((fst <$> labelled results) = flat_map categories results) as Ekeys.
  { unfold labelled. induction results as [|r results IH]; [reflexivity|].
    cbn [flat_map]. rewrite fmap_app, IH. f_equal.
    rewrite <- list_fmap_compose. apply list_fmap_id. }
  assert (forall cat r,
            r ∈ snd <$> filter (fun p : string * CategorizedResult => fst p = cat) (labelled results)
            <-> r ∈ results /\ cat ∈ categories r) as Hmem.
  { intros cat r. rewrite list_elem_of_fmap. split.
    - intros ([c r'] & -> & Hin). apply list_elem_of_filter in Hin as [Hc Hin].
      simpl in Hc. subst c. now apply labelled_elem_of.
    - intros H. exists (cat, r). split; [reflexivity|].
      apply list_elem_of_filter. split; [reflexivity | now apply labelled_elem_of]. }
  match goal with |- ?keys = _ /\ _ => assert (keys = JS.uniq String.eqb (flat_map categories results)) as E1 end.
  { rewrite <- list_fmap_compose, <- Ekeys. apply list_fmap_id. }
  split; [exact E1|]. split; [rewrite E1; apply uniq_NoDup, String.eqb_eq|]. split.
  - intros cat rs Hin. apply list_elem_of_fmap in Hin as (c & E & Hc). injection E as -> ->.
    apply uniq_elem_of in Hc; [|apply String.eqb_eq].
    split; [|split].
    + apply list_elem_of_fmap in Hc as ([c' r] & -> & Hp). intros E.
      assert (r ∈ snd <$> filter (fun p : string * CategorizedResult => fst p = fst (c', r))
                             (labelled results)) as H
        by (apply Hmem; now apply labelled_elem_of).
      rewrite E in H. now apply elem_of_nil in H.
    + apply Hmem.
    + apply labelled_filter.
  - intros r cat Hr Hc. eexists. split.
    + apply list_elem_of_fmap. exists cat. split; [reflexivity|].
      apply uniq_elem_of; [apply String.eqb_eq|].
      apply list_elem_of_fmap. exists (cat, r). split; [reflexivity | now apply labelled_elem_of].
    + now apply Hmem.
Qed.

End Groups.

(** *** Categorizer: the category list *)

Section CategoryList.
Import Categorizer.

Lemma findIndex_None {A} (p : A -> bool) xs :
  findIndex p xs = None <-> Forall (fun x => p x = false) xs.
Proof.
  induction xs as [|x xs IH]; simpl.
  - split; [constructor | reflexivity].
  - destruct (p x) eqn:E.
    + split; [discriminate|]. intros H. apply Forall_cons in H as [H _]. congruence.
    + destruct (findIndex p xs); simpl.
      * split; [discriminate|]. intros H. apply Forall_cons in H as [_ H].
        apply IH in H. discriminate.
      * split; [|reflexivity]. intros _. constructor; [exact E | now apply IH].
Qed.

Lemma findIndex_first {A} (p : A -> bool) l1 x l2 :
  Forall (fun y => p y = false) l1 -> p x = true ->
  findIndex p (l1 ++ x :: l2) = Some (length l1).
Proof.
  induction 1 as [|y l1 Hy _ IH]; intros Hx; simpl.
  - now rewrite Hx.
  - rewrite Hy, (IH Hx). reflexivity.
Qed.

Lemma delete_middle {A} (l1 : list A) x l2 : delete (length l1) (l1 ++ x :: l2) = l1 ++ l2.
Proof. induction l1 as [|y l1 IH]; simpl; [reflexivity | now rewrite IH]. Qed.

Lemma named_false name (l : list Category) :
  name ∉ (Categorizer.name <$> l) ->
  Forall (fun c => String.eqb (Categorizer.name c) name = false) l.
Proof.
  intros H. apply Forall_forall. intros c Hc. apply String.eqb_neq. intros E.
  apply H. rewrite <- E. now apply list_elem_of_fmap_2.
Qed.

Lemma removeFrom_absent name l :
  name ∉ (Categorizer.name <$> l) -> removeFrom name l = l.
Proof.
  intros H. unfold removeFrom.
  now rewrite (proj2 (findIndex_None _ l) (named_false name l H)).
Qed.

Lemma removeFrom_first name l1 c l2 :
  Categorizer.name c = name -> name ∉ (Categorizer.name <$> l1) ->
  removeFrom name (l1 ++ c :: l2) = l1 ++ l2.
Proof.
  intros Hc H. unfold removeFrom.
  rewrite findIndex_first; [apply delete_middle | now apply named_false |].
  now apply String.eqb_eq.
Qed.

(** X17: [removeCategory] takes out the first category of the given name
    and nothing else; it changes nothing when no category has the name, and
    it leaves every other array alone.  Adding a category and then removing
    its name gives back the list as it was when the name is new; when an
    older category has the name, that one goes and the added one stays. *)
Theorem removeCategory_spec (self : loc) (name : string) (arrays : Arrays) :
  let before := categoriesOf self arrays in
  (name ∉ (Categorizer.name <$> before) -> removeCategory self name arrays = arrays) /\
  (forall l1 c l2,
     before = l1 ++ c :: l2 -> Categorizer.name c = name ->
     name ∉ (Categorizer.name <$> l1) ->
     categoriesOf self (removeCategory self name arrays) = l1 ++ l2) /\
  (forall other, other <> self ->
     categoriesOf other (removeCategory self name arrays) = categoriesOf other arrays) /\
  (forall category,
     Categorizer.name category = name ->
     (name ∉ (Categorizer.name <$> before) ->
      removeCategory self name (addCategory self category arrays) = arrays) /\
     (forall l1 c l2,
        before = l1 ++ c :: l2 -> Categorizer.name c = name ->
        name ∉ (Categorizer.name <$> l1) ->
        categoriesOf self (removeCategory self name (addCategory self category arrays))
        = l1 ++ l2 ++ [category])).
Proof.
  cbv zeta. unfold categoriesOf, removeCategory, addCategory, Arrays in *.
  split; [|split; [|split]].
  - intros H. apply map_eq. intros k. destruct (decide (k = self)) as [-> | Hne].
    + rewrite lookup_alter_eq. destruct (arrays !! self) as [l|]; [|reflexivity].
      simpl in *. now rewrite removeFrom_absent.
    + now rewrite lookup_alter_ne.
  - intros l1 c l2 E Hc H. rewrite lookup_alter_eq.
    destruct (arrays !! self) as [l|]; simpl in *.
    + subst l. now rewrite removeFrom_first.
    + now destruct l1.
  - intros other Hne. now rewrite lookup_alter_ne.
  - intros category Hcat. split.
    + intros H. apply map_eq. intros k. destruct (decide (k = self)) as [-> | Hne].
      * rewrite !lookup_alter_eq. destruct (arrays !! self) as [l|]; [|reflexivity].
        simpl in *. f_equal.
        rewrite <- (app_nil_r (l ++ [category])), <- app_assoc. cbn [app].
        rewrite removeFrom_first; [apply app_nil_r | exact Hcat | exact H].
      * now rewrite !lookup_alter_ne.
    + intros l1 c l2 E Hc H. rewrite !lookup_alter_eq.
      destruct (arrays !! self) as [l|]; simpl in *.
      * subst l. rewrite <- app_assoc. cbn [app].
        now rewrite removeFrom_first.
      * now destruct l1.
Qed.

(** X18: the categorizers built without categories of their own share one
    array, the module's [DEFAULT_CATEGORIES]: a category added through one
    of them is in the list of every other one, while adding to a
    categorizer with an array of its own leaves the defaults alone. *)
Theorem addCategory_shares_defaults (category : Category) :
  let first := construct None in
  let second := construct None in
  categoriesOf second (addCategory first category initialArrays)
  = DEFAULT_CATEGORIES ++ [category] /\
  (forall own arrays,
     own <> defaultCategories ->
     categoriesOf second (addCategory (construct (Some own)) category arrays)
     = categoriesOf second arrays) /\
  (forall self arrays,
     getCategories self (addCategory self category arrays)
     = match arrays !! self with
       | Some cs => cs ++ [category]
       | None => []
       end).
Proof.
  cbv zeta. unfold construct, getCategories, categoriesOf, addCategory, initialArrays, Arrays in *.
  cbn [default]. split; [|split].
  - rewrite lookup_alter_eq. now rewrite lookup_singleton_eq.
  - intros own arrays Hne. now rewrite lookup_alter_ne.
  - intros self arrays. rewrite lookup_alter_eq. now destruct (arrays !! self).
Qed.

End CategoryList.

(** *** Query refiner: the refined queries *)

Section RefinedQueries.
Import Refiner.

Lemma uniq_go_length {A} (eqb : A -> A -> bool) seen l :
  length (JS.uniq_go eqb seen l) <= length l.
Proof.
  revert seen. induction l as [|x l IH]; intros seen; simpl; [lia|].
  destruct (existsb (eqb x) seen); [specialize (IH seen) | specialize (IH (x :: seen)); simpl]; lia.
Qed.

Lemma uniq_length {A} (eqb : A -> A -> bool) l : length (JS.uniq eqb l) <= length l.
Proof. apply uniq_go_length. Qed.

(** X19: [buildRefinedQueries] never repeats a query and returns nothing
    for no term.  Expanding gives, for every selected term, the original
    query followed by the term, and one query more at most (the first two
    terms together); narrowing gives, for every term, the quoted original
    query followed by the quoted term, and nothing else; a pivot gives
    every term itself, and one query more at most (all terms together). *)
Theorem buildRefinedQueries_spec (self : QueryRefiner) (selectedTerms : list string)
    (strategy : Strategy) :
  let queries := buildRefinedQueries self selectedTerms strategy in
  NoDup queries /\
  (selectedTerms = [] -> queries = []) /\
  length queries <= length selectedTerms + 1 /\
  match strategy with
  | Expand =>
      (forall t, t ∈ selectedTerms -> originalQuery self +:+ " " +:+ t ∈ queries) /\
      (forall q, q ∈ queries ->
         (exists t, t ∈ selectedTerms /\ q = originalQuery self +:+ " " +:+ t) \/
         (2 <= length selectedTerms /\
          q = originalQuery self +:+ " " +:+ JS.join " " (take 2 selectedTerms)))
  | Narrow =>
      length queries <= length selectedTerms /\
      (forall q, q ∈ queries <->
         exists t, t ∈ selectedTerms /\
           q = dquote +:+ originalQuery self +:+ dquote +:+ " " +:+ dquote +:+ t +:+ dquote)
  | Pivot =>
      (forall t, t ∈ selectedTerms -> t ∈ queries) /\
      (forall q, q ∈ queries ->
         q ∈ selectedTerms \/ (2 <= length selectedTerms /\ q = JS.join " " selectedTerms))
  end.
Proof.
  cbv zeta. unfold buildRefinedQueries.
  split; [apply uniq_NoDup, String.eqb_eq|].
  split; [intros ->; now destruct strategy|].
  split.
  { etransitivity; [apply uniq_length|].
    destruct strategy; rewrite ?length_app, ?length_map;
      try destruct (decide (2 <= length selectedTerms)); simpl; lia. }
  destruct strategy.
  - split.
    + intros t Ht. apply uniq_elem_of; [apply String.eqb_eq|].
      rewrite elem_of_app. left. apply list_elem_of_In, in_map_iff.
      exists t. split; [reflexivity | now apply list_elem_of_In].
    + intros q Hq. apply uniq_elem_of in Hq; [|apply String.eqb_eq].
      apply elem_of_app in Hq as [Hq | Hq].
      * left. apply list_elem_of_In, in_map_iff in Hq as (t & <- & Ht).
        exists t. split; [now apply list_elem_of_In | reflexivity].
      * right. destruct (decide (2 <= length selectedTerms)); [|now apply elem_of_nil in Hq].
        apply list_elem_of_singleton in Hq. now split.
  - split.
    + etransitivity; [apply uniq_length|]. now rewrite length_map.
    + intros q. rewrite uniq_elem_of by apply String.eqb_eq.
      rewrite list_elem_of_In, in_map_iff. split.
      * intros (t & <- & Ht). exists t. split; [now apply list_elem_of_In | reflexivity].
      * intros (t & Ht & ->). exists t. split; [reflexivity | now apply list_elem_of_In].
  - split.
    + intros t Ht. apply uniq_elem_of; [apply String.eqb_eq|].
      rewrite elem_of_app. now left.
    + intros q Hq. apply uniq_elem_of in Hq; [|apply String.eqb_eq].
      apply elem_of_app in Hq as [Hq | Hq]; [now left|].
      right. destruct (decide (2 <= length selectedTerms)); [|now apply elem_of_nil in Hq].
      apply list_elem_of_singleton in Hq. now split.
Qed.

End RefinedQueries.

(** *** Query refiner: the suggestions *)

Section SuggestionFacts.
Import Refiner.
Local Open Scope Q_scope.

Lemma fold_left_Forall {A B} (P : B -> Prop) (f : list B -> A -> list B) l acc :
  (forall acc x, x ∈ l -> Forall P acc -> Forall P (f acc x)) ->
  Forall P acc -> Forall P (fold_left f l acc).
Proof.
  revert acc. induction l as [|x l IH]; intros acc Hf Hacc; [exact Hacc|].
  cbn [fold_left]. apply IH.
  - intros acc' y Hy. apply Hf. now right.
  - apply Hf; [left | exact Hacc].
Qed.

Lemma toLowerCase_app a b :
  JS.toLowerCase (a +:+ b) = JS.toLowerCase a +:+ JS.toLowerCase b.
Proof. induction a as [|c a IH]; simpl; [reflexivity | now rewrite IH]. Qed.

Lemma includes_space_middle a b : JS.includes (a +:+ " " +:+ b) " " = true.
Proof.
  induction a as [|c a IH]; [now destruct b|].
  change ((String c a) +:+ " " +:+ b) with (String c (a +:+ " " +:+ b)).
  cbn [JS.includes]. rewrite IH. apply orb_true_r.
Qed.

Lemma bigramsOf_keys tokens :
  Forall (fun bigram => bigramKey (JS.toLowerCase bigram)) (bigramsOf tokens).
Proof.
  induction tokens as [|t1 [|t2 rest] IH]; simpl; [constructor .. |].
  constructor; [|exact IH]. split.
  - rewrite !toLowerCase_app. apply includes_space_middle.
  - apply toLowerCase_idem.
Qed.

Lemma addNormalized_keys (P : string -> Prop) freq normalized source weight :
  P normalized -> Forall (fun e => P (fst e)) freq ->
  Forall (fun e => P (fst e)) (addNormalized freq normalized source weight).
Proof.
  intros Hn. induction 1 as [|[k data] freq Hk Hfreq IH]; simpl.
  - constructor; [exact Hn | constructor].
  - destruct (String.eqb k normalized); constructor; simpl in *; auto.
Qed.

Lemma collect_bigramKeys parseURL self maps result :
  Forall (fun e => bigramKey (fst e)) (snd maps) ->
  Forall (fun e => bigramKey (fst e)) (snd (collect parseURL self maps result)).
Proof.
  intros H. unfold collect, processText. cbn [fst snd].
  assert (forall tokens source weight freq,
            Forall (fun e => bigramKey (fst e)) freq ->
            Forall (fun e => bigramKey (fst e))
              (fold_left (fun bigramFreq bigram => addTerm bigramFreq bigram source weight)
                         (bigramsOf tokens) freq)) as Hfold.
  { intros tokens source weight freq Hfreq.
    pose proof (bigramsOf_keys tokens) as Hb. revert freq Hfreq.
    induction Hb as [|x l Hx _ IH]; intros freq Hfreq; [exact Hfreq|].
    cbn [fold_left]. apply IH. unfold addTerm. now apply addNormalized_keys. }
  apply Hfold, Hfold, H.
Qed.

Lemma bigramFrequency_keys parseURL self results :
  Forall (fun e => bigramKey (fst e)) (snd (fold_left (collect parseURL self) results ([], []))).
Proof.
  assert (forall maps, Forall (fun e => bigramKey (fst e)) (snd maps) ->
            Forall (fun e => bigramKey (fst e))
                   (snd (fold_left (collect parseURL self) results maps))) as H.
  { induction results as [|r results IH]; intros maps Hm; [exact Hm|].
    cbn [fold_left]. apply IH. now apply collect_bigramKeys. }
  apply H. constructor.
Qed.

Lemma stop_words_have_no_space w : isStopWord w = true -> JS.includes w " " = false.
Proof.
  unfold isStopWord. intros H. apply existsb_exists in H as (x & Hx & E).
  apply String.eqb_eq in E. subst x.
  assert (forallb (fun x => negb (JS.includes x " ")) STOP_WORDS = true) as Hall
    by (vm_compute; reflexivity).
  rewrite forallb_forall in Hall. apply Hall in Hx. now apply negb_true_iff in Hx.
Qed.

Lemma calculateScore_le_1 term frequency sources totalResults :
  calculateScore term frequency sources totalResults <= 1.
Proof. unfold calculateScore. apply Q.le_min_l. Qed.

Lemma shouldIncludeTerm_not_stop self term :
  shouldIncludeTerm self term = true -> isStopWord (JS.toLowerCase term) = false.
Proof. unfold shouldIncludeTerm. now destruct (isStopWord (JS.toLowerCase term)). Qed.

Lemma bySuggestionScoreDesc_true a b :
  bySuggestionScoreDesc a b = true -> score a <= score b.
Proof. unfold bySuggestionScoreDesc. rewrite positive_true. lra. Qed.

Lemma bySuggestionScoreDesc_false a b :
  bySuggestionScoreDesc a b = false -> score b <= score a.
Proof. unfold bySuggestionScoreDesc. rewrite positive_false. lra. Qed.

Lemma StronglySorted_take {A} (R : A -> A -> Prop) n l :
  StronglySorted R l -> StronglySorted R (take n l).
Proof.
  intros H. revert n. induction H as [|x l Hl IH Hx]; intros [|n]; simpl; try constructor.
  - apply IH.
  - rewrite Forall_forall in *. intros y Hy. apply Hx.
    eapply elem_of_sublist; [exact Hy|]. apply sublist_take.
Qed.

(** X20: [extractSuggestions] returns at most [maxSuggestions] suggestions
    (10 unless configured), in descending order of score, and none for no
    result.  No suggestion is a stop word and no score exceeds 1.2.  Every
    suggestion either passes [shouldIncludeTerm], with a score of at most 1,
    or is a bigram: two tokens around a space, counted at least twice, marked
    as combined, and present only when bigrams are not switched off. *)
Theorem extractSuggestions_spec (parseURL : URLParser) (self : QueryRefiner)
    (results : list SearchResult) :
  let out := extractSuggestions parseURL self results in
  (length out <= default 10 (maxSuggestions (options self)))%nat /\
  StronglySorted (fun a b => score b <= score a) out /\
  (results = [] -> out = []) /\
  Forall (fun s =>
            score s <= 1.2 /\
            isStopWord (JS.toLowerCase (term s)) = false /\
            ((shouldIncludeTerm self (term s) = true /\ score s <= 1) \/
             (includeNgrams (options self) <> Some false /\
              source s = "combined" /\
              JS.includes (term s) " " = true /\
              2 <= frequency s)))
         out.
Proof.
  cbv zeta. unfold extractSuggestions.
  pose proof (bigramFrequency_keys parseURL self results) as Hkeys.
  destruct (fold_left (collect parseURL self) results ([], [])) as [termFrequency bigramFrequency]
    eqn:Emaps.
  cbn [snd] in Hkeys.
  set (P := fun s : RefinementSuggestion =>
              score s <= 1.2 /\
              isStopWord (JS.toLowerCase (term s)) = false /\
              ((shouldIncludeTerm self (term s) = true /\ score s <= 1) \/
               (includeNgrams (options self) <> Some false /\
                source s = "combined" /\
                JS.includes (term s) " " = true /\
                2 <= frequency s))).
  set (terms := fold_left (pushTerm self (length results)) termFrequency []).
  assert (Forall P terms) as Hterms.
  { apply fold_left_Forall; [|constructor].
    intros acc [t data] _ Hacc. unfold pushTerm.
    destruct (shouldIncludeTerm self t) eqn:E; [|exact Hacc].
    apply Forall_app. split; [exact Hacc|]. constructor; [|constructor].
    unfold P. cbn [score term]. split; [|split].
    - pose proof (calculateScore_le_1 t (count data) (sources data) (length results)). lra.
    - now apply (shouldIncludeTerm_not_stop self).
    - left. split; [exact E | apply calculateScore_le_1]. }
  set (all := if negb (bool_decide (includeNgrams (options self) = Some false))
              then fold_left (pushBigram (length results)) bigramFrequency terms
              else terms).
  assert (Forall P all) as Hall.
  { unfold all. destruct (bool_decide (includeNgrams (options self) = Some false)) eqn:En;
      cbn [negb]; [exact Hterms|].
    apply bool_decide_eq_false in En.
    apply fold_left_Forall; [|exact Hterms].
    intros acc [k data] Hin Hacc. unfold pushBigram.
    destruct (Qle_bool 2 (count data)) eqn:E; [|exact Hacc].
    rewrite Forall_forall in Hkeys. destruct (Hkeys _ Hin) as [Hspace Hlower]. cbn [fst] in *.
    apply Forall_app. split; [exact Hacc|]. constructor; [|constructor].
    unfold P. cbn [score term source frequency]. split; [|split].
    - pose proof (calculateScore_le_1 k (count data) (sources data) (length results)). lra.
    - rewrite Hlower. destruct (isStopWord k) eqn:Es; [|reflexivity].
      apply stop_words_have_no_space in Es. congruence.
    - right. repeat split; [exact En | exact Hspace | now apply Qle_bool_iff]. }
  split; [|split; [|split]].
  - rewrite length_take. lia.
  - apply StronglySorted_take, sortBy_sorted.
    + intros a b c H1 H2. lra.
    + apply bySuggestionScoreDesc_true.
    + apply bySuggestionScoreDesc_false.
  - intros ->. cbn [fold_left] in Emaps. injection Emaps as <- <-.
    unfold all, terms. cbn [fold_left]. destruct (negb _); cbn [JS.sortBy]; apply take_nil.
  - apply Forall_forall. intros s Hs.
    apply elem_of_take in Hs as (i & Hs & _). apply list_elem_of_lookup_2 in Hs.
    apply sortBy_elem_of in Hs. rewrite Forall_forall in Hall. now apply Hall.
Qed.

End SuggestionFacts.

(** *** The tokenizers *)

Section Tokens.

(** The pieces between runs of white space are made of the characters that
    are not white space. *)
Lemma splitSpaces_go_every (q : ascii -> bool) s cur inRun :
  JS.everyChar (fun c => JS.isSpace c || q c) s = true ->
  JS.everyChar q cur = true ->
  Forall (fun piece => JS.everyChar q piece = true) (JS.splitSpaces_go s cur inRun).
Proof.
  revert cur inRun. induction s as [|c s IH]; intros cur inRun Hs Hcur; simpl.
  - constructor; [now rewrite everyChar_rev | constructor].
  - simpl in Hs. apply andb_true_iff in Hs as [Hc Hs].
    destruct (JS.isSpace c) eqn:E.
    + destruct inRun.
      * now apply IH.
      * constructor; [now rewrite everyChar_rev | now apply IH].
    + apply IH; [exact Hs|]. simpl. now rewrite Hcur, andb_true_r.
Qed.

Lemma everyChar_mapChars p f s :
  (forall c, p (f c) = true) -> JS.everyChar p (JS.mapChars f s) = true.
Proof. intros H. induction s as [|c s IH]; simpl; [reflexivity | now rewrite H, IH]. Qed.

Lemma mapChars_toLowerCase f s :
  JS.mapChars f (JS.toLowerCase s) = JS.mapChars (fun c => f (JS.lowerChar c)) s.
Proof. induction s as [|c s IH]; simpl; [reflexivity | now rewrite IH]. Qed.

Lemma keepWordSpace_lower c :
  let c' := Scorer.keepWordSpace (JS.lowerChar c) in
  JS.isSpace c' || JS.isLowerWord c' = true.
Proof. destruct c as [[] [] [] [] [] [] [] []]; vm_compute; reflexivity. Qed.

Lemma keepWordSpaceHyphen_lower c :
  let c' := Refiner.keepWordSpaceHyphen (JS.lowerChar c) in
  JS.isSpace c' || (JS.isLowerWord c' || Ascii.eqb c' "-") = true.
Proof. destruct c as [[] [] [] [] [] [] [] []]; vm_compute; reflexivity. Qed.

Lemma lowerChar_fixed c :
  JS.isLowerWord c || Ascii.eqb c "-" = true -> JS.lowerChar c = c.
Proof. destruct c as [[] [] [] [] [] [] [] []]; vm_compute; congruence. Qed.

Lemma toLowerCase_fixed t :
  JS.everyChar (fun c => JS.isLowerWord c || Ascii.eqb c "-") t = true ->
  JS.toLowerCase t = t.
Proof.
  induction t as [|c t IH]; simpl; [reflexivity|].
  intros H. apply andb_true_iff in H as [Hc Ht]. now rewrite (lowerChar_fixed c Hc), IH.
Qed.

Lemma everyChar_impl (p q : ascii -> bool) s :
  (forall c, p c = true -> q c = true) -> JS.everyChar p s = true -> JS.everyChar q s = true.
Proof.
  intros H. induction s as [|c s IH]; simpl; [reflexivity|].
  intros Hs. apply andb_true_iff in Hs as [Hc Hs]. now rewrite (H c Hc), IH.
Qed.

Lemma word_pieces text :
  Forall (fun piece => JS.everyChar JS.isLowerWord piece = true)
    (JS.splitSpaces (JS.mapChars Scorer.keepWordSpace (JS.toLowerCase text))).
Proof.
  apply splitSpaces_go_every; [|reflexivity].
  rewrite mapChars_toLowerCase. apply everyChar_mapChars. apply keepWordSpace_lower.
Qed.

(** X21: what a token is.  The tokens of the scorer and of the BM25 ranker
    are runs of the characters [a-z0-9_], longer than 2 and than 1
    characters; those of the query refiner may also hold hyphens and have
    the configured minimum length (3 unless given).  No token holds white
    space, a capital or a punctuation mark: lower-casing a token gives the
    token back. *)
Theorem tokens_shape (options : Refiner.RefinementOptions) (text : string) :
  Forall (fun t => 2 < JS.len t /\ JS.everyChar JS.isLowerWord t = true /\
                   JS.toLowerCase t = t)
         (Scorer.tokenize text) /\
  Forall (fun t => 1 < JS.len t /\ JS.everyChar JS.isLowerWord t = true /\
                   JS.toLowerCase t = t)
         (BM25.tokenize text) /\
  Forall (fun t => default 3 (Refiner.minTermLength options) <= JS.len t /\
                   JS.everyChar (fun c => JS.isLowerWord c || Ascii.eqb c "-") t = true /\
                   JS.toLowerCase t = t)
         (Refiner.tokenize options text).
Proof.
  assert (forall t, JS.everyChar JS.isLowerWord t = true -> JS.toLowerCase t = t) as Hlow.
  { intros t H. apply toLowerCase_fixed. revert H. apply everyChar_impl.
    intros c ->. reflexivity. }
  split; [|split].
  - unfold Scorer.tokenize. apply Forall_forall. intros t Ht.
    apply list_elem_of_filter in Ht as [Hlen Ht].
    pose proof (word_pieces text) as H. rewrite Forall_forall in H.
    specialize (H t Ht). auto.
  - unfold BM25.tokenize. apply Forall_forall. intros t Ht.
    apply list_elem_of_filter in Ht as [Hlen Ht].
    pose proof (word_pieces text) as H. rewrite Forall_forall in H.
    specialize (H t Ht). auto.
  - unfold Refiner.tokenize. apply Forall_forall. intros t Ht.
    apply list_elem_of_filter in Ht as [Hlen Ht].
    assert (Forall (fun piece =>
                      JS.everyChar (fun c => JS.isLowerWord c || Ascii.eqb c "-") piece = true)
              (JS.splitSpaces (JS.mapChars Refiner.keepWordSpaceHyphen (JS.toLowerCase text))))
      as H.
    { apply splitSpaces_go_every; [|reflexivity].
      rewrite mapChars_toLowerCase. apply everyChar_mapChars.
      apply keepWordSpaceHyphen_lower. }
    rewrite Forall_forall in H. specialize (H t Ht).
    split; [exact Hlen|]. split; [exact H | now apply toLowerCase_fixed].
Qed.

End Tokens.

(** *** Fetcher: every run *)

Section FetcherRuns.
Import Fetcher.
Variable self : Fetcher.
Variable providers : list Provider.
Variable query optionsKey : string.
Local Abbreviation step := (Fetcher.step self providers query optionsKey).
Local Abbreviation weight := (Fetcher.weight self).

Lemma weight_initial cache0 :
  weight (initial providers cache0) = length providers * (retries self + 4).
Proof.
  unfold Fetcher.weight, initial. cbn [phases].
  induction (length providers) as [|n IH]; [reflexivity|].
  cbn [replicate]. rewrite fmap_cons. cbn [sum_list sum_list_with]. rewrite IH.
  unfold id. simpl. lia.
Qed.

Lemma nsteps_weight n s s' : nsteps step n s s' -> n + weight s' <= weight s.
Proof.
  induction 1 as [|n x y z Hstep _ IH]; [lia|].
  pose proof (step_weight self providers query optionsKey _ _ Hstep). lia.
Qed.

Lemma rtc_length s s' : rtc step s s' -> length (phases s') = length (phases s).
Proof.
  induction 1 as [|x y z Hstep _ IH]; [reflexivity|].
  rewrite IH. eapply step_length. exact Hstep.
Qed.

(** X22: [fetchAll] always comes to an end.  From the state in which the
    tasks are queued, no run takes more than (retries + 4) steps per
    provider, and (the fetcher running at least one task at a time) every
    state a run reaches can be continued to one in which all tasks have
    settled, where [Promise.all] resolves. *)
Theorem fetchAll_terminates (cache0 : gmap string (list SearchResult)) :
  1 <= concurrency self ->
  (forall n s, nsteps step n (initial providers cache0) s ->
     n <= length providers * (retries self + 4)) /\
  (forall s, rtc step (initial providers cache0) s ->
     exists s', rtc step s s' /\ final s').
Proof.
  intros Hc. split.
  - intros n s Hn. apply nsteps_weight in Hn. rewrite weight_initial in Hn. lia.
  - intros s Hs. apply completes; [|exact Hc].
    rewrite (rtc_length _ _ Hs). unfold initial. cbn [phases]. apply length_replicate.
Qed.

Lemma rtc_invariant (P : State -> Prop) s0 s :
  (forall s s', step s s' -> P s -> P s') -> P s0 -> rtc step s0 s -> P s.
Proof. intros Hstep H0 Hrun. induction Hrun; eauto. Qed.

(** **** Who has settled *)

Lemma settledNames_insert ps phs i ph ph' p :
  phs !! i = Some ph -> settled ph = false -> ps !! i = Some p ->
  settledNames ps (<[i := ph']> phs)
  ≡ₚ (if settled ph' then [name p] else []) ++ settledNames ps phs.
Proof.
  unfold settledNames. revert phs i. induction ps as [|p0 ps IH]; intros phs i Hph Hs Hp.
  - discriminate.
  - destruct phs as [|ph0 phs]; [discriminate|]. destruct i as [|i].
    + injection Hph as ->. injection Hp as ->.
      change (<[0:=ph']> (ph :: phs)) with (ph' :: phs). cbn [zip zip_with].
      rewrite !filter_cons. cbn [snd]. rewrite Hs.
      rewrite (decide_False (P := false = true)) by discriminate.
      destruct (settled ph').
      * rewrite decide_True by reflexivity. reflexivity.
      * rewrite (decide_False (P := false = true)) by discriminate. reflexivity.
    + change (<[S i:=ph']> (ph0 :: phs)) with (ph0 :: <[i:=ph']> phs). cbn [zip zip_with].
      rewrite !filter_cons. cbn [snd].
      specialize (IH phs i Hph Hs Hp).
      destruct (decide (settled ph0 = true)).
      * rewrite !fmap_cons, IH. cbn [fst]. destruct (settled ph'); [|reflexivity].
        simpl. apply perm_swap.
      * exact IH.
Qed.

Lemma settledNames_final ps phs :
  length phs = length ps -> Forall (fun ph => ph = Settled) phs ->
  settledNames ps phs = name <$> ps.
Proof.
  unfold settledNames. revert phs. induction ps as [|p ps IH]; intros [|ph phs] Hl Hf;
    try discriminate; [reflexivity|].
  apply Forall_cons in Hf as [-> Hf]. cbn [zip zip_with]. rewrite filter_cons. cbn [snd settled].
  rewrite decide_True by reflexivity. rewrite !fmap_cons. cbn [fst]. f_equal.
  apply IH; [simpl in Hl; lia | exact Hf].
Qed.

Local Abbreviation accounted := (Fetcher.accounted providers).

Lemma accounted_setPhase s i ph ph' p :
  phases s !! i = Some ph -> settled ph = false -> providers !! i = Some p ->
  settled ph' = false -> accounted s -> accounted (setPhase s i ph').
Proof.
  intros H Hs Hp Hs' Hacc. unfold Fetcher.accounted in *. cbn [setPhase phases successfulProviders errors].
  rewrite (settledNames_insert _ _ _ _ _ _ H Hs Hp), Hs'. exact Hacc.
Qed.

Lemma accounted_succeed s i ph p rs :
  phases s !! i = Some ph -> settled ph = false -> providers !! i = Some p ->
  accounted s -> accounted (succeed s i p rs).
Proof.
  intros H Hs Hp Hacc. unfold Fetcher.accounted in *. cbn [succeed phases successfulProviders errors].
  rewrite (settledNames_insert _ _ _ _ _ _ H Hs Hp). cbn [settled].
  rewrite <- Hacc. solve_Permutation.
Qed.

Lemma accounted_fail s i ph p e :
  phases s !! i = Some ph -> settled ph = false -> providers !! i = Some p ->
  accounted s -> accounted (fail s i p e).
Proof.
  intros H Hs Hp Hacc. unfold Fetcher.accounted in *. cbn [fail phases successfulProviders errors].
  rewrite (settledNames_insert _ _ _ _ _ _ H Hs Hp). cbn [settled].
  rewrite <- Hacc, fmap_app. cbn [fmap list_fmap provider]. solve_Permutation.
Qed.

Lemma zip_insert_beyond (ps : list Provider) (phs : list Phase) i x :
  ps !! i = None -> zip ps (<[i := x]> phs) = zip ps phs.
Proof.
  revert phs i. induction ps as [|p0 ps IH]; intros phs i Hp; [reflexivity|].
  destruct phs as [|ph0 phs]; [reflexivity|]. destruct i as [|i]; [discriminate|].
  change (<[S i:=x]> (ph0 :: phs)) with (ph0 :: <[i:=x]> phs). cbn [zip zip_with].
  f_equal. now apply IH.
Qed.

Lemma step_accounted s s' : step s s' -> accounted s -> accounted s'.
Proof.
  intros Hstep Hinv.
  destruct Hstep as [s i H _ Hlim | s i p cached H Hp Hc | s i H | s i p n rs' H Hp Hs
                    | s i p n e H Hp Hs _ Hn | s i p n e H Hp Hs _ | s i p rs' H Hp
                    | s i p rs' H Hp].
  - unfold Fetcher.accounted in *. cbn [setPhase phases successfulProviders errors].
    destruct (providers !! i) as [p|] eqn:Hp.
    + rewrite (settledNames_insert _ _ _ _ _ _ H eq_refl Hp).
      now destruct (cacheInUse self).
    + unfold settledNames. now rewrite (zip_insert_beyond _ _ _ _ Hp).
  - eapply accounted_succeed; eauto.
  - unfold Fetcher.accounted in *. cbn [setPhase phases successfulProviders errors].
    destruct (providers !! i) as [p|] eqn:Hp.
    + now rewrite (settledNames_insert _ _ _ _ _ _ H eq_refl Hp).
    + unfold settledNames. now rewrite (zip_insert_beyond _ _ _ _ Hp).
  - destruct (cacheInUse self && (0 <? length rs')).
    + eapply accounted_setPhase; eauto.
    + eapply accounted_succeed; eauto.
  - eapply accounted_setPhase; eauto.
  - eapply accounted_fail; eauto.
  - change (accounted (succeed (writeCache s (keyOfProvider query optionsKey p) rs') i p rs'))
      with (accounted (succeed s i p rs')).
    eapply accounted_succeed; eauto.
  - eapply accounted_succeed; eauto.
Qed.

(** X24: every provider is accounted for exactly once.  In every state a
    run reaches, the names pushed to [successfulProviders] and the tags of
    the error records are, together, the names of the providers whose task
    has settled; when all have settled, they are the names of all the
    providers (up to order), so the two arrays have one entry per provider
    between them. *)
Theorem fetchAll_accounts (cache0 : gmap string (list SearchResult)) (s : State) :
  rtc step (initial providers cache0) s ->
  successfulProviders s ++ (provider <$> errors s)
    ≡ₚ settledNames providers (phases s) /\
  (final s ->
   successfulProviders s ++ (provider <$> errors s) ≡ₚ name <$> providers /\
   length (successfulProviders s) + length (errors s) = length providers).
Proof.
  intros Hrun.
  assert (accounted s) as Hacc.
  { revert Hrun. apply (rtc_invariant accounted); [apply step_accounted|].
    unfold Fetcher.accounted, initial. cbn [phases successfulProviders errors].
    unfold settledNames. generalize providers as ps.
    induction ps as [|p ps IH]; [reflexivity|].
    cbn [length replicate zip zip_with]. rewrite filter_cons. cbn [snd settled].
    rewrite decide_False by discriminate. exact IH. }
  split; [exact Hacc|]. intros Hf.
  assert (successfulProviders s ++ (provider <$> errors s) ≡ₚ name <$> providers) as HP.
  { unfold Fetcher.accounted in Hacc. rewrite Hacc. rewrite settledNames_final; [reflexivity | | exact Hf].
    rewrite (rtc_length _ _ Hrun). unfold initial. cbn [phases]. apply length_replicate. }
  split; [exact HP|].
  apply Permutation_length in HP. rewrite length_app, !length_fmap in HP. exact HP.
Qed.

(** **** Where results and errors come from *)

Lemma returnedBy_lookup cache0 p n rs :
  p ∈ providers -> search p n = Returns rs -> Forall (returnedBy providers cache0) rs.
Proof.
  intros Hp Hs. apply Forall_forall. intros r Hr. left. now exists p, n, rs.
Qed.

Lemma step_provenance cache0 s s' :
  step s s' -> provenance providers cache0 s -> provenance providers cache0 s'.
Proof.
  intros Hstep (Hres & Herr & Hcache & Hset).
  assert (forall i ph, (forall rs, ph <> AwaitCacheSet rs) ->
            forall j rs, <[i := ph]> (phases s) !! j = Some (AwaitCacheSet rs) ->
                         Forall (returnedBy providers cache0) rs) as Hins.
  { intros i ph Hph j rs Hj. destruct (decide (i = j)) as [<- | Hne].
    - apply list_lookup_insert_Some in Hj as [(_ & E & _) | [? _]]; [|congruence].
      subst ph. now destruct (Hph rs).
    - rewrite list_lookup_insert_ne in Hj by exact Hne. now apply (Hset j). }
  destruct Hstep as [s i H _ Hlim | s i p cached H Hp Hc | s i H | s i p n rs' H Hp Hs
                    | s i p n e H Hp Hs _ Hn | s i p n e H Hp Hs _ | s i p rs' H Hp
                    | s i p rs' H Hp].
  - repeat split; auto. cbn [setPhase phases]. apply Hins.
    intros rs. destruct (cacheInUse self); discriminate.
  - repeat split; cbn [succeed results errors cache phases]; auto.
    + apply Forall_app. split; [exact Hres | now apply (Hcache _ _ Hc)].
    + apply Hins. discriminate.
  - repeat split; auto. cbn [setPhase phases]. apply Hins. discriminate.
  - assert (Forall (returnedBy providers cache0) rs') as Hrs.
    { eapply returnedBy_lookup; [|exact Hs]. eapply list_elem_of_lookup_2; eauto. }
    destruct (cacheInUse self && (0 <? length rs')).
    + repeat split; auto. cbn [setPhase phases]. intros j rs Hj.
      destruct (decide (i = j)) as [<- | Hne].
      * apply list_lookup_insert_Some in Hj as [(_ & E & _) | [? _]]; [|congruence].
        now injection E as <-.
      * rewrite list_lookup_insert_ne in Hj by exact Hne. now apply (Hset j).
    + repeat split; cbn [succeed results errors cache phases]; auto.
      * apply Forall_app. now split.
      * apply Hins. discriminate.
  - repeat split; auto. cbn [setPhase phases]. apply Hins. discriminate.
  - repeat split; cbn [fail results errors cache phases]; auto.
    + apply Forall_app. split; [exact Herr|]. constructor; [|constructor].
      exists p, n, e. repeat split; [|exact Hs]. eapply list_elem_of_lookup_2; eauto.
    + apply Hins. discriminate.
  - pose proof (Hset i rs' H) as Hrs.
    repeat split; cbn [succeed writeCache results errors cache phases]; auto.
    + apply Forall_app. now split.
    + intros key cached Hk. destruct (decide (keyOfProvider query optionsKey p = key)) as [<- | Hne].
      * rewrite lookup_insert_eq in Hk. now injection Hk as <-.
      * rewrite lookup_insert_ne in Hk by exact Hne. now apply (Hcache key).
    + apply Hins. discriminate.
  - pose proof (Hset i rs' H) as Hrs.
    repeat split; cbn [succeed results errors cache phases]; auto.
    + apply Forall_app. now split.
    + apply Hins. discriminate.
Qed.

(** X25: [fetchAll] makes nothing up.  In every state a run reaches, every
    result in [results] was returned by a call of one of the providers or
    was held by the cache before the fetch (by a call, then, when the cache
    was empty), and every record in [errors] is what a call of one of the
    providers threw, with that provider's name, the message and the status
    code. *)
Theorem fetchAll_provenance (cache0 : gmap string (list SearchResult)) (s : State) :
  rtc step (initial providers cache0) s ->
  Forall (returnedBy providers cache0) (results s) /\
  Forall (thrownBy providers) (errors s) /\
  (cache0 = ∅ ->
   Forall (fun r => exists p n rs, p ∈ providers /\ search p n = Returns rs /\ r ∈ rs)
          (results s)).
Proof.
  intros Hrun.
  assert (provenance providers cache0 s) as (Hres & Herr & _).
  { revert Hrun.
    apply (rtc_invariant (provenance providers cache0)); [apply step_provenance|].
    unfold provenance, initial. cbn [results errors cache phases].
    repeat split; try constructor.
    - intros key cached Hk. apply Forall_forall. intros r Hr. right. now exists key, cached.
    - intros i rs Hi. apply lookup_replicate in Hi as [Hi _]. discriminate. }
  split; [exact Hres|]. split; [exact Herr|].
  intros ->. eapply Forall_impl; [exact Hres|].
  intros r [H | (key & cached & Hk & _)]; [exact H|].
  rewrite lookup_empty in Hk. discriminate.
Qed.

End FetcherRuns.

Section FetcherRunsExamples.
Import Fetcher Samples.

(** A whole run of the sample fetch, from the queued tasks to the settled
    state. *)
Local Abbreviation sampleStep :=
  (step cachingFetcher [failingProvider; workingProvider] "typescript" "{}").

Lemma sample_run :
  rtc sampleStep (initial [failingProvider; workingProvider] ∅) settledFetch.
Proof.
  (* both tasks start *)
  eapply rtc_l.
  { apply (step_start cachingFetcher [failingProvider; workingProvider] "typescript" "{}"
             _ 0); [reflexivity | intros j Hj; lia | vm_compute; lia]. }
  eapply rtc_l.
  { apply (step_start cachingFetcher [failingProvider; workingProvider] "typescript" "{}"
             _ 1); [reflexivity | | vm_compute; lia].
    intros j Hj. destruct j as [|j]; [discriminate | lia]. }
  (* the failing provider: a miss, three attempts, the error *)
  eapply rtc_l.
  { apply (step_cache_miss cachingFetcher [failingProvider; workingProvider] "typescript" "{}"
             _ 0); reflexivity. }
  eapply rtc_l.
  { eapply (step_search_retry cachingFetcher [failingProvider; workingProvider]
              "typescript" "{}" _ 0 failingProvider 1);
      [reflexivity | reflexivity | reflexivity | reflexivity | vm_compute; lia]. }
  eapply rtc_l.
  { eapply (step_search_retry cachingFetcher [failingProvider; workingProvider]
              "typescript" "{}" _ 0 failingProvider 2);
      [reflexivity | reflexivity | reflexivity | reflexivity | vm_compute; lia]. }
  eapply rtc_l.
  { eapply (step_search_gives_up cachingFetcher [failingProvider; workingProvider]
              "typescript" "{}" _ 0 failingProvider 3);
      [reflexivity | reflexivity | reflexivity | right; vm_compute; lia]. }
  (* the working provider: a miss, the results, the cache write *)
  eapply rtc_l.
  { apply (step_cache_miss cachingFetcher [failingProvider; workingProvider] "typescript" "{}"
             _ 1); reflexivity. }
  eapply rtc_l.
  { eapply (step_search_returns cachingFetcher [failingProvider; workingProvider]
              "typescript" "{}" _ 1 workingProvider 1); reflexivity. }
  eapply rtc_l.
  { eapply (step_cache_written cachingFetcher [failingProvider; workingProvider]
              "typescript" "{}" _ 1 workingProvider [otherPage]); reflexivity. }
  apply rtc_refl.
Qed.

Lemma fetchAll_terminates_witness :
  (forall n s,
     nsteps (step cachingFetcher [failingProvider; workingProvider] "typescript" "{}") n
            (initial [failingProvider; workingProvider] ∅) s ->
     n <= 2 * (2 + 4)) /\
  (forall s,
     rtc (step cachingFetcher [failingProvider; workingProvider] "typescript" "{}")
         (initial [failingProvider; workingProvider] ∅) s ->
     exists s',
       rtc (step cachingFetcher [failingProvider; workingProvider] "typescript" "{}") s s' /\
       final s').
Proof.
  apply (fetchAll_terminates cachingFetcher [failingProvider; workingProvider]
           "typescript" "{}" ∅).
  vm_compute. lia.
Defined.

(** In the settled state of the sample fetch the two arrays hold one name
    each, the two providers between them. *)
Lemma fetchAll_accounts_witness :
  final settledFetch /\
  successfulProviders settledFetch = [duckduckgo] /\
  provider <$> errors settledFetch = [brave] /\
  successfulProviders settledFetch ++ (provider <$> errors settledFetch)
    ≡ₚ settledNames [failingProvider; workingProvider] (phases settledFetch) /\
  successfulProviders settledFetch ++ (provider <$> errors settledFetch)
    ≡ₚ name <$> [failingProvider; workingProvider] /\
  length (successfulProviders settledFetch) + length (errors settledFetch) = 2.
Proof.
  assert (final settledFetch) as Hf by (repeat constructor).
  destruct (fetchAll_accounts cachingFetcher [failingProvider; workingProvider]
              "typescript" "{}" ∅ settledFetch sample_run) as [H1 H2].
  destruct (H2 Hf) as [H3 H4].
  split; [exact Hf|]. split; [reflexivity|]. split; [reflexivity|].
  split; [exact H1|]. split; [exact H3 | exact H4].
Defined.

(** In the settled state of the sample fetch the one result is what the
    working provider returned and the one error is what the failing provider
    threw. *)
Lemma fetchAll_provenance_witness :
  results settledFetch = [otherPage] /\
  length (errors settledFetch) = 1 /\
  Forall (returnedBy [failingProvider; workingProvider] ∅) (results settledFetch) /\
  Forall (thrownBy [failingProvider; workingProvider]) (errors settledFetch) /\
  Forall (fun r => exists p n rs,
            p ∈ [failingProvider; workingProvider] /\ search p n = Returns rs /\ r ∈ rs)
         (results settledFetch).
Proof.
  destruct (fetchAll_provenance cachingFetcher [failingProvider; workingProvider]
              "typescript" "{}" ∅ settledFetch sample_run) as (H1 & H2 & H3).
  split; [reflexivity|]. split; [reflexivity|].
  split; [exact H1|]. split; [exact H2 | exact (H3 eq_refl)].
Defined.

End FetcherRunsExamples.

(** *** Rate limiter *)

Section RateLimiterFacts.
Import RateLimiter.
Local Open Scope Q_scope.

Lemma refill_bounds now self :
  withinBounds self -> (lastRefill self <= now)%Z ->
  withinBounds (refill now self) /\ tokens self <= tokens (refill now self).
Proof.
  intros (H0 & H1 & H2 & H3) Hnow. unfold withinBounds, refill.
  cbn [tokens maxTokens refillRate].
  assert (0 <= inject_Z (now - lastRefill self) / 1000 * refillRate self) as Hadd.
  { apply Qmult_le_0_compat; [|exact H3].
    apply Qle_shift_div_l; [reflexivity|]. rewrite Qmult_0_l.
    rewrite <- (Zle_Qle 0). lia. }
  split; [split; [|split; [|split]]|].
  - apply Q.min_glb; lra.
  - apply Q.le_min_l.
  - exact H2.
  - exact H3.
  - apply Q.min_glb; lra.
Qed.

(** X26: the bucket stays within its bounds.  A new limiter (for a rate
    that is not negative) holds [max(1, rate)] tokens, its capacity.  On a
    bucket within its bounds and a clock that has not gone back,
    [tryAcquire] answers true exactly when the refilled bucket holds a whole
    token, takes one token then and none otherwise, and leaves the bucket
    between 0 and its capacity; [getAvailableTokens] takes nothing. *)
Theorem tryAcquire_spec (now : Z) (self : RateLimiter) :
  (forall rate t0, 0 <= rate ->
     withinBounds (newLimiter rate t0) /\
     tokens (newLimiter rate t0) = Qmax 1 rate /\
     fst (tryAcquire t0 (newLimiter rate t0)) = true) /\
  (withinBounds self -> (lastRefill self <= now)%Z ->
   let refilled := refill now self in
   let answer := fst (tryAcquire now self) in
   let after := snd (tryAcquire now self) in
   withinBounds after /\
   lastRefill after = now /\
   maxTokens after = maxTokens self /\ refillRate after = refillRate self /\
   (answer = true <-> 1 <= tokens refilled) /\
   (answer = true -> tokens after == tokens refilled - 1) /\
   (answer = false -> after = refilled) /\
   getAvailableTokens now self = (tokens refilled, refilled)).
Proof.
  split.
  - intros rate t0 Hrate. split; [|split].
    + unfold withinBounds, newLimiter. cbn [tokens maxTokens refillRate].
      pose proof (Q.le_max_l 1 rate). repeat split; try lra.
    + reflexivity.
    + unfold tryAcquire, refill, newLimiter. cbn [tokens maxTokens refillRate lastRefill].
      rewrite Z.sub_diag.
      assert (1 <= Qmin (Qmax 1 rate) (Qmax 1 rate + inject_Z 0 / 1000 * rate)) as H.
      { pose proof (Q.le_max_l 1 rate).
        assert (inject_Z 0 / 1000 * rate == 0) as -> by (unfold Qdiv; now rewrite !Qmult_0_l).
        apply Q.min_glb; lra. }
      apply Qle_bool_iff in H. now rewrite H.
  - intros Hb Hnow. cbv zeta.
    destruct (refill_bounds now self Hb Hnow) as [(R0 & R1 & R2 & R3) _].
    unfold tryAcquire, getAvailableTokens.
    destruct (Qle_bool 1 (tokens (refill now self))) eqn:E; cbn [fst snd].
    + apply Qle_bool_iff in E.
      repeat split; try reflexivity; try assumption; try discriminate;
        unfold takeToken; cbn [tokens maxTokens refillRate]; try lra.
    + assert (~ 1 <= tokens (refill now self)) as E'
        by (intros H; apply Qle_bool_iff in H; congruence).
      repeat split; try reflexivity; try assumption; try discriminate.
      intros H. contradiction.
Qed.

(** X27: [acquire] always takes a token.  On a bucket within its bounds and
    a clock that does not go back: when the refilled bucket holds a whole
    token, one is taken at once and the bucket stays within its bounds.
    Otherwise the caller sleeps, and [acquire] then refills and takes a
    token without looking at the bucket again: the bucket is stamped with
    the wake time and lies between -1 and the capacity less 1; it is not
    negative exactly when the refill at the wake reached a whole token, and
    it is negative when the clock has not advanced over the sleep. *)
Theorem acquire_spec (now wake : Z) (self : RateLimiter) :
  withinBounds self -> (lastRefill self <= now)%Z -> (now <= wake)%Z ->
  let refilled := refill now self in
  let after := acquire now wake self in
  (1 <= tokens refilled -> after = takeToken refilled /\ withinBounds after) /\
  (tokens refilled < 1 ->
   after = takeToken (refill wake refilled) /\
   lastRefill after = wake /\
   - (1) <= tokens after /\ tokens after <= maxTokens self - 1 /\
   (0 <= tokens after <-> 1 <= tokens (refill wake refilled)) /\
   (wake = now -> tokens after < 0)).
Proof.
  intros Hb Hnow Hwake. cbv zeta.
  destruct (refill_bounds now self Hb Hnow) as [Hr _].
  pose proof Hr as (R0 & R1 & R2 & R3).
  unfold acquire. split.
  - intros H. apply Qle_bool_iff in H as H'. rewrite H'. split; [reflexivity|].
    unfold withinBounds, takeToken. cbn [tokens maxTokens refillRate]. repeat split; lra.
  - intros Hlt.
    destruct (Qle_bool 1 (tokens (refill now self))) eqn:E;
      [apply Qle_bool_iff in E; lra|].
    set (r := refill now self) in *.
    assert (lastRefill r <= wake)%Z as Hlast by exact Hwake.
    destruct (refill_bounds wake r Hr Hlast) as [(W0 & W1 & _ & _) _].
    change (maxTokens (refill wake r)) with (maxTokens self) in W1.
    split; [reflexivity|]. split; [reflexivity|].
    unfold takeToken. cbn [tokens].
    split; [lra|]. split; [lra|]. split; [split; lra|].
    intros ->. unfold refill at 1. cbn [tokens].
    change (lastRefill r) with now. rewrite Z.sub_diag.
    assert (inject_Z 0 / 1000 * refillRate r == 0) as ->
      by (unfold Qdiv; now rewrite !Qmult_0_l).
    rewrite Q.min_r by lra. lra.
Qed.

End RateLimiterFacts.

Section RateLimiterExamples.
Import RateLimiter.
Local Open Scope Q_scope.

(** A limiter of two requests per second, emptied by two calls and asked
    again at once, whose caller wakes after 100 ms of the 500 ms it asked
    for: the bucket is left negative. *)
Lemma acquire_spec_witness :
  let self := mkLimiter 0 1700000000000 2 2 in
  let after := acquire 1700000000000 1700000000100 self in
  lastRefill after = 1700000000100%Z /\
  - (1) <= tokens after /\ tokens after <= 2 - 1 /\
  ~ 0 <= tokens after.
Proof.
  cbv zeta.
  assert (withinBounds (mkLimiter 0 1700000000000 2 2)) as Hb
    by (repeat split; vm_compute; discriminate).
  destruct (acquire_spec 1700000000000 1700000000100 _ Hb ltac:(simpl; lia) ltac:(lia))
    as [_ H].
  destruct H as (_ & H1 & H2 & H3 & H4 & _); [vm_compute; reflexivity|].
  split; [exact H1|]. split; [exact H2|]. split; [exact H3|].
  intros H. apply H4 in H. revert H. vm_compute. intros H. now apply H.
Defined.

End RateLimiterExamples.

(** *** The interactive session *)

Section SessionFacts.
Import Session.

Lemma parseSelection_bounds input max :
  Forall (fun x => 1 <= x <= max)%Z (InteractiveSearch.parseSelection input max).
Proof.
  unfold InteractiveSearch.parseSelection. apply Forall_forall. intros x Hx.
  apply sortBy_elem_of in Hx. apply uniq_elem_of in Hx; [|apply Z.eqb_eq].
  pose proof (fold_partStep_bounds max (map JS.trim (JS.splitChar "," input)) []
                ltac:(constructor)) as H.
  rewrite Forall_forall in H. now apply H.
Qed.

Lemma parseSelection_NoDup input max : NoDup (InteractiveSearch.parseSelection input max).
Proof.
  unfold InteractiveSearch.parseSelection.
  rewrite sortBy_perm. apply uniq_NoDup, Z.eqb_eq.
Qed.

Lemma omap_length_le {A B} (f : A -> option B) l : length (omap f l) <= length l.
Proof.
  induction l as [|x l IH]; [reflexivity|].
  cbn [omap list_omap]. destruct (f x); simpl; lia.
Qed.

Lemma bounded_NoDup_length (l : list Z) (n : nat) :
  NoDup l -> Forall (fun x => 1 <= x <= Z.of_nat n)%Z l -> length l <= n.
Proof.
  intros HN HF.
  assert (length (Z.to_nat <$> l) <= length (seq 1 n)) as H.
  { apply submseteq_length, NoDup_submseteq.
    - apply NoDup_fmap_2_strong; [|exact HN].
      intros x y Hx Hy E. rewrite Forall_forall in HF.
      pose proof (HF x Hx). pose proof (HF y Hy). lia.
    - intros k Hk. apply list_elem_of_fmap in Hk as (x & -> & Hx).
      rewrite Forall_forall in HF. pose proof (HF x Hx).
      apply list_elem_of_In, in_seq. lia. }
  now rewrite length_fmap, length_seq in H.
Qed.

(** X28: a selection picks suggestions that exist.  Every number
    [parseSelection] returns for the length of the suggestion list is the
    number of a suggestion, so the selected terms are the terms of the
    suggestions at these numbers, less the empty ones (in the order of the
    numbers, when no suggestion has an empty term); there are no more of
    them than suggestions, and each is the term of a suggestion. *)
Theorem selectedTerms_spec (trimmed : string)
    (suggestions : list Refiner.RefinementSuggestion) :
  let selected :=
    InteractiveSearch.parseSelection trimmed (Z.of_nat (length suggestions)) in
  let terms := selectedTerms trimmed suggestions in
  Forall (fun i => exists s, suggestions !! Z.to_nat (i - 1) = Some s /\
                             index suggestions (i - 1) = Some s) selected /\
  length terms <= length selected /\
  length selected <= length suggestions /\
  (forall t, t ∈ terms <->
     t <> "" /\ exists i s, i ∈ selected /\ suggestions !! Z.to_nat (i - 1) = Some s /\
                            Refiner.term s = t) /\
  (Forall (fun s => Refiner.term s <> "") suggestions ->
   Some <$> terms
   = (fun i => Refiner.term <$> suggestions !! Z.to_nat (i - 1)) <$> selected).
Proof.
  cbv zeta.
  pose proof (parseSelection_bounds trimmed (Z.of_nat (length suggestions))) as Hb.
  pose proof (parseSelection_NoDup trimmed (Z.of_nat (length suggestions))) as Hn.
  set (selected := InteractiveSearch.parseSelection trimmed (Z.of_nat (length suggestions)))
    in *.
  assert (forall i, i ∈ selected ->
            exists s, suggestions !! Z.to_nat (i - 1) = Some s /\
                      index suggestions (i - 1) = Some s) as Hhit.
  { intros i Hi. rewrite Forall_forall in Hb. specialize (Hb i Hi).
    destruct (lookup_lt_is_Some_2 suggestions (Z.to_nat (i - 1)) ltac:(lia)) as [s Hs].
    exists s. split; [exact Hs|]. unfold index.
    replace (i - 1 <? 0)%Z with false by (symmetry; apply Z.ltb_ge; lia). exact Hs. }
  split; [now apply Forall_forall|].
  split; [apply omap_length_le|].
  split; [now apply bounded_NoDup_length|].
  split.
  - intros t. unfold selectedTerms. fold selected. rewrite list_elem_of_omap. split.
    + intros (i & Hi & E). destruct (Hhit i Hi) as (s & Hs & Hidx).
      rewrite Hidx in E. cbn [fmap option_fmap option_map] in E.
      destruct (String.eqb (Refiner.term s) "") eqn:Ee; [discriminate|].
      injection E as <-. split; [now apply String.eqb_neq|]. now exists i, s.
    + intros (Hne & i & s & Hi & Hs & <-). exists i. split; [exact Hi|].
      destruct (Hhit i Hi) as (s' & Hs' & Hidx). rewrite Hidx.
      assert (s' = s) as -> by congruence. cbn [fmap option_fmap option_map].
      now apply String.eqb_neq in Hne as ->.
  - intros Hne. unfold selectedTerms. fold selected.
    assert (forall i, i ∈ selected -> True) as _ by auto.
    induction selected as [|i rest IH]; [reflexivity|].
    cbn [omap list_omap]. destruct (Hhit i ltac:(left)) as (s & Hs & Hidx).
    rewrite Hidx. cbn [fmap option_fmap option_map].
    assert (Refiner.term s <> "") as Hs'.
    { rewrite Forall_forall in Hne. apply Hne. eapply list_elem_of_lookup_2; eauto. }
    apply String.eqb_neq in Hs' as ->. rewrite !fmap_cons, Hs. cbn [fmap option_fmap option_map].
    f_equal. apply IH.
    + now apply Forall_cons in Hb as [_ Hb].
    + now apply NoDup_cons in Hn as [_ Hn].
    + intros j Hj. apply Hhit. now right.
Qed.

Lemma providerEqb_spec a b : providerEqb a b = true <-> a = b.
Proof. unfold providerEqb. apply bool_decide_eq_true. Qed.

(** X29: the final results of a session.  [buildFinalResults] returns
    every accumulated result once, scored for the initial query, in
    descending order of score and with at least one category each; the total
    is the number of accumulated results; the providers are the sources of
    the accumulated results, each once; and no error is reported. *)
Theorem buildFinalResults_spec (parseURL : URLParser) (config : Scorer.ScoringConfig)
    (categoryList : list Categorizer.Category) (clock : nat -> Z) (now : Z)
    (allResults : list SearchResult) (initialQuery : string) :
  let final := buildFinalResults parseURL config categoryList clock now allResults
                                 initialQuery in
  a_totalResults final = length allResults /\
  length (a_results final) = length allResults /\
  a_results final
    ≡ₚ imap (fun i r =>
               let scored := Scorer.score parseURL config (clock i) r initialQuery in
               Categorizer.withCategories scored
                 (Categorizer.matchCategories parseURL categoryList scored))
            allResults /\
  StronglySorted (fun x y => (c_score y <= c_score x)%Q) (a_results final) /\
  Forall (fun r => categories r <> []) (a_results final) /\
  NoDup (a_providers final) /\
  (forall p, p ∈ a_providers final <-> exists r, r ∈ allResults /\ source r = p) /\
  a_errors final = [].
Proof.
  cbv zeta. unfold buildFinalResults.
  cbn [a_totalResults a_results a_providers a_errors].
  destruct (scoreAll_perm_sorted parseURL config clock allResults initialQuery)
    as (Hperm & Hlen & Hsorted).
  unfold Categorizer.categorize.
  split; [now rewrite length_map|]. split; [now rewrite length_map|].
  split; [|split; [|split; [|split; [|split]]]].
  - change (map ?f ?l) with (f <$> l). rewrite Hperm.
    rewrite fmap_imap. reflexivity.
  - change (map ?f ?l) with (f <$> l).
    apply (StronglySorted_fmap _ (fun a b => (s_score b <= s_score a)%Q));
      [|exact Hsorted].
    intros x y H. exact H.
  - apply Forall_forall. intros r Hr. apply list_elem_of_In, in_map_iff in Hr as (x & <- & _).
    cbn [categories Categorizer.withCategories].
    rewrite matchCategories_labels. apply labels_spec_nonempty.
  - apply uniq_NoDup, providerEqb_spec.
  - intros p. rewrite uniq_elem_of by apply providerEqb_spec.
    rewrite list_elem_of_In, in_map_iff. split.
    + intros (r & <- & Hr). exists r. split; [now apply list_elem_of_In | reflexivity].
    + intros (r & Hr & <-). exists r. split; [reflexivity | now apply list_elem_of_In].
  - reflexivity.
Qed.

End SessionFacts.

(** *** Deduplication keys *)

Section KeyFacts.
Import Deduplicator.

Lemma everyChar_app p a b :
  JS.everyChar p (a +:+ b) = JS.everyChar p a && JS.everyChar p b.
Proof. induction a as [|c a IH]; simpl; [reflexivity | now rewrite IH, andb_assoc]. Qed.

Lemma everyChar_trimStart p s :
  JS.everyChar p s = true -> JS.everyChar p (JS.trimStart s) = true.
Proof.
  induction s as [|c s IH]; simpl; [reflexivity|].
  intros H. apply andb_true_iff in H as [Hc Hs].
  destruct (JS.isSpace c); [now apply IH | simpl; now rewrite Hc, Hs].
Qed.

Lemma everyChar_trim p s : JS.everyChar p s = true -> JS.everyChar p (JS.trim s) = true.
Proof.
  intros H. unfold JS.trim.
  rewrite everyChar_rev. apply everyChar_trimStart.
  rewrite everyChar_rev. now apply everyChar_trimStart.
Qed.

Lemma everyChar_collapseSpaces (q : ascii -> bool) s inRun :
  JS.everyChar (fun c => JS.isSpace c || q c) s = true ->
  JS.everyChar (fun c => q c || Ascii.eqb c " ") (JS.collapseSpaces_go s inRun) = true.
Proof.
  revert inRun. induction s as [|c s IH]; intros inRun; simpl; [reflexivity|].
  intros H. apply andb_true_iff in H as [Hc Hs].
  destruct (JS.isSpace c) eqn:E.
  - destruct inRun; [now apply IH|]. simpl. rewrite orb_true_r. now apply IH.
  - simpl in *. rewrite Hc. simpl. now apply IH.
Qed.

Lemma splitChar_go_every p sep s cur :
  JS.everyChar p s = true -> JS.everyChar p cur = true ->
  Forall (fun piece => JS.everyChar p piece = true) (JS.splitChar_go sep s cur).
Proof.
  revert cur. induction s as [|c s IH]; intros cur Hs Hcur; simpl.
  - constructor; [now rewrite everyChar_rev | constructor].
  - simpl in Hs. apply andb_true_iff in Hs as [Hc Hs].
    destruct (Ascii.eqb c sep).
    + constructor; [now rewrite everyChar_rev | now apply IH].
    + apply IH; [exact Hs|]. simpl. now rewrite Hc, Hcur.
Qed.

Lemma everyChar_join p sep parts :
  JS.everyChar p sep = true ->
  Forall (fun part => JS.everyChar p part = true) parts ->
  JS.everyChar p (JS.join sep parts) = true.
Proof.
  intros Hsep. induction 1 as [|x l Hx Hl IH]; [reflexivity|].
  destruct l as [|y l]; [exact Hx|].
  change (JS.join sep (x :: y :: l)) with (x +:+ sep +:+ JS.join sep (y :: l)).
  now rewrite !everyChar_app, Hx, Hsep, IH.
Qed.

Lemma trigramsOf_every p words :
  Forall (fun w => JS.everyChar p w = true) words ->
  Forall (fun t => JS.everyChar p t = true) (trigramsOf words).
Proof.
  induction 1 as [|w1 rest H1 Hrest IH]; [constructor|].
  cbn [trigramsOf]. destruct rest as [|w2 [|w3 rest]]; try constructor.
  apply Forall_app. split; [|exact IH].
  destruct (nonEmpty w1 && nonEmpty w2 && nonEmpty w3); [|constructor].
  constructor; [|constructor]. apply everyChar_join; [reflexivity|].
  apply Forall_forall. intros x Hx. apply sortBy_elem_of in Hx.
  rewrite Forall_forall in Hrest.
  apply elem_of_cons in Hx as [-> | Hx]; [exact H1|].
  apply Hrest. apply elem_of_cons in Hx as [-> | Hx]; [left|].
  apply list_elem_of_singleton in Hx. subst x. right. left.
Qed.

Lemma keepWordSpace_class c :
  let c' := keepWordSpace (JS.lowerChar c) in
  JS.isSpace c' || JS.isLowerWord c' = true.
Proof. destruct c as [[] [] [] [] [] [] [] []]; vm_compute; reflexivity. Qed.

Lemma fingerprintChar_of_word c :
  JS.isLowerWord c || Ascii.eqb c " " = true -> isFingerprintChar c = true.
Proof. unfold isFingerprintChar. intros ->. reflexivity. Qed.

Lemma fingerprintChar_not_colon c : isFingerprintChar c = true -> Ascii.eqb c ":" = false.
Proof. destruct c as [[] [] [] [] [] [] [] []]; vm_compute; congruence. Qed.

Lemma cleaned_every text :
  JS.everyChar isFingerprintChar
    (JS.trim (JS.collapseSpaces (JS.mapChars keepWordSpace (JS.toLowerCase text)))) = true.
Proof.
  apply everyChar_trim.
  apply (everyChar_impl (fun c => JS.isLowerWord c || Ascii.eqb c " ")).
  - apply fingerprintChar_of_word.
  - apply everyChar_collapseSpaces.
    rewrite mapChars_toLowerCase. apply everyChar_mapChars. apply keepWordSpace_class.
Qed.

Lemma Forall_take {A} (P : A -> Prop) n l : Forall P l -> Forall P (take n l).
Proof.
  intros H. apply Forall_forall. intros x Hx. rewrite Forall_forall in H. apply H.
  eapply elem_of_sublist; [exact Hx | apply sublist_take].
Qed.

(** A fingerprint is made of [a-z0-9_], spaces and bars. *)
Lemma fingerprint_every text : JS.everyChar isFingerprintChar (fingerprint text) = true.
Proof.
  unfold fingerprint. pose proof (cleaned_every text) as Hc.
  set (cleaned := JS.trim (JS.collapseSpaces (JS.mapChars keepWordSpace (JS.toLowerCase text))))
    in *.
  destruct (decide _); [exact Hc|].
  apply everyChar_join; [reflexivity|]. apply Forall_take.
  apply Forall_forall. intros t Ht. apply sortBy_elem_of in Ht.
  apply uniq_elem_of in Ht; [|apply String.eqb_eq].
  assert (Forall (fun w => JS.everyChar isFingerprintChar w = true)
            (filter (fun w => 2 < JS.len w) (JS.splitChar " " cleaned))) as Hw.
  { apply Forall_forall. intros w Hw. apply list_elem_of_filter in Hw as [_ Hw].
    pose proof (splitChar_go_every isFingerprintChar " " cleaned "" Hc eq_refl) as H.
    rewrite Forall_forall in H. now apply H. }
  pose proof (trigramsOf_every _ _ Hw) as H. rewrite Forall_forall in H. now apply H.
Qed.

(** Two strings joined by a colon are told apart by their parts when the
    second part has no colon. *)
Lemma colon_inj u1 u2 f1 f2 :
  JS.everyChar (fun c => negb (Ascii.eqb c ":")) f1 = true ->
  JS.everyChar (fun c => negb (Ascii.eqb c ":")) f2 = true ->
  u1 +:+ ":" +:+ f1 = u2 +:+ ":" +:+ f2 -> u1 = u2 /\ f1 = f2.
Proof.
  intros H1 H2. revert u2. induction u1 as [|c u1 IH]; intros [|d u2] E.
  - change (String ":" f1 = String ":" f2) in E. injection E as E. now split.
  - exfalso. change (String ":" f1 = String d (u2 +:+ ":" +:+ f2)) in E.
    injection E as Ec E. subst f1 d.
    rewrite everyChar_app in H1. cbn in H1. rewrite andb_false_r in H1. discriminate.
  - exfalso. change (String c (u1 +:+ ":" +:+ f1) = String ":" f2) in E.
    injection E as Ec E. subst f2 c.
    rewrite everyChar_app in H2. cbn in H2. rewrite andb_false_r in H2. discriminate.
  - change (String c (u1 +:+ ":" +:+ f1) = String d (u2 +:+ ":" +:+ f2)) in E.
    injection E as -> E. destruct (IH _ E) as [-> ->]. now split.
Qed.

Lemma fingerprint_no_colon text :
  JS.everyChar (fun c => negb (Ascii.eqb c ":")) (fingerprint text) = true.
Proof.
  apply (everyChar_impl isFingerprintChar); [|apply fingerprint_every].
  intros c H. now rewrite (fingerprintChar_not_colon c H).
Qed.

(** X30: what a key says.  Two results have the same deduplication key
    exactly when their URLs agree (after normalization, when it is
    configured) and, when content fingerprints are configured, the
    fingerprints of their title and snippet agree: a fingerprint holds only
    [a-z0-9_], spaces and bars, so the colon between the two parts of a key
    cannot be mistaken. *)
Theorem generateKey_injective (parseURL : URLParser) (config : DeduplicationConfig)
    (r1 r2 : SearchResult) :
  JS.everyChar isFingerprintChar (fingerprint (textOf r1)) = true /\
  (generateKey parseURL config r1 = generateKey parseURL config r2 <->
   urlPart (normalizeUrl parseURL) config r1 = urlPart (normalizeUrl parseURL) config r2 /\
   (contentFingerprint config = true ->
    fingerprint (textOf r1) = fingerprint (textOf r2))).
Proof.
  split; [apply fingerprint_every|].
  unfold generateKey, urlPart, textOf.
  set (u1 := if urlNormalization config then normalizeUrl parseURL (url r1) else url r1).
  set (u2 := if urlNormalization config then normalizeUrl parseURL (url r2) else url r2).
  destruct (contentFingerprint config).
  - cbn [app JS.join]. split.
    + intros E. apply colon_inj in E as [-> E]; try apply fingerprint_no_colon.
      split; [reflexivity | intros _; exact E].
    + intros [-> E]. now rewrite (E eq_refl).
  - cbn [app JS.join]. split; [intros ->; split; [reflexivity | discriminate] | intros [-> _]; reflexivity].
Qed.

End KeyFacts.
